(** * ApplyGuardrail for streaming and long-context text

    A shallow embedding of the helper functions of the notebook
    [Apply_Guardrail_with_Streaming_and_Long_Context.ipynb]:

    - [check_severe_violations], [is_policy_assessement_blocked] and
      [apply_guardrail]            (the unit evaluator),
    - [apply_guardrail_full_text]  (the batch chunker, built on
      [textwrap.wrap]),
    - [stream_conversation]        (the stream dispatcher),
    - [generate]                   (the caller that opens the stream and
      catches [ClientError]),

    and of [get_local_path] of the notebook [Claude-3 Haiku Fine-Tuning
    Training and Validation Data Validator.ipynb] (module [Validator]).

    Conventions of the embedding.

    - A Python [str] is a [string]; a character is one of the 256 code
      points of [ascii] (texts of Latin-1 characters).  [len] is
      [String.length].
    - The two SDK calls are the only effects that matter for the results:
      [bedrock_runtime.apply_guardrail] is a parameter that maps a request
      and the state of the outside world to an outcome and a new state of
      the world; the event stream obtained from
      [bedrock_runtime.converse_stream] is a list of events.  Every request
      sent is appended to a log, so that "how many calls, with what
      content" is a property of a run.
    - Exceptions ([KeyError], [UnboundLocalError], the SDK's
      [ClientError]) are the [Raised] results of a small state-and-error
      monad.
    - [print] writes to standard output only; output is not modelled.  An
      f-string subscript that can raise is kept as a check. *)

From Stdlib Require Import String Ascii List Arith NArith Bool Lia.
Import ListNotations.

Set Implicit Arguments.

Local Open Scope string_scope.
Local Open Scope list_scope.

(** ** Configuration *)

Definition TEXT_UNIT : nat := 1000.      (* characters *)
Definition LIMIT_TEXT_UNIT : nat := 25.

(** ** Data model: requests and responses of [ApplyGuardrail] *)

(** One violation entry of a policy: [violation['action']]. *)
Module Finding.
Record t := mk { action : string }.
End Finding.

(** [assessment['topicPolicy']], read through [['topics']]. *)
Module TopicPolicy.
Record t := mk { topics : list Finding.t }.
End TopicPolicy.

(** [assessment['wordPolicy']]; both keys are tested with [in]. *)
Module WordPolicy.
Record t := mk { customWords : option (list Finding.t);
                   managedWordLists : option (list Finding.t) }.
End WordPolicy.

(** [assessment['sensitiveInformationPolicy']]; both keys are tested. *)
Module SensitiveInformationPolicy.
Record t := mk { piiEntities : option (list Finding.t);
                   regexes : option (list Finding.t) }.
End SensitiveInformationPolicy.

(** [assessment['contentPolicy']], read through [['filters']]. *)
Module ContentPolicy.
Record t := mk { filters : list Finding.t }.
End ContentPolicy.

(** One element of [response['assessments']]: a dict in which each policy
    key may be present or absent. *)
Module Assessment.
Record t := mk {
    topicPolicy : option TopicPolicy.t;
    wordPolicy : option WordPolicy.t;
    sensitiveInformationPolicy : option SensitiveInformationPolicy.t;
    contentPolicy : option ContentPolicy.t }.
Definition empty : t := mk None None None None.
End Assessment.

(** One element of [response['outputs']]. *)
Module Output.
Record t := mk { text : string }.
End Output.

(** [response['usage']]: the billing counters, never inspected. *)
Module Usage.
Record t := mk { topicPolicyUnits : nat;
                   contentPolicyUnits : nat;
                   wordPolicyUnits : nat;
                   sensitiveInformationPolicyUnits : nat }.
Definition zero : t := mk 0 0 0 0.
End Usage.

(** The keyword arguments of [bedrock_runtime.apply_guardrail]; [content]
    is the [text] of [[{"text": {"text": text}}]]. *)
Module Request.
Record t := mk { guardrailIdentifier : string;
                   guardrailVersion : string;
                   source : string;
                   content : string }.
End Request.

Module Response.
Record t := mk { action : string;
                   outputs : list Output.t;
                   assessments : list Assessment.t;
                   usage : Usage.t }.
End Response.

(** ** Exceptions and the monad of a run *)

Inductive Exn : Type :=
| ClientError (message : string)
| KeyError (key : string)
| UnboundLocalError (name : string).

Inductive Result (A : Type) : Type :=
| Returned (a : A)
| Raised (e : Exn).
Arguments Returned {A} a.
Arguments Raised {A} e.

(** The state threaded through a run: the requests sent so far to
    [ApplyGuardrail], oldest first, and the state of the outside world. *)
Record Env (World : Type) := mkEnv { sent : list Request.t; world : World }.

Definition M (World A : Type) : Type := Env World -> Result A * Env World.

Definition ret {World A} (a : A) : M World A := fun s => (Returned a, s).

Definition raise {World A} (e : Exn) : M World A := fun s => (Raised e, s).

Definition bind {World A B} (m : M World A) (k : A -> M World B) : M World B :=
  fun s => match m s with
           | (Returned a, s') => k a s'
           | (Raised e, s') => (Raised e, s')
           end.

Declare Scope run_scope.
Delimit Scope run_scope with run.
Notation "x <- m ;; k" := (bind m (fun x => k))
  (at level 61, m at next level, right associativity) : run_scope.
Notation "' p <- m ;; k" := (bind m (fun x => let p := x in k))
  (at level 61, p pattern, m at next level, right associativity) : run_scope.
Local Open Scope run_scope.

(** ** The unit evaluator *)

(** [sum] of a list of Python integers (or of booleans counted as 0/1). *)
Definition sum (l : list nat) : nat := fold_left Nat.add l 0.

Definition check_severe_violations (violations : list Finding.t) : nat :=
  let severe_violations :=
    map (fun violation => (Finding.action violation =? "BLOCKED")) violations in
  sum (map (fun b : bool => if b then 1 else 0) severe_violations).

(** The entries one assessment appends to [blocked], in source order. *)
Definition blocked_of_assessment (assessment : Assessment.t) : list nat :=
  (match Assessment.topicPolicy assessment with
   | Some p => [check_severe_violations (TopicPolicy.topics p)]
   | None => []
   end)
  ++ (match Assessment.wordPolicy assessment with
      | Some p =>
          (match WordPolicy.customWords p with
           | Some l => [check_severe_violations l]
           | None => []
           end)
          ++ (match WordPolicy.managedWordLists p with
              | Some l => [check_severe_violations l]
              | None => []
              end)
      | None => []
      end)
  ++ (match Assessment.sensitiveInformationPolicy assessment with
      | Some p =>
          (match SensitiveInformationPolicy.piiEntities p with
           | Some l => [check_severe_violations l]
           | None => []
           end)
          ++ (match SensitiveInformationPolicy.regexes p with
              | Some l => [check_severe_violations l]
              | None => []
              end)
      | None => []
      end)
  ++ (match Assessment.contentPolicy assessment with
      | Some p => [check_severe_violations (ContentPolicy.filters p)]
      | None => []
      end).

Definition is_policy_assessement_blocked (assessments : list Assessment.t) : bool :=
  let blocked :=
    fold_left (fun blocked assessment => blocked ++ blocked_of_assessment assessment)
              assessments [] in
  let severe_violation_count := sum blocked in
  (0 <? severe_violation_count)%nat.

Section UnitEvaluator.

Context {World : Type}.

  (** [bedrock_runtime.apply_guardrail]: the external call. *)
Variable bedrock_runtime_apply_guardrail :
    Request.t -> World -> Result Response.t * World.

  (** Sending one request: it is logged, then answered by the service. *)
Definition call_apply_guardrail (request : Request.t) : M World Response.t :=
    fun s =>
      let (outcome, w) := bedrock_runtime_apply_guardrail request (world s) in
      (outcome, mkEnv (sent s ++ [request]) w).

Definition apply_guardrail
      (text text_source_type guardrail_id guardrail_version : string)
    : M World (bool * string * Response.t) :=
    response <- call_apply_guardrail
                  (Request.mk guardrail_id guardrail_version text_source_type text) ;;
    if Response.action response =? "GUARDRAIL_INTERVENED" then
      let is_blocked := is_policy_assessement_blocked (Response.assessments response) in
      let alternate_text :=
        String.concat " " (map Output.text (Response.outputs response)) in
      ret (is_blocked, alternate_text, response)
    else
      (* Return the default response in case of no guardrail intervention *)
      ret (false, text, response).

End UnitEvaluator.

(** ** [textwrap.wrap]

    The batch chunker cuts the text with [wrap(text, width)] of Python's
    standard module [textwrap] (as in CPython 3.10 and 3.11), called with
    the default options
    ([expand_tabs], [replace_whitespace], [drop_whitespace],
    [break_long_words], [break_on_hyphens], [tabsize=8], no indents, no
    [max_lines], no [fix_sentence_endings]).  The module is modelled method
    by method; inside it a text is the list of its characters. *)

Module textwrap.

Definition text := list ascii.

(** The code point of a character. *)
Definition ord (c : ascii) : N := N_of_ascii c.

Definition between (lo hi n : N) : bool := ((lo <=? n) && (n <=? hi))%N.

(** [_whitespace = '\t\n\x0b\x0c\r '] *)
Definition in_whitespace (c : ascii) : bool :=
  between 9 13 (ord c) || (ord c =? 32)%N.

(** [str.isspace] on one character, as used by [str.strip()]: besides
    [_whitespace], the separators 28..31, NEL (133) and NBSP (160). *)
Definition isspace (c : ascii) : bool :=
  let n := ord c in
  between 9 13 n || between 28 32 n || (n =? 133)%N || (n =? 160)%N.

(** [\d] and [\w] of [re] on [str] patterns. *)
Definition re_d (c : ascii) : bool := between 48 57 (ord c).

Definition re_w (c : ascii) : bool :=
  let n := ord c in
  between 48 57 n || between 65 90 n || (n =? 95)%N || between 97 122 n
  || (n =? 170)%N || between 178 179 n || (n =? 181)%N
  || between 185 186 n || between 188 190 n
  || between 192 214 n || between 216 246 n || between 248 255 n.

(** [letter = r'[^\d\W]'] *)
Definition letter (c : ascii) : bool := negb (re_d c) && re_w c.

(** [word_punct]: a [\w] character or one of the seven marks
    ! (33), double quote (34), apostrophe (39), & (38), . (46), , (44),
    ? (63). *)
Definition word_punct (c : ascii) : bool :=
  let n := ord c in
  re_w c || (n =? 33)%N || (n =? 34)%N || (n =? 39)%N
  || (n =? 38)%N || (n =? 46)%N || (n =? 44)%N || (n =? 63)%N.

Definition hyphen : ascii := "-"%char.
Definition space : ascii := " "%char.
Definition tab : ascii := "009"%char.

(** [str.expandtabs(tabsize)]: [column] is the position in the current
    line, reset by a line feed or a carriage return. *)
Fixpoint expandtabs_from (tabsize column : nat) (s : text) : text :=
  match s with
  | [] => []
  | ch :: rest =>
      if (ch =? tab)%char then
        if (0 <? tabsize)%nat then
          let incr := tabsize - column mod tabsize in
          repeat space incr ++ expandtabs_from tabsize (column + incr) rest
        else expandtabs_from tabsize column rest
      else
        ch :: expandtabs_from tabsize
                (if ((ch =? "010") || (ch =? "013"))%char then 0 else S column)
                rest
  end.

Definition expandtabs (tabsize : nat) (s : text) : text :=
  expandtabs_from tabsize 0 s.

(** [str.translate(unicode_whitespace_trans)] *)
Definition translate_whitespace (s : text) : text :=
  map (fun c => if in_whitespace c then space else c) s.

Definition _munge_whitespace (s : text) : text :=
  translate_whitespace (expandtabs 8 s).

(** *** [wordsep_re.split]

    Every alternative of [wordsep_re] consumes at least one character and
    one of them matches at every position, so the matches tile the text
    and [split] returns them in order.  [back] holds the characters that
    precede the position, latest first (the look-behinds read it). *)

Fixpoint leading_hyphens (s : text) : nat :=
  match s with
  | c :: rest => if (c =? hyphen)%char then S (leading_hyphens rest) else 0
  | [] => 0
  end.

(** [(?=-{2,}\w)] *)
Definition em_dash_ahead (s : text) : bool :=
  let n := leading_hyphens s in
  (2 <=? n)%nat && match skipn n s with c :: _ => re_w c | [] => false end.

(** [(?<=wp)] *)
Definition after_word_punct (back : text) : bool :=
  match back with c :: _ => word_punct c | [] => false end.

(** [-(?: (?<=lt{2}-) | (?<=lt-lt-)) (?= lt -? lt)] at [s], which starts
    with the hyphen. *)
Definition hyphenated_break (back s : text) : bool :=
  match s with
  | h :: ahead =>
      (h =? hyphen)%char
      && (match back with
          | l1 :: l2 :: more =>
              (letter l1 && letter l2)
              || (letter l1 && (l2 =? hyphen)%char
                  && match more with l3 :: _ => letter l3 | [] => false end)
          | _ => false
          end)
      && (match ahead with
          | a1 :: a2 :: more =>
              letter a1
              && (if (a2 =? hyphen)%char
                  then match more with a3 :: _ => letter a3 | [] => false end
                  else letter a2)
          | _ => false
          end)
  | [] => false
  end.

(** The lazy [nws+?] of the third alternative, after at least one
    character has been consumed: the number of further characters of [s]
    the match takes. *)
Fixpoint word_rest (back s : text) : nat :=
  match s with
  | [] => 0                                        (* end of word: \Z *)
  | c :: rest =>
      if hyphenated_break back s then 1
      else if in_whitespace c then 0               (* end of word *)
      else if after_word_punct back && em_dash_ahead s then 0
      else S (word_rest (c :: back) rest)
  end.

Fixpoint whitespace_run (s : text) : nat :=
  match s with
  | c :: rest => if in_whitespace c then S (whitespace_run rest) else 0
  | [] => 0
  end.

(** Length of the match of [wordsep_re] at the start of [s]. *)
Definition match_length (back s : text) : nat :=
  match s with
  | [] => 0
  | c :: rest =>
      if in_whitespace c then whitespace_run s
      else if after_word_punct back && em_dash_ahead s then leading_hyphens s
      else S (word_rest (c :: back) rest)
  end.

Fixpoint split_from (fuel : nat) (back s : text) : list text :=
  match s, fuel with
  | [], _ => []
  | _, O => [s]
  | _, S fuel' =>
      let n := match_length back s in
      firstn n s :: split_from fuel' (rev_append (firstn n s) back) (skipn n s)
  end.

Definition nonempty {A} (l : list A) : bool :=
  match l with [] => false | _ => true end.

(** [_split]: the matches, empty strings removed. *)
Definition _split (s : text) : list text :=
  filter nonempty (split_from (length s) [] s).

(** *** [_wrap_chunks]

    The source reverses [chunks] and pops from the end; here the list is
    kept in text order and its head is [chunks[-1]]. *)

(** [chunk.strip() == ''] *)
Definition strip_is_empty (chunk : text) : bool := forallb isspace chunk.

(** [chunk.rfind(c, 0, stop)] *)
Fixpoint rfind_from (i : nat) (c : ascii) (s : text) : option nat :=
  match s with
  | [] => None
  | x :: rest =>
      match rfind_from (S i) c rest with
      | Some j => Some j
      | None => if (x =? c)%char then Some i else None
      end
  end.

Definition rfind (c : ascii) (s : text) (stop : nat) : option nat :=
  rfind_from 0 c (firstn stop s).

Definition _handle_long_word
    (chunks cur_line : list text) (cur_len width : nat)
  : list text * list text :=
  let space_left := if (width <? 1)%nat then 1 else width - cur_len in
  match chunks with
  | [] => (chunks, cur_line)
  | chunk :: rest =>
      let end_ :=
        if (space_left <? length chunk)%nat then
          match rfind hyphen chunk space_left with
          | Some hyphen_at =>
              if (0 <? hyphen_at)%nat
                 && existsb (fun c => negb (c =? hyphen)%char)
                            (firstn hyphen_at chunk)
              then hyphen_at + 1
              else space_left
          | None => space_left
          end
        else space_left in
      (skipn end_ chunk :: rest, cur_line ++ [firstn end_ chunk])
  end.

(** The inner [while chunks]: chunks go to the line while they fit. *)
Fixpoint fill_line (width : nat) (chunks cur_line : list text) (cur_len : nat)
  : list text * list text * nat :=
  match chunks with
  | [] => (chunks, cur_line, cur_len)
  | chunk :: rest =>
      let l := length chunk in
      if (cur_len + l <=? width)%nat
      then fill_line width rest (cur_line ++ [chunk]) (cur_len + l)
      else (chunks, cur_line, cur_len)
  end.

(** One turn of the outer [while chunks]. *)
Definition wrap_line (width : nat) (chunks : list text) (lines : list text)
  : list text * list text :=
  let chunks :=
    match chunks with
    | chunk :: rest =>
        if strip_is_empty chunk && nonempty lines then rest else chunks
    | [] => chunks
    end in
  let '(chunks, cur_line, cur_len) := fill_line width chunks [] 0 in
  let '(chunks, cur_line) :=
    match chunks with
    | chunk :: _ =>
        if (width <? length chunk)%nat
        then _handle_long_word chunks cur_line cur_len width
        else (chunks, cur_line)
    | [] => (chunks, cur_line)
    end in
  let cur_line :=
    if nonempty cur_line && strip_is_empty (last cur_line [])
    then removelast cur_line
    else cur_line in
  let lines :=
    if nonempty cur_line then lines ++ [concat cur_line] else lines in
  (chunks, lines).

Fixpoint wrap_loop (fuel width : nat) (chunks lines : list text) : list text :=
  match chunks, fuel with
  | [], _ => lines
  | _, O => lines
  | _, S fuel' =>
      let '(chunks', lines') := wrap_line width chunks lines in
      wrap_loop fuel' width chunks' lines'
  end.

Definition total_length (chunks : list text) : nat :=
  length (concat chunks).

(** [_wrap_chunks] for [self.width > 0]. *)
Definition _wrap_chunks (width : nat) (chunks : list text) : list text :=
  wrap_loop (S (total_length chunks)) width chunks [].

Definition wrap_text (s : text) (width : nat) : list text :=
  _wrap_chunks width (_split (_munge_whitespace s)).

(** [textwrap.wrap(text, width)] *)
Definition wrap (s : string) (width : nat) : list string :=
  map string_of_list_ascii (wrap_text (list_ascii_of_string s) width).

End textwrap.

(** ** Data model: the events of the token stream *)

(** [event['messageStart']], printed through [['role']]. *)
Module MessageStart.
Record t := mk { role : option string }.
End MessageStart.

(** [event['contentBlockDelta']['delta']]: the [text] key is absent in a
    delta that carries something else than text. *)
Module Delta.
Record t := mk { text : option string }.
End Delta.

Module ContentBlockDelta.
Record t := mk { delta : option Delta.t }.
End ContentBlockDelta.

(** [event['messageStop']]: the stream sends [stopReason]; the dispatcher
    itself stores a dict with [output] and [assessments] as well. *)
Module MessageStop.
Record t := mk { stopReason : option string;
                 output : option string;
                 assessments : option (list Assessment.t) }.
End MessageStop.

Module TokenUsage.
Record t := mk { inputTokens : nat; outputTokens : nat; totalTokens : nat }.
End TokenUsage.

Module Metrics.
Record t := mk { latencyMs : nat }.
End Metrics.

(** [event['metadata']]: only printed. *)
Module Metadata.
Record t := mk { usage : option TokenUsage.t;
                 metrics : option Metrics.t;
                 guardrails_usage : option Usage.t }.
Definition empty : t := mk None None None.
End Metadata.

(** One event of the stream: a dict tested for four keys. *)
Module Event.
Record t := mk { messageStart : option MessageStart.t;
                 contentBlockDelta : option ContentBlockDelta.t;
                 messageStop : option MessageStop.t;
                 metadata : option Metadata.t }.
End Event.

(** The local variables of [apply_guardrail_full_text] that the loop
    binds: [is_blocked] and [response] have no value before the first
    turn. *)
Module FullText.
Record locals := mk { is_blocked : option bool;
                      filtered_text : string;
                      response : option Response.t }.
End FullText.

(** The local variables of [stream_conversation]. *)
Module Stream.
Record locals := mk { full_text : string;
                      buffer_text : string;
                      applied_guardrails : list Response.t }.
Inductive flow : Type := Next | Break.
End Stream.

(** [d[key]] on a dict that may lack [key]. *)
Definition subscript {World A} (key : string) (v : option A) : M World A :=
  match v with
  | Some a => ret a
  | None => raise (KeyError key)
  end.

Section Dispatcher.

Context {World : Type}.

Variable bedrock_runtime_apply_guardrail :
  Request.t -> World -> Result Response.t * World.

(** The globals set from the response of [create_guardrail]. *)
Variables guardrail_id guardrail_version : string.

(** ** The batch chunker *)

(** [for i, chunk in enumerate(wrap(...))]: the turn for the first chunk,
    then the rest unless the turn ended in [break]. *)
Fixpoint for_chunk_in
    (chunks : list string) (text_source_type gid gversion : string)
    (l : FullText.locals) : M World FullText.locals :=
  match chunks with
  | [] => ret l
  | chunk :: rest =>
      ' (is_blocked, alternate_text, response) <-
          apply_guardrail bedrock_runtime_apply_guardrail
            chunk text_source_type gid gversion ;;
      if is_blocked : bool then
        ret (FullText.mk (Some is_blocked) alternate_text (Some response))
      else
        for_chunk_in rest text_source_type gid gversion
          (FullText.mk (Some is_blocked)
                       (FullText.filtered_text l ++ alternate_text)%string
                       (Some response))
  end.

Definition apply_guardrail_full_text
    (text text_source_type gid gversion : string)
  : M World (bool * string * Response.t) :=
  let text_length := String.length text in
  let filtered_text := "" in
  if (text_length <=? LIMIT_TEXT_UNIT * TEXT_UNIT)%nat then
    apply_guardrail bedrock_runtime_apply_guardrail
      text text_source_type gid gversion
  else
    l <- for_chunk_in (textwrap.wrap text (LIMIT_TEXT_UNIT * TEXT_UNIT))
           text_source_type gid gversion
           (FullText.mk None filtered_text None) ;;
    match FullText.is_blocked l, FullText.response l with
    | Some is_blocked, Some response =>
        ret (is_blocked, FullText.filtered_text l, response)
    | None, _ => raise (UnboundLocalError "is_blocked")
    | Some _, None => raise (UnboundLocalError "response")
    end.

(** ** The stream dispatcher *)

(** [if 'messageStart' in event]: the role is printed. *)
Definition on_messageStart (event : Event.t) : M World unit :=
  match Event.messageStart event with
  | Some start => _ <- subscript "role" (MessageStart.role start) ;; ret tt
  | None => ret tt
  end.

(** [if 'contentBlockDelta' in event]: returns the event, to which a
    blocked flush adds [messageStop], and the locals. *)
Definition on_contentBlockDelta (event : Event.t) (l : Stream.locals)
  : M World (Event.t * Stream.locals) :=
  match Event.contentBlockDelta event with
  | Some block =>
      d <- subscript "delta" (ContentBlockDelta.delta block) ;;
      new_text <- subscript "text" (Delta.text d) ;;
      if (TEXT_UNIT <? String.length (Stream.buffer_text l ++ new_text)%string)%nat then
        ' (is_blocked, alt_text, guardrail_response) <-
            apply_guardrail bedrock_runtime_apply_guardrail
              (Stream.buffer_text l) "OUTPUT" guardrail_id guardrail_version ;;
        let '(event, full_text) :=
          if is_blocked : bool then
            (Event.mk (Event.messageStart event)
                      (Event.contentBlockDelta event)
                      (Some (MessageStop.mk
                               (Some (Response.action guardrail_response))
                               (Some alt_text)
                               (Some (Response.assessments guardrail_response))))
                      (Event.metadata event),
             alt_text)
          else (event, (Stream.full_text l ++ alt_text)%string) in
        ret (event,
             Stream.mk full_text new_text
                       (Stream.applied_guardrails l ++ [guardrail_response]))
      else
        ret (event,
             Stream.mk (Stream.full_text l)
                       (Stream.buffer_text l ++ new_text)%string
                       (Stream.applied_guardrails l))
  | None => ret (event, l)
  end.

(** [if 'messageStop' in event] *)
Definition on_messageStop (event : Event.t) (l : Stream.locals)
  : M World (Stream.flow * Event.t * Stream.locals) :=
  match Event.messageStop event with
  | Some stop =>
      stopReason <- subscript "stopReason" (MessageStop.stopReason stop) ;;
      if stopReason =? "GUARDRAIL_INTERVENED" then
        ret (Stream.Break, event, l)
      else
        ' (is_blocked, alt_text, guardrail_response) <-
            apply_guardrail bedrock_runtime_apply_guardrail
              (Stream.buffer_text l) "OUTPUT" guardrail_id guardrail_version ;;
        if is_blocked : bool then
          let metadata :=
            match Event.metadata event with
            | Some m => m
            | None => Metadata.empty
            end in
          let event :=
            Event.mk (Event.messageStart event)
                     (Event.contentBlockDelta event)
                     (Event.messageStop event)
                     (Some (Metadata.mk
                              (Metadata.usage metadata)
                              (Metadata.metrics metadata)
                              (Some (Response.usage guardrail_response)))) in
          ret (Stream.Next, event,
               Stream.mk (Stream.full_text l) (Stream.buffer_text l)
                         (Stream.applied_guardrails l ++ [guardrail_response]))
        else
          ret (Stream.Next, event, l)
  | None => ret (Stream.Next, event, l)
  end.

(** [if 'metadata' in event]: token usage, latency and guardrail usage
    are printed. *)
Definition on_metadata (event : Event.t) : M World unit := ret tt.

(** The body of [for event in stream]. *)
Definition loop_body (event : Event.t) (l : Stream.locals)
  : M World (Stream.flow * Stream.locals) :=
  _ <- on_messageStart event ;;
  ' (event, l) <- on_contentBlockDelta event l ;;
  ' (flow, event, l) <- on_messageStop event l ;;
  match flow with
  | Stream.Break => ret (Stream.Break, l)
  | Stream.Next => _ <- on_metadata event ;; ret (Stream.Next, l)
  end.

(** [for event in stream]: returns the locals at the end of the loop and
    the events that were never taken from the stream. *)
Fixpoint for_event_in (stream : list Event.t) (l : Stream.locals)
  : M World (Stream.locals * list Event.t) :=
  match stream with
  | [] => ret (l, [])
  | event :: rest =>
      ' (flow, l') <- loop_body event l ;;
      match flow with
      | Stream.Break => ret (l', rest)
      | Stream.Next => for_event_in rest l'
      end
  end.

(** [stream_conversation], from [stream = response.get('stream')] on. *)
Definition stream_conversation (stream : option (list Event.t))
  : M World (string * list Response.t) :=
  let l := Stream.mk "" "" [] in   (* full_text, buffer_text, applied_guardrails *)
  match stream with
  | Some events =>
      ' (l, _) <- for_event_in events l ;;
      ret (Stream.full_text l, Stream.applied_guardrails l)
  | None => ret (Stream.full_text l, Stream.applied_guardrails l)
  end.

(** [Runs events l s l' s']: the loop takes every event of [events] in
    turn, from locals [l] and environment [s], no turn raises or breaks,
    and it stands at [l'] and [s'] before the next event. *)
Inductive Runs
  : list Event.t -> Stream.locals -> Env World ->
    Stream.locals -> Env World -> Prop :=
| Runs_nil : forall l s, Runs [] l s l s
| Runs_cons : forall event rest l s l1 s1 l' s',
    loop_body event l s = (Returned (Stream.Next, l1), s1) ->
    Runs rest l1 s1 l' s' ->
    Runs (event :: rest) l s l' s'.

End Dispatcher.

(** ** Vocabulary of the statements *)

(** Every finding of one assessment, over all its sub-policies. *)
Definition findings_of (assessment : Assessment.t) : list Finding.t :=
  (match Assessment.topicPolicy assessment with
   | Some p => TopicPolicy.topics p
   | None => []
   end)
  ++ (match Assessment.wordPolicy assessment with
      | Some p =>
          (match WordPolicy.customWords p with Some l => l | None => [] end)
          ++ (match WordPolicy.managedWordLists p with Some l => l | None => [] end)
      | None => []
      end)
  ++ (match Assessment.sensitiveInformationPolicy assessment with
      | Some p =>
          (match SensitiveInformationPolicy.piiEntities p with
           | Some l => l
           | None => []
           end)
          ++ (match SensitiveInformationPolicy.regexes p with
              | Some l => l
              | None => []
              end)
      | None => []
      end)
  ++ (match Assessment.contentPolicy assessment with
      | Some p => ContentPolicy.filters p
      | None => []
      end).

Definition all_findings (response : Response.t) : list Finding.t :=
  flat_map findings_of (Response.assessments response).

Definition blocking (finding : Finding.t) : Prop :=
  Finding.action finding = "BLOCKED".

(** The characters of a list that [str.strip] does not count as space. *)
Definition unspaced (s : list ascii) : list ascii :=
  filter (fun c => negb (textwrap.isspace c)) s.

(** The characters of a text that [str.strip] does not count as space. *)
Definition visible (s : string) : list ascii :=
  unspaced (list_ascii_of_string s).

(** The windows laid end to end. *)
Definition join_windows (windows : list string) : string :=
  String.concat "" windows.

(** The two lists taken in turn: x1, y1, x2, y2, ... *)
Fixpoint interleave {A} (xs ys : list A) : list A :=
  match xs, ys with
  | x :: xs', y :: ys' => x :: y :: interleave xs' ys'
  | _, _ => []
  end.

(** The text as [textwrap.wrap] cuts it: tabs expanded, and every
    character of [_whitespace] replaced by a blank. *)
Definition normalised (text : string) : string :=
  string_of_list_ascii
    (textwrap._munge_whitespace (list_ascii_of_string text)).

(** Every character is a space for [str.isspace] (what [str.strip]
    removes). *)
Definition all_space (s : string) : Prop :=
  forallb textwrap.isspace (list_ascii_of_string s) = true.


(** The service answers every request, and never with an intervention. *)
Definition never_intervenes {World}
    (service : Request.t -> World -> Result Response.t * World) : Prop :=
  forall request w, exists response w',
    service request w = (Returned response, w')
    /\ (Response.action response =? "GUARDRAIL_INTERVENED") = false.

(** The text a well-formed [contentBlockDelta] event carries. *)
Definition carried_text (event : Event.t) : option string :=
  match Event.contentBlockDelta event with
  | Some block =>
      match ContentBlockDelta.delta block with
      | Some d => Delta.text d
      | None => None
      end
  | None => None
  end.

(** The key whose lookup fails in a [contentBlockDelta] that carries no
    text. *)
Definition missing_key (block : ContentBlockDelta.t) : option string :=
  match ContentBlockDelta.delta block with
  | None => Some "delta"
  | Some d =>
      match Delta.text d with
      | None => Some "text"
      | Some _ => None
      end
  end.

(** [messageStart], when present, has its [role]. *)
Definition start_well_formed (event : Event.t) : Prop :=
  match Event.messageStart event with
  | Some start => MessageStart.role start <> None
  | None => True
  end.

(** ** Streams and services of the examples *)

Definition text_delta (new_text : string) : Event.t :=
  Event.mk None
           (Some (ContentBlockDelta.mk (Some (Delta.mk (Some new_text)))))
           None None.

Definition message_start : Event.t :=
  Event.mk (Some (MessageStart.mk (Some "assistant"))) None None None.

Definition message_stop (reason : string) : Event.t :=
  Event.mk None None (Some (MessageStop.mk (Some reason) None None)) None.

(** A [contentBlockDelta] whose delta has no [text] (a tool-use delta). *)
Definition toolless_delta : Event.t :=
  Event.mk None (Some (ContentBlockDelta.mk (Some (Delta.mk None)))) None None.

(** The stream of a generation that emits [deltas] and then stops. *)
Definition text_stream (deltas : list string) (reason : string) : list Event.t :=
  map text_delta deltas ++ [message_stop reason].

Definition chars (c : ascii) (n : nat) : string :=
  string_of_list_ascii (repeat c n).

Definition no_action : Response.t :=
  Response.mk "NONE" [] [] Usage.zero.

Definition topic_blocked : Assessment.t :=
  Assessment.mk (Some (TopicPolicy.mk [Finding.mk "BLOCKED"])) None None None.

Definition blocked_answer : Response.t :=
  Response.mk "GUARDRAIL_INTERVENED"
              [Output.mk "Sorry, I cannot answer that."]
              [topic_blocked] Usage.zero.

(** An answer the data model allows: no intervention reported, yet a
    finding marked [BLOCKED]. *)
Definition quiet_with_blocked_finding : Response.t :=
  Response.mk "NONE" [] [topic_blocked] Usage.zero.

(** No intervention reported; the topic was detected and let through. *)
Definition detected_only : Response.t :=
  Response.mk "NONE" []
    [Assessment.mk (Some (TopicPolicy.mk [Finding.mk "NONE"])) None None None]
    Usage.zero.

(** An intervention that blocks nothing: a name is masked. *)
Definition anonymized_answer : Response.t :=
  Response.mk "GUARDRAIL_INTERVENED"
    [Output.mk "My name is {NAME}."]
    [Assessment.mk None None
       (Some (SensitiveInformationPolicy.mk (Some [Finding.mk "ANONYMIZED"])
                                            None))
       None]
    Usage.zero.

(** A service without state that lets everything pass. *)
Definition permissive (request : Request.t) (w : unit)
  : Result Response.t * unit :=
  (Returned no_action, w).

(** A service that plays a script: one outcome per request, and
    [no_action] once the script is over. *)
Definition scripted (request : Request.t) (script : list (Result Response.t))
  : Result Response.t * list (Result Response.t) :=
  match script with
  | outcome :: rest => (outcome, rest)
  | [] => (Returned no_action, [])
  end.

Definition fresh {World} (w : World) : Env World := mkEnv [] w.

(** The locals at the start of [stream_conversation]. *)
Definition initial_locals : Stream.locals := Stream.mk "" "" [].

(** The deltas of a generation whose second delta is longer than a unit. *)
Definition hello_world_deltas : list string :=
  ["Hello "; String.concat "" (repeat "world " 200); "end"].


(** Four deltas; each of the first three fills more than half a unit. *)
Definition abcd_deltas : list string :=
  [chars "a" 600; chars "b" 600; chars "c" 600; "d"].

(** The first evaluation passes, the second is blocked. *)
Definition pass_then_block : list (Result Response.t) :=
  [Returned no_action; Returned blocked_answer].

(** The first evaluation is blocked, the second passes. *)
Definition block_then_pass : list (Result Response.t) :=
  [Returned blocked_answer; Returned no_action].

(** A stream that goes on after its first [messageStop]. *)
Definition resumed_stream : list Event.t :=
  [text_delta "Hello"; message_stop "end_turn";
   text_delta " world"; message_stop "end_turn"].

(** A text of blanks, one character longer than the per-call quota. *)
Definition blank_text : string :=
  chars " " (S (LIMIT_TEXT_UNIT * TEXT_UNIT)).

(** A full window of one letter, a blank, and one more letter. *)
Definition two_word_text : string :=
  (chars "a" (LIMIT_TEXT_UNIT * TEXT_UNIT) ++ " b")%string.

(** The locals of [apply_guardrail_full_text] after windows that passed,
    given the replacement text and the response of each. *)
Definition after_passes
    (l : FullText.locals) (outcomes : list (string * Response.t))
  : FullText.locals :=
  fold_left
    (fun l outcome =>
       FullText.mk (Some false)
                   (FullText.filtered_text l ++ fst outcome)%string
                   (Some (snd outcome)))
    outcomes l.

Section Windows.

Context {World : Type}.
Variable service : Request.t -> World -> Result Response.t * World.
Variables text_source_type gid gversion : string.

(** [Passes windows s outcomes s']: the windows are evaluated in order
    from environment [s], each one passes, with the replacement texts and
    responses [outcomes], and the environment is then [s']. *)
Inductive Passes
  : list string -> Env World -> list (string * Response.t) -> Env World -> Prop :=
| Passes_nil : forall s, Passes [] s [] s
| Passes_cons : forall window rest s alt r s1 outcomes s',
    apply_guardrail service window text_source_type gid gversion s
    = (Returned (false, alt, r), s1) ->
    Passes rest s1 outcomes s' ->
    Passes (window :: rest) s ((alt, r) :: outcomes) s'.

End Windows.

(** A text one character longer than the per-call quota. *)
Definition oversized_text : string :=
  chars "a" (S (LIMIT_TEXT_UNIT * TEXT_UNIT)).

(** ** The caller: the call of [converse_stream] and [generate] *)

Definition MODEL_ID : string := "anthropic.claude-3-haiku-20240307-v1:0".

(** One message: [{"role": ..., "content": [{"text": ...}, ...]}]. *)
Module Message.
Record t := mk { role : string; content : list string }.
End Message.

(** [{"temperature": temperature}]; the number is kept as its decimal
    literal. *)
Module InferenceConfig.
Record t := mk { temperature : Decimal.decimal }.
End InferenceConfig.

(** The keyword arguments of [bedrock_runtime.converse_stream]; [system]
    holds the text of each [{"text": ...}]. *)
Module ConverseRequest.
Record t := mk { modelId : string;
                 messages : list Message.t;
                 system : list string;
                 inferenceConfig : InferenceConfig.t;
                 additionalModelRequestFields : list (string * string) }.
End ConverseRequest.

(** The response of [converse_stream], read through [.get('stream')]. *)
Module ConverseResponse.
Record t := mk { stream : option (list Event.t) }.
End ConverseResponse.

Section Caller.

Context {World : Type}.

Variable bedrock_runtime_apply_guardrail :
  Request.t -> World -> Result Response.t * World.

(** [bedrock_runtime.converse_stream]: the other external call. *)
Variable bedrock_runtime_converse_stream :
  ConverseRequest.t -> World -> Result ConverseResponse.t * World.

Variables guardrail_id guardrail_version : string.

(** The call changes the world; it is no [ApplyGuardrail] request. *)
Definition call_converse_stream (request : ConverseRequest.t)
  : M World ConverseResponse.t :=
  fun s =>
    let (outcome, w) := bedrock_runtime_converse_stream request (world s) in
    (outcome, mkEnv (sent s) w).

(** [stream_conversation] from its first line: the call of
    [converse_stream], then the loop over the stream of the response. *)
Definition stream_conversation_call
    (messages : list Message.t) (system_prompts : list string)
    (inference_config : InferenceConfig.t)
    (additional_model_fields : list (string * string))
  : M World (string * list Response.t) :=
  response <- call_converse_stream
                (ConverseRequest.mk MODEL_ID messages system_prompts
                                    inference_config additional_model_fields) ;;
  stream_conversation bedrock_runtime_apply_guardrail
                      guardrail_id guardrail_version
                      (ConverseResponse.stream response).

(** [try: ... except ClientError as err: ... else: ...] around the
    assignment of [full_text, applied_guardrails]: the two locals after the
    statement.  A [ClientError] is caught (its message is printed) and
    leaves them unbound; any other exception goes on. *)
Definition try_stream_conversation
    (body : M World (string * list Response.t))
  : M World (option string * option (list Response.t)) :=
  fun s =>
    match body s with
    | (Returned (full_text, applied_guardrails), s') =>
        (Returned (Some full_text, Some applied_guardrails), s')
    | (Raised (ClientError message), s') => (Returned (None, None), s')
    | (Raised e, s') => (Raised e, s')
    end.

Definition generate (input_message : string)
  : M World (string * list Response.t) :=
  let system_prompt :=
    "You are an assistant that helps with tasks from users. Be as elaborate as possible" in
  let message := Message.mk "user" [input_message] in
  let messages := [message] in
  let system_prompts := [system_prompt] in
  let temperature :=
    Decimal.Decimal (Decimal.Pos (Decimal.D0 Decimal.Nil))
                    (Decimal.D5 Decimal.Nil) in
  let inference_config := InferenceConfig.mk temperature in
  let additional_model_fields := [] in
  ' (full_text, applied_guardrails) <-
      try_stream_conversation
        (stream_conversation_call messages system_prompts
                                  inference_config additional_model_fields) ;;
  match full_text, applied_guardrails with
  | Some full_text, Some applied_guardrails =>
      ret (full_text, applied_guardrails)
  | None, _ => raise (UnboundLocalError "full_text")
  | Some _, None => raise (UnboundLocalError "applied_guardrails")
  end.

End Caller.

(** ** More vocabulary *)

(** The text is made of [_whitespace] characters only. *)
Definition only_whitespace (text : string) : Prop :=
  forallb textwrap.in_whitespace (list_ascii_of_string text) = true.

(** No character of the text is a space for [str.isspace]. *)
Definition spaceless (text : string) : Prop :=
  forallb (fun c => negb (textwrap.isspace c)) (list_ascii_of_string text)
  = true.

(** Equality of two lists of windows, as a test. *)
Fixpoint same_windows (a b : list string) : bool :=
  match a, b with
  | [], [] => true
  | x :: a', y :: b' => (x =? y)%string && same_windows a' b'
  | _, _ => false
  end.

(** The request [generate] makes of [converse_stream]. *)
Definition generate_request (input_message : string) : ConverseRequest.t :=
  ConverseRequest.mk
    MODEL_ID
    [Message.mk "user" [input_message]]
    ["You are an assistant that helps with tasks from users. Be as elaborate as possible"]
    (InferenceConfig.mk
       (Decimal.Decimal (Decimal.Pos (Decimal.D0 Decimal.Nil))
                        (Decimal.D5 Decimal.Nil)))
    [].

(** A model that answers every request with the same stream. *)
Definition replay {World} (events : list Event.t)
    (request : ConverseRequest.t) (w : World)
  : Result ConverseResponse.t * World :=
  (Returned (ConverseResponse.mk (Some events)), w).

(** The first evaluation passes, the second is refused by the service. *)
Definition pass_then_throttle : list (Result Response.t) :=
  [Returned no_action; Raised (ClientError "ThrottlingException")].

(** The [metadata] event that closes a stream. *)
Definition metadata_event : Event.t :=
  Event.mk None None None
           (Some (Metadata.mk (Some (TokenUsage.mk 12 7 19))
                              (Some (Metrics.mk 350)) None)).

(** A request of the stream dispatcher for the guardrail [gid], [gv],
    with at most [n] characters. *)
Definition output_request (gid gv : string) (n : nat) (request : Request.t)
  : Prop :=
  String.length (Request.content request) <= n
  /\ Request.source request = "OUTPUT"
  /\ Request.guardrailIdentifier request = gid
  /\ Request.guardrailVersion request = gv.

(** * The data validator notebook: [get_local_path]

    [get_local_path] of the notebook [Claude-3 Haiku Fine-Tuning Training
    and Validation Data Validator.ipynb] downloads a file named by an S3
    URI and returns the name of the local copy.  The two SDK calls,
    [boto3.client] and [s3.download_file], are parameters; every download
    requested is appended to a log.  [os.path.basename] is the POSIX one,
    [p[p.rfind('/') + 1:]]. *)

Module Validator.

Module S3.
Record download : Type := mk {
  Bucket : string;
  Key : string;
  Filename : string
}.
End S3.

Inductive Exn : Type :=
| ValueError (message : string)
| ClientError (message : string).

Inductive Result (A : Type) : Type :=
| Returned (a : A)
| Raised (e : Exn).

Arguments Returned {A} a.
Arguments Raised {A} e.

Record Env (World : Type) : Type := mkEnv {
  downloaded : list S3.download;
  world : World
}.

(** [s.find(sep)], [None] for -1. *)
Fixpoint find (sep : ascii) (s : string) : option nat :=
  match s with
  | EmptyString => None
  | String c rest =>
      if Ascii.eqb c sep then Some 0 else option_map S (find sep rest)
  end.

(** [s.rfind(sep)], [None] for -1. *)
Fixpoint rfind (sep : ascii) (s : string) : option nat :=
  match s with
  | EmptyString => None
  | String c rest =>
      match rfind sep rest with
      | Some i => Some (S i)
      | None => if Ascii.eqb c sep then Some 0 else None
      end
  end.

(** [s[i:]] *)
Fixpoint slice_from (i : nat) (s : string) : string :=
  match i, s with
  | 0, _ => s
  | S i', String _ rest => slice_from i' rest
  | S _, EmptyString => EmptyString
  end.

(** [s[:i]] *)
Fixpoint slice_to (i : nat) (s : string) : string :=
  match i, s with
  | 0, _ => EmptyString
  | S i', String c rest => String c (slice_to i' rest)
  | S _, EmptyString => EmptyString
  end.

(** [s.split(sep, 1)] *)
Definition split_once (sep : ascii) (s : string) : list string :=
  match find sep s with
  | None => [s]
  | Some i => [slice_to i s; slice_from (S i) s]
  end.

(** [os.path.basename(p)] *)
Definition basename (p : string) : string :=
  let i := match rfind "/" p with Some i => i + 1 | None => 0 end in
  slice_from i p.

Definition startswith (prefix s : string) : bool := String.prefix prefix s.

Section GetLocalPath.

Context {World : Type}.
Variable boto3_client : World -> Result unit * World.
Variable download_file : S3.download -> World -> Result unit * World.

Definition call_client (s : Env World) : Result unit * Env World :=
  let (r, w') := boto3_client (world s) in
  (r, mkEnv (downloaded s) w').

Definition call_download_file (bucket key local_path : string)
    (s : Env World) : Result unit * Env World :=
  let d := S3.mk bucket key local_path in
  let (r, w') := download_file d (world s) in
  (r, mkEnv (downloaded s ++ [d]) w').

Definition get_local_path (file_path : string) (s : Env World)
  : Result string * Env World :=
  if startswith "s3://" file_path then
    match call_client s with
    | (Raised e, s1) => (Raised e, s1)
    | (Returned _, s1) =>
        let local_path := basename file_path in
        match split_once "/" (slice_from 5 file_path) with
        | [bucket; key] =>
            match call_download_file bucket key local_path s1 with
            | (Returned _, s2) => (Returned local_path, s2)
            | (Raised e, s2) => (Raised e, s2)
            end
        | _ =>
            (Raised (ValueError
                       "not enough values to unpack (expected 2, got 1)"),
             s1)
        end
    end
  else (Returned file_path, s).

End GetLocalPath.

(** A client that is always obtained, and an S3 that has every object. *)
Definition client_ready (w : unit) : Result unit * unit := (Returned tt, w).

Definition always_found (d : S3.download) (w : unit)
  : Result unit * unit := (Returned tt, w).

End Validator.

(** * Properties *)

Unset Implicit Arguments.

(** ** Strings *)

Lemma length_append (a b : string) :
  String.length (a ++ b)%string = String.length a + String.length b.
Proof. induction a as [|c a IH]; simpl; [reflexivity | now rewrite IH]. Qed.

Lemma append_empty_r (a : string) : (a ++ "")%string = a.
Proof. induction a as [|c a IH]; simpl; [reflexivity | now rewrite IH]. Qed.

Lemma append_assoc (a b c : string) :
  ((a ++ b) ++ c)%string = (a ++ (b ++ c))%string.
Proof. induction a as [|x a IH]; simpl; [reflexivity | now rewrite IH]. Qed.

Lemma length_string_of_list_ascii (l : list ascii) :
  String.length (string_of_list_ascii l) = List.length l.
Proof. induction l as [|c l IH]; simpl; [reflexivity | now rewrite IH]. Qed.

Lemma length_chars (c : ascii) (n : nat) : String.length (chars c n) = n.
Proof. unfold chars. now rewrite length_string_of_list_ascii, repeat_length. Qed.

Lemma list_ascii_of_append (a b : string) :
  list_ascii_of_string (a ++ b)%string
  = list_ascii_of_string a ++ list_ascii_of_string b.
Proof. induction a as [|c a IH]; simpl; [reflexivity | now rewrite IH]. Qed.

(** ** [sum] and the count of severe violations *)

Lemma fold_add_shift (l : list nat) (a : nat) :
  fold_left Nat.add l a = a + fold_left Nat.add l 0.
Proof.
  revert a. induction l as [|x l IH]; intro a; simpl.
  - lia.
  - rewrite (IH (a + x)), (IH x). lia.
Qed.

Lemma sum_cons (x : nat) (l : list nat) : sum (x :: l) = x + sum l.
Proof. unfold sum. simpl. apply fold_add_shift. Qed.

Lemma sum_app (l1 l2 : list nat) : sum (l1 ++ l2) = sum l1 + sum l2.
Proof.
  induction l1 as [|x l1 IH]; [reflexivity|].
  rewrite <- app_comm_cons, !sum_cons, IH. lia.
Qed.

Lemma check_severe_violations_pos (violations : list Finding.t) :
  0 < check_severe_violations violations <-> Exists blocking violations.
Proof.
  unfold check_severe_violations.
  induction violations as [|v l IH]; simpl.
  - split; [unfold sum; simpl; lia | intro H; inversion H].
  - rewrite sum_cons, Exists_cons. unfold blocking at 1.
    destruct (String.eqb_spec (Finding.action v) "BLOCKED") as [E|E].
    + split; [now left | lia].
    + split.
      * intro H. right. apply IH. simpl in H. exact H.
      * intros [H|H]; [contradiction | apply IH in H; simpl; exact H].
Qed.

Lemma check_severe_violations_nil : check_severe_violations [] = 0.
Proof. reflexivity. Qed.

Lemma sum_singleton (n : nat) : sum [n] = n.
Proof. reflexivity. Qed.

Lemma pos_add (a b : nat) : 0 < a + b <-> 0 < a \/ 0 < b.
Proof. lia. Qed.

Lemma sum_nil_pos : 0 < sum [] <-> Exists blocking [].
Proof. split; [unfold sum; simpl; lia | intro H; inversion H]. Qed.

(** An optional list of findings, counted when present. *)
Lemma optional_count_pos (o : option (list Finding.t)) :
  0 < sum (match o with
           | Some l => [check_severe_violations l]
           | None => []
           end)
  <-> Exists blocking (match o with Some l => l | None => [] end).
Proof.
  destruct o as [l|]; [|apply sum_nil_pos].
  rewrite sum_singleton. apply check_severe_violations_pos.
Qed.

(** The counts one assessment contributes are positive exactly when one
    of its findings blocks. *)
Lemma blocked_of_assessment_pos (assessment : Assessment.t) :
  0 < sum (blocked_of_assessment assessment)
  <-> Exists blocking (findings_of assessment).
Proof.
  destruct assessment as [tp wp sp cp].
  unfold blocked_of_assessment, findings_of; simpl.
  rewrite !sum_app, !Exists_app, !pos_add.
  assert (T : 0 < sum (match tp with
                       | Some p => [check_severe_violations (TopicPolicy.topics p)]
                       | None => []
                       end)
              <-> Exists blocking (match tp with
                                   | Some p => TopicPolicy.topics p
                                   | None => []
                                   end)).
  { destruct tp as [p|]; [|apply sum_nil_pos].
    rewrite sum_singleton. apply check_severe_violations_pos. }
  assert (C : 0 < sum (match cp with
                       | Some p => [check_severe_violations (ContentPolicy.filters p)]
                       | None => []
                       end)
              <-> Exists blocking (match cp with
                                   | Some p => ContentPolicy.filters p
                                   | None => []
                                   end)).
  { destruct cp as [p|]; [|apply sum_nil_pos].
    rewrite sum_singleton. apply check_severe_violations_pos. }
  assert (W : 0 < sum (match wp with
                       | Some p =>
                           (match WordPolicy.customWords p with
                            | Some l => [check_severe_violations l]
                            | None => []
                            end)
                           ++ (match WordPolicy.managedWordLists p with
                               | Some l => [check_severe_violations l]
                               | None => []
                               end)
                       | None => []
                       end)
              <-> Exists blocking
                    (match wp with
                     | Some p =>
                         (match WordPolicy.customWords p with
                          | Some l => l
                          | None => []
                          end)
                         ++ (match WordPolicy.managedWordLists p with
                             | Some l => l
                             | None => []
                             end)
                     | None => []
                     end)).
  { destruct wp as [p|]; [|apply sum_nil_pos].
    rewrite sum_app, Exists_app, pos_add, !optional_count_pos. reflexivity. }
  assert (S : 0 < sum (match sp with
                       | Some p =>
                           (match SensitiveInformationPolicy.piiEntities p with
                            | Some l => [check_severe_violations l]
                            | None => []
                            end)
                           ++ (match SensitiveInformationPolicy.regexes p with
                               | Some l => [check_severe_violations l]
                               | None => []
                               end)
                       | None => []
                       end)
              <-> Exists blocking
                    (match sp with
                     | Some p =>
                         (match SensitiveInformationPolicy.piiEntities p with
                          | Some l => l
                          | None => []
                          end)
                         ++ (match SensitiveInformationPolicy.regexes p with
                             | Some l => l
                             | None => []
                             end)
                     | None => []
                     end)).
  { destruct sp as [p|]; [|apply sum_nil_pos].
    rewrite sum_app, Exists_app, pos_add, !optional_count_pos. reflexivity. }
  rewrite T, C, W, S. reflexivity.
Qed.

Lemma fold_app_flat_map {A B} (f : A -> list B) (l : list A) (acc : list B) :
  fold_left (fun acc a => acc ++ f a) l acc = acc ++ flat_map f l.
Proof.
  revert acc. induction l as [|a l IH]; intro acc; simpl.
  - now rewrite app_nil_r.
  - now rewrite IH, app_assoc.
Qed.

Lemma sum_flat_map_pos {A} (f : A -> list nat) (l : list A) :
  0 < sum (flat_map f l) <-> Exists (fun a => 0 < sum (f a)) l.
Proof.
  induction l as [|a l IH]; simpl.
  - split; [unfold sum; simpl; lia | intro H; inversion H].
  - rewrite sum_app, Exists_cons, pos_add, IH. reflexivity.
Qed.

Lemma is_policy_assessement_blocked_iff (assessments : list Assessment.t) :
  is_policy_assessement_blocked assessments = true
  <-> Exists blocking (flat_map findings_of assessments).
Proof.
  unfold is_policy_assessement_blocked.
  rewrite fold_app_flat_map, app_nil_l, Nat.ltb_lt, sum_flat_map_pos.
  rewrite Exists_flat_map.
  split; intro H; eapply Exists_impl; try exact H;
    intros a Ha; now apply blocked_of_assessment_pos.
Qed.

(** ** The unit evaluator *)

Section UnitEvaluatorFacts.

Context {World : Type}.
Variable service : Request.t -> World -> Result Response.t * World.

(** One call of [apply_guardrail], unfolded: the request is sent whatever
    the text, and the verdict is read off the answer. *)
Lemma apply_guardrail_run (text src gid gv : string) (s : Env World) :
  apply_guardrail service text src gid gv s
  = match service (Request.mk gid gv src text) (world s) with
    | (Returned response, w) =>
        (Returned
           (if Response.action response =? "GUARDRAIL_INTERVENED"
            then (is_policy_assessement_blocked (Response.assessments response),
                  String.concat " " (map Output.text (Response.outputs response)),
                  response)
            else (false, text, response)),
         mkEnv (sent s ++ [Request.mk gid gv src text]) w)
    | (Raised e, w) =>
        (Raised e, mkEnv (sent s ++ [Request.mk gid gv src text]) w)
    end.
Proof.
  unfold apply_guardrail, bind, call_apply_guardrail.
  destruct (service _ (world s)) as [[response|e] w]; [|reflexivity].
  destruct (Response.action response =? "GUARDRAIL_INTERVENED"); reflexivity.
Qed.

(** A blocked verdict comes from an answer that reports an intervention. *)
Lemma blocked_is_intervened
    (text src gid gv : string) (s s' : Env World)
    (alt : string) (response : Response.t) :
  apply_guardrail service text src gid gv s = (Returned (true, alt, response), s') ->
  Response.action response = "GUARDRAIL_INTERVENED".
Proof.
  rewrite apply_guardrail_run.
  destruct (service _ (world s)) as [[r|e] w]; [|discriminate].
  destruct (String.eqb_spec (Response.action r) "GUARDRAIL_INTERVENED") as [E|E];
    intro H; [congruence | discriminate H].
Qed.

(** C6.  For every call of the unit evaluator that returns.  The verdict
    is blocked if and only if the service reported an intervention
    ([GUARDRAIL_INTERVENED]) and at least one finding, over all
    sub-policies of all assessments, carries the action [BLOCKED].
    Whenever the reported action is not an intervention, in particular when
    it is [NONE], the replacement text is the input text verbatim and the
    verdict is not blocked.  On an answer in which findings marked
    [BLOCKED] come only with a reported intervention (the claim's two
    sentences ask as much of the service), the verdict is blocked if and
    only if at least one finding carries the action [BLOCKED]. *)
Theorem apply_guardrail_verdict
    (text src gid gv : string) (s s' : Env World)
    (blocked : bool) (alt : string) (response : Response.t) :
  apply_guardrail service text src gid gv s
  = (Returned (blocked, alt, response), s') ->
  (blocked = true
   <-> Response.action response = "GUARDRAIL_INTERVENED"
       /\ Exists blocking (all_findings response))
  /\ (Response.action response <> "GUARDRAIL_INTERVENED" ->
      alt = text /\ blocked = false)
  /\ (Response.action response = "NONE" -> alt = text /\ blocked = false)
  /\ ((Exists blocking (all_findings response) ->
       Response.action response = "GUARDRAIL_INTERVENED") ->
      (blocked = true <-> Exists blocking (all_findings response))).
Proof.
  rewrite apply_guardrail_run.
  destruct (service _ (world s)) as [[r|e] w]; [|discriminate].
  destruct (String.eqb_spec (Response.action r) "GUARDRAIL_INTERVENED") as [E|E];
    intro H; injection H as Hb Ha Hr Hs; subst blocked alt response s'.
  - split; [|split; [|split]].
    + rewrite is_policy_assessement_blocked_iff. unfold all_findings. tauto.
    + intro N. contradiction.
    + intro N. rewrite N in E. discriminate.
    + intros _. rewrite is_policy_assessement_blocked_iff. reflexivity.
  - split; [|split; [|split]].
    + split; [discriminate | intros [I _]; contradiction].
    + intros _. split; reflexivity.
    + intros _. split; reflexivity.
    + intro C. split; [discriminate | intro B; destruct (E (C B))].
Qed.

(** Every call sends its request, whatever the answer. *)
Lemma apply_guardrail_sent (text src gid gv : string) (s : Env World) :
  sent (snd (apply_guardrail service text src gid gv s))
  = sent s ++ [Request.mk gid gv src text].
Proof.
  rewrite apply_guardrail_run.
  destruct (service _ (world s)) as [[r|e] w]; reflexivity.
Qed.

(** C8, as the code has it.  [apply_guardrail] checks no length: whatever
    the text, exactly one request is sent, carrying the text unchanged; an
    exception of the service is raised to the caller as it is, after that
    single request, and an answer is returned with it. *)
Theorem apply_guardrail_always_sends
    (text src gid gv : string) (s : Env World) :
  sent (snd (apply_guardrail service text src gid gv s))
  = sent s ++ [Request.mk gid gv src text]
  /\ world (snd (apply_guardrail service text src gid gv s))
     = snd (service (Request.mk gid gv src text) (world s))
  /\ match fst (service (Request.mk gid gv src text) (world s)) with
     | Raised e =>
         fst (apply_guardrail service text src gid gv s) = Raised e
     | Returned response =>
         exists blocked alt,
           fst (apply_guardrail service text src gid gv s)
           = Returned (blocked, alt, response)
     end.
Proof.
  rewrite apply_guardrail_run.
  destruct (service _ (world s)) as [[r|e] w]; simpl; repeat split.
  destruct (Response.action r =? "GUARDRAIL_INTERVENED"); eauto.
Qed.

End UnitEvaluatorFacts.

Lemma apply_guardrail_verdict_witness :
  (* a blocked answer *)
  ((true = true <-> Exists blocking (all_findings blocked_answer))
   /\ Response.action blocked_answer = "GUARDRAIL_INTERVENED")
  (* no intervention: the text comes back as it is *)
  /\ ((false = true <-> Exists blocking (all_findings detected_only))
      /\ "How should I invest?" = "How should I invest?" /\ false = false)
  (* an intervention that blocks nothing *)
  /\ (false = true <-> Exists blocking (all_findings anonymized_answer)).
Proof.
  split; [|split].
  - pose proof (apply_guardrail_verdict scripted
                  "How should I invest?" "INPUT" "gr-1" "DRAFT"
                  (fresh [Returned blocked_answer])
                  (mkEnv [Request.mk "gr-1" "DRAFT" "INPUT" "How should I invest?"] [])
                  true "Sorry, I cannot answer that." blocked_answer eq_refl)
      as (_ & _ & _ & V).
    split; [|reflexivity]. apply V. intros _. reflexivity.
  - pose proof (apply_guardrail_verdict scripted
                  "How should I invest?" "INPUT" "gr-1" "DRAFT"
                  (fresh [Returned detected_only])
                  (mkEnv [Request.mk "gr-1" "DRAFT" "INPUT" "How should I invest?"] [])
                  false "How should I invest?" detected_only eq_refl)
      as (_ & _ & N & V).
    split; [|exact (N eq_refl)].
    apply V. intro B. exfalso.
    inversion B as [f fs Hf|f fs Hf]; [discriminate Hf | inversion Hf].
  - pose proof (apply_guardrail_verdict scripted
                  "My name is Ann." "INPUT" "gr-1" "DRAFT"
                  (fresh [Returned anonymized_answer])
                  (mkEnv [Request.mk "gr-1" "DRAFT" "INPUT" "My name is Ann."] [])
                  false "My name is {NAME}." anonymized_answer eq_refl)
      as (_ & _ & _ & V).
    apply V. intros _. reflexivity.
Defined.

(** The condition on the answer cannot be dropped: the data model allows
    the answer [quiet_with_blocked_finding], which reports no intervention
    and has a finding marked [BLOCKED]; the verdict is not blocked, as the
    second sentence of the claim asks. *)
Lemma blocked_finding_without_intervention :
  exists blocked alt response s',
    apply_guardrail scripted "hello" "INPUT" "gr-1" "DRAFT"
                    (fresh [Returned quiet_with_blocked_finding])
    = (Returned (blocked, alt, response), s')
    /\ Response.action response = "NONE"
    /\ alt = "hello" /\ blocked = false
    /\ Exists blocking (all_findings response).
Proof.
  exists false, "hello", quiet_with_blocked_finding,
    (mkEnv [Request.mk "gr-1" "DRAFT" "INPUT" "hello"] []).
  split; [reflexivity|]. split; [reflexivity|].
  split; [reflexivity|]. split; [reflexivity|].
  apply Exists_cons_hd. reflexivity.
Qed.

(** C8 as stated fails: a text longer than 25 units is not refused
    locally; the request is sent and the answer returned. *)
Lemma oversized_text_reaches_service :
  LIMIT_TEXT_UNIT * TEXT_UNIT < String.length oversized_text
  /\ ~ (exists e s',
          apply_guardrail permissive oversized_text "INPUT" "gr-1" "DRAFT" (fresh tt)
          = (Raised e, s')
          /\ sent s' = []).
Proof.
  split.
  - unfold oversized_text. rewrite length_chars. apply Nat.lt_succ_diag_r.
  - intros (e & s' & H & _). rewrite apply_guardrail_run in H.
    simpl in H. discriminate.
Qed.

(** ** The stream dispatcher: one turn of the loop *)

Section DispatcherFacts.

Context {World : Type}.
Variable service : Request.t -> World -> Result Response.t * World.
Variables gid gv : string.

Lemma bind_returned {A B} (m : M World A) (k : A -> M World B)
    (s s1 : Env World) (a : A) :
  m s = (Returned a, s1) -> bind m k s = k a s1.
Proof. intro H. unfold bind. now rewrite H. Qed.

Lemma bind_raised {A B} (m : M World A) (k : A -> M World B)
    (s s1 : Env World) (e : Exn) :
  m s = (Raised e, s1) -> bind m k s = (Raised e, s1).
Proof. intro H. unfold bind. now rewrite H. Qed.

Lemma on_messageStart_ok (event : Event.t) (s : Env World) :
  start_well_formed event ->
  on_messageStart (World := World) event s = (Returned tt, s).
Proof.
  unfold start_well_formed, on_messageStart.
  destruct (Event.messageStart event) as [[[r|]]|]; intro H;
    [reflexivity | contradiction | reflexivity].
Qed.

(** The three lookups that lead to [new_text]. *)
Lemma carried_text_lookup (event : Event.t) (t : string) :
  carried_text event = Some t ->
  exists block d,
    Event.contentBlockDelta event = Some block
    /\ ContentBlockDelta.delta block = Some d
    /\ Delta.text d = Some t.
Proof.
  unfold carried_text.
  destruct (Event.contentBlockDelta event) as [block|]; [|discriminate].
  destruct (ContentBlockDelta.delta block) as [d|] eqn:D; [|discriminate].
  intro H. exists block, d. auto.
Qed.

(** The delta fits: it joins the buffer and nothing is evaluated. *)
Lemma delta_joins_buffer (event : Event.t) (l : Stream.locals)
    (s : Env World) (t : string) :
  carried_text event = Some t ->
  String.length (Stream.buffer_text l ++ t)%string <= TEXT_UNIT ->
  on_contentBlockDelta service gid gv event l s
  = (Returned (event,
               Stream.mk (Stream.full_text l)
                         (Stream.buffer_text l ++ t)%string
                         (Stream.applied_guardrails l)), s).
Proof.
  intros C L. destruct (carried_text_lookup _ _ C) as (block & d & Hb & Hd & Ht).
  unfold on_contentBlockDelta. rewrite Hb.
  unfold subscript, bind, ret. rewrite Hd, Ht.
  apply Nat.ltb_ge in L. now rewrite L.
Qed.

(** The delta does not fit and the evaluation of the buffer passes. *)
Lemma delta_flush_passes (event : Event.t) (l : Stream.locals)
    (s s1 : Env World) (t alt : string) (r : Response.t) :
  carried_text event = Some t ->
  TEXT_UNIT < String.length (Stream.buffer_text l ++ t)%string ->
  apply_guardrail service (Stream.buffer_text l) "OUTPUT" gid gv s
  = (Returned (false, alt, r), s1) ->
  on_contentBlockDelta service gid gv event l s
  = (Returned (event,
               Stream.mk (Stream.full_text l ++ alt)%string t
                         (Stream.applied_guardrails l ++ [r])), s1).
Proof.
  intros C L G. destruct (carried_text_lookup _ _ C) as (block & d & Hb & Hd & Ht).
  unfold on_contentBlockDelta. rewrite Hb.
  unfold subscript, bind, ret. rewrite Hd, Ht.
  apply Nat.ltb_lt in L. rewrite L, G. reflexivity.
Qed.

(** The delta does not fit and the evaluation of the buffer is blocked:
    the event receives a [messageStop] whose reason is the action of the
    answer. *)
Lemma delta_flush_blocked (event : Event.t) (l : Stream.locals)
    (s s1 : Env World) (t alt : string) (r : Response.t) :
  carried_text event = Some t ->
  TEXT_UNIT < String.length (Stream.buffer_text l ++ t)%string ->
  apply_guardrail service (Stream.buffer_text l) "OUTPUT" gid gv s
  = (Returned (true, alt, r), s1) ->
  on_contentBlockDelta service gid gv event l s
  = (Returned (Event.mk (Event.messageStart event)
                        (Event.contentBlockDelta event)
                        (Some (MessageStop.mk (Some (Response.action r))
                                              (Some alt)
                                              (Some (Response.assessments r))))
                        (Event.metadata event),
               Stream.mk alt t (Stream.applied_guardrails l ++ [r])), s1).
Proof.
  intros C L G. destruct (carried_text_lookup _ _ C) as (block & d & Hb & Hd & Ht).
  unfold on_contentBlockDelta. rewrite Hb.
  unfold subscript, bind, ret. rewrite Hd, Ht.
  apply Nat.ltb_lt in L. rewrite L, G. reflexivity.
Qed.

(** A turn whose flush is blocked ends the loop. *)
Lemma blocked_flush_breaks (event : Event.t) (l : Stream.locals)
    (s s1 : Env World) (t alt : string) (r : Response.t) :
  start_well_formed event ->
  carried_text event = Some t ->
  TEXT_UNIT < String.length (Stream.buffer_text l ++ t)%string ->
  apply_guardrail service (Stream.buffer_text l) "OUTPUT" gid gv s
  = (Returned (true, alt, r), s1) ->
  loop_body service gid gv event l s
  = (Returned (Stream.Break,
               Stream.mk alt t (Stream.applied_guardrails l ++ [r])), s1).
Proof.
  intros W C L G. unfold loop_body.
  rewrite (bind_returned _ _ _ _ _ (on_messageStart_ok event s W)).
  rewrite (bind_returned _ _ _ _ _ (delta_flush_blocked event l s s1 t alt r C L G)).
  cbv beta iota. unfold on_messageStop, Event.messageStop, MessageStop.stopReason.
  unfold subscript, bind, ret.
  rewrite (blocked_is_intervened _ _ _ _ _ _ _ _ _ G). reflexivity.
Qed.

(** [on_messageStop] leaves [full_text] and [buffer_text] as they are,
    and adds to the history only a blocked answer. *)
Lemma on_messageStop_keeps_text (event event' : Event.t)
    (l l' : Stream.locals) (s s' : Env World) (flow : Stream.flow) :
  on_messageStop service gid gv event l s = (Returned (flow, event', l'), s') ->
  Stream.full_text l' = Stream.full_text l
  /\ Stream.buffer_text l' = Stream.buffer_text l.
Proof.
  unfold on_messageStop.
  destruct (Event.messageStop event) as [stop|];
    [|intro H; injection H as _ _ Hl _; subst l'; auto].
  unfold subscript, bind, ret.
  destruct (MessageStop.stopReason stop) as [reason|]; [|discriminate].
  destruct (reason =? "GUARDRAIL_INTERVENED");
    [intro H; injection H as _ _ Hl _; subst l'; auto|].
  destruct (apply_guardrail _ _ _ _ _ s) as [[[[b alt] r]|e] s2]; [|discriminate].
  destruct b; intro H; injection H as _ _ Hl _; subst l'; auto.
Qed.

(** Runs compose: after a prefix that neither raised nor broke, the loop
    goes on with the rest of the stream. *)
Lemma for_event_in_after (pre post : list Event.t)
    (l l' : Stream.locals) (s s' : Env World) :
  Runs service gid gv pre l s l' s' ->
  for_event_in service gid gv (pre ++ post) l s
  = for_event_in service gid gv post l' s'.
Proof.
  induction 1 as [|event rest l s l1 s1 l' s' Hstep _ IH]; [reflexivity|].
  simpl. rewrite (bind_returned _ _ _ _ _ Hstep). exact IH.
Qed.

Lemma Runs_app (pre post : list Event.t)
    (l l1 l2 : Stream.locals) (s s1 s2 : Env World) :
  Runs service gid gv pre l s l1 s1 ->
  Runs service gid gv post l1 s1 l2 s2 ->
  Runs service gid gv (pre ++ post) l s l2 s2.
Proof.
  induction 1 as [|event rest l s la sa l1 s1 Hstep _ IH]; intro H2;
    [exact H2|].
  simpl. eapply Runs_cons; [exact Hstep | exact (IH H2)].
Qed.

Lemma Runs_deterministic (events : list Event.t)
    (l l1 l2 : Stream.locals) (s s1 s2 : Env World) :
  Runs service gid gv events l s l1 s1 ->
  Runs service gid gv events l s l2 s2 ->
  l1 = l2 /\ s1 = s2.
Proof.
  intro H. revert l2 s2.
  induction H as [|event rest l s la sa l1 s1 Hstep _ IH]; intros l2 s2 H2.
  - inversion H2; subst. auto.
  - inversion H2 as [|? ? ? ? lb sb ? ? Hstep' Hrest]; subst.
    rewrite Hstep in Hstep'. injection Hstep' as <- <-. exact (IH _ _ Hrest).
Qed.

Lemma Runs_split (pre post : list Event.t)
    (l l2 : Stream.locals) (s s2 : Env World) :
  Runs service gid gv (pre ++ post) l s l2 s2 ->
  exists l1 s1,
    Runs service gid gv pre l s l1 s1
    /\ Runs service gid gv post l1 s1 l2 s2.
Proof.
  revert l s. induction pre as [|event pre IH]; intros l s H.
  - exists l, s. split; [constructor | exact H].
  - simpl in H. inversion H as [|? ? ? ? la sa ? ? Hstep Hrest]; subst.
    destruct (IH _ _ Hrest) as (l1 & s1 & H1 & H2).
    exists l1, s1. split; [econstructor; eassumption | exact H2].
Qed.

End DispatcherFacts.

(** ** The stream dispatcher: the run *)

Section StreamFacts.

Context {World : Type}.
Variable service : Request.t -> World -> Result Response.t * World.
Variables gid gv : string.

Lemma stream_conversation_run (events : list Event.t) (s : Env World) :
  stream_conversation service gid gv (Some events) s
  = match for_event_in service gid gv events initial_locals s with
    | (Returned (l, _), s') =>
        (Returned (Stream.full_text l, Stream.applied_guardrails l), s')
    | (Raised e, s') => (Raised e, s')
    end.
Proof.
  unfold stream_conversation, bind, initial_locals.
  destruct (for_event_in _ _ _ events _ s) as [[[l rest]|e] s']; reflexivity.
Qed.

(** C5, as the code has it.  When a flush triggered by the threshold is
    blocked, [full_text] is set to the replacement text of the blocking
    result: the text returned is that replacement text alone, whatever had
    been accumulated by the flushes that passed. *)
Theorem blocked_flush_replaces_text
    (pre post : list Event.t) (event : Event.t)
    (l : Stream.locals) (s0 s s1 : Env World)
    (t alt : string) (r : Response.t) :
  Runs service gid gv pre initial_locals s0 l s ->
  start_well_formed event ->
  carried_text event = Some t ->
  TEXT_UNIT < String.length (Stream.buffer_text l ++ t)%string ->
  apply_guardrail service (Stream.buffer_text l) "OUTPUT" gid gv s
  = (Returned (true, alt, r), s1) ->
  stream_conversation service gid gv (Some (pre ++ event :: post)) s0
  = (Returned (alt, Stream.applied_guardrails l ++ [r]), s1).
Proof.
  intros R W C L G. rewrite stream_conversation_run.
  rewrite (for_event_in_after service gid gv pre (event :: post) _ _ _ _ R).
  simpl.
  rewrite (bind_returned _ _ _ _ _
             (blocked_flush_breaks service gid gv event l s s1 t alt r W C L G)).
  reflexivity.
Qed.

(** An event with none of the four keys changes nothing. *)
Lemma keyless_event_skipped (post : list Event.t)
    (l : Stream.locals) (s : Env World) :
  for_event_in service gid gv (Event.mk None None None None :: post) l s
  = for_event_in service gid gv post l s.
Proof. reflexivity. Qed.

(** The turn on a [contentBlockDelta] without text raises at the lookup. *)
Lemma turn_without_text_raises
    (event : Event.t) (block : ContentBlockDelta.t) (key : string)
    (l : Stream.locals) (s : Env World) :
  start_well_formed event ->
  Event.contentBlockDelta event = Some block ->
  missing_key block = Some key ->
  loop_body service gid gv event l s = (Raised (KeyError key), s).
Proof.
  intros W B K. unfold loop_body.
  rewrite (bind_returned _ _ _ _ _ (on_messageStart_ok event s W)).
  apply bind_raised.
  unfold on_contentBlockDelta. rewrite B.
  unfold missing_key in K. unfold subscript, bind, raise, ret.
  destruct (ContentBlockDelta.delta block) as [d|].
  - destruct (Delta.text d) as [t|]; [discriminate|].
    injection K as <-. reflexivity.
  - injection K as <-. reflexivity.
Qed.

(** C9, as the code has it.  A [contentBlockDelta] event that lacks
    [delta] or [delta.text] raises [KeyError] out of the loop: the stream
    is abandoned at that event, nothing is returned, and no request is sent
    for it.  Only an event that has none of the four keys is passed over
    in silence. *)
Theorem delta_without_text_raises
    (pre post : list Event.t) (event : Event.t) (block : ContentBlockDelta.t)
    (key : string) (l : Stream.locals) (s0 s : Env World) :
  Runs service gid gv pre initial_locals s0 l s ->
  start_well_formed event ->
  Event.contentBlockDelta event = Some block ->
  missing_key block = Some key ->
  stream_conversation service gid gv (Some (pre ++ event :: post)) s0
  = (Raised (KeyError key), s)
  /\ for_event_in service gid gv
       (pre ++ Event.mk None None None None :: post) initial_locals s0
     = for_event_in service gid gv (pre ++ post) initial_locals s0.
Proof.
  intros R W B K. split.
  - rewrite stream_conversation_run.
    rewrite (for_event_in_after service gid gv pre (event :: post) _ _ _ _ R).
    simpl.
    rewrite (bind_raised _ _ _ _ _
               (turn_without_text_raises event block key l s W B K)).
    reflexivity.
  - rewrite !(for_event_in_after service gid gv pre _ _ _ _ _ R).
    apply keyless_event_skipped.
Qed.

(** What [on_messageStop] sends comes after what was sent before. *)
Lemma on_messageStop_sent (event event' : Event.t)
    (l l' : Stream.locals) (s s' : Env World) (flow : Stream.flow) :
  on_messageStop service gid gv event l s = (Returned (flow, event', l'), s') ->
  exists later, sent s' = sent s ++ later.
Proof.
  unfold on_messageStop.
  destruct (Event.messageStop event) as [stop|];
    [|intro H; injection H as _ _ _ Hs; subst s'; exists [];
      now rewrite app_nil_r].
  unfold subscript, bind, ret.
  destruct (MessageStop.stopReason stop) as [reason|]; [|discriminate].
  destruct (reason =? "GUARDRAIL_INTERVENED");
    [intro H; injection H as _ _ _ Hs; subst s'; exists [];
     now rewrite app_nil_r|].
  pose proof (apply_guardrail_sent service (Stream.buffer_text l) "OUTPUT" gid gv s) as S.
  destruct (apply_guardrail _ _ _ _ _ s) as [[[[b alt] r]|e] s2]; [|discriminate].
  simpl in S.
  destruct b; intro H; injection H as _ _ _ Hs; subst s'; eauto.
Qed.

(** One turn on an event that carries a text delta, when it returns: the
    buffer is the old buffer with the delta, within the unit, or it is
    the delta alone, the old buffer having been sent for evaluation. *)
Lemma buffer_after_turn (event : Event.t) (t : string)
    (l l' : Stream.locals) (s s' : Env World) (flow : Stream.flow) :
  carried_text event = Some t ->
  loop_body service gid gv event l s = (Returned (flow, l'), s') ->
  (Stream.buffer_text l' = (Stream.buffer_text l ++ t)%string
   /\ String.length (Stream.buffer_text l') <= TEXT_UNIT)
  \/ (Stream.buffer_text l' = t
      /\ TEXT_UNIT < String.length (Stream.buffer_text l ++ t)%string
      /\ exists later,
           sent s' = sent s
                     ++ Request.mk gid gv "OUTPUT" (Stream.buffer_text l) :: later).
Proof.
  intros C. unfold loop_body.
  destruct (on_messageStart event s) as [[[]|e] sa] eqn:Hs;
    [|rewrite (bind_raised _ _ _ _ _ Hs); discriminate].
  rewrite (bind_returned _ _ _ _ _ Hs).
  assert (sa = s) as ->.
  { unfold on_messageStart in Hs.
    destruct (Event.messageStart event) as [[[role|]]|];
      unfold subscript, bind, ret, raise in Hs;
      injection Hs as Hs; auto; discriminate. }
  clear Hs.
  destruct (Nat.le_gt_cases
              (String.length (Stream.buffer_text l ++ t)%string) TEXT_UNIT)
    as [L|L].
  - rewrite (bind_returned _ _ _ _ _ (delta_joins_buffer service gid gv event l s t C L)).
    cbv beta iota.
    destruct (on_messageStop service gid gv event
                (Stream.mk (Stream.full_text l)
                           (Stream.buffer_text l ++ t)%string
                           (Stream.applied_guardrails l)) s)
      as [[[[f e'] l2]|e] s2] eqn:Hm;
      [|rewrite (bind_raised _ _ _ _ _ Hm); discriminate].
    rewrite (bind_returned _ _ _ _ _ Hm). cbv beta iota.
    apply on_messageStop_keeps_text in Hm. destruct Hm as [_ Hb].
    simpl in Hb.
    destruct f; unfold on_metadata, bind, ret; intro H;
      injection H as _ Hl _; subst l'; left; rewrite Hb; auto.
  - destruct (apply_guardrail service (Stream.buffer_text l) "OUTPUT" gid gv s)
      as [[[[b alt] r]|e] s1] eqn:G.
    + assert (Hsent : sent s1
                      = sent s ++ [Request.mk gid gv "OUTPUT" (Stream.buffer_text l)]).
      { pose proof (apply_guardrail_sent service (Stream.buffer_text l) "OUTPUT" gid gv s) as S.
        rewrite G in S. exact S. }
      destruct b.
      * rewrite (bind_returned _ _ _ _ _
                   (delta_flush_blocked service gid gv event l s s1 t alt r C L G)).
        cbv beta iota.
        unfold on_messageStop, Event.messageStop, MessageStop.stopReason.
        unfold subscript, bind, ret.
        rewrite (blocked_is_intervened _ _ _ _ _ _ _ _ _ G). simpl.
        intro H. injection H as _ Hl Hs'. subst l' s'. right.
        split; [reflexivity|]. split; [exact L|].
        exists []. exact Hsent.
      * rewrite (bind_returned _ _ _ _ _
                   (delta_flush_passes service gid gv event l s s1 t alt r C L G)).
        cbv beta iota.
        destruct (on_messageStop service gid gv event
                    (Stream.mk (Stream.full_text l ++ alt)%string t
                               (Stream.applied_guardrails l ++ [r])) s1)
          as [[[[f e'] l2]|e] s2] eqn:Hm;
          [|rewrite (bind_raised _ _ _ _ _ Hm); discriminate].
        rewrite (bind_returned _ _ _ _ _ Hm). cbv beta iota.
        assert (Hgrow : exists later, sent s2 = sent s1 ++ later).
        { exact (on_messageStop_sent _ _ _ _ _ _ _ Hm). }
        apply on_messageStop_keeps_text in Hm. destruct Hm as [_ Hb].
        simpl in Hb. destruct Hgrow as [later Hlater].
        destruct f; unfold on_metadata, bind, ret; intro H;
          injection H as _ Hl Hs'; subst l' s'; right;
          (split; [exact Hb|]); (split; [exact L|]);
          exists later; rewrite Hlater, Hsent, <- app_assoc; reflexivity.
    + unfold on_contentBlockDelta.
      destruct (carried_text_lookup _ _ C) as (block & d & Hb & Hd & Ht).
      rewrite Hb. unfold subscript, bind, ret. rewrite Hd, Ht.
      apply Nat.ltb_lt in L. rewrite L, G. discriminate.
Qed.

(** Events that carry neither a delta nor a stop (the [metadata] event
    that closes a stream, a [messageStart]) change nothing and send
    nothing. *)
Lemma events_without_text_or_stop (post : list Event.t)
    (l : Stream.locals) (s : Env World) :
  Forall (fun e => start_well_formed e
                   /\ Event.contentBlockDelta e = None
                   /\ Event.messageStop e = None) post ->
  for_event_in service gid gv post l s = (Returned (l, []), s).
Proof.
  induction 1 as [|e post (W & D & P) _ IH]; [reflexivity|].
  simpl for_event_in.
  assert (T : loop_body service gid gv e l s = (Returned (Stream.Next, l), s)).
  { unfold loop_body.
    rewrite (bind_returned _ _ _ _ _ (on_messageStart_ok e s W)).
    unfold on_contentBlockDelta, on_messageStop, on_metadata.
    rewrite D. unfold bind, ret. rewrite P. reflexivity. }
  rewrite (bind_returned _ _ _ _ _ T). exact IH.
Qed.

(** X15.  A blocked evaluation at [messageStop] is the last one of a
    stream that has only such events after its [messageStop]: the response is
    recorded, [full_text] stays as it was, and nothing more is sent. *)
Lemma blocked_stop_flush_is_last
    (stop : Event.t) (reason : string) (halt : MessageStop.t)
    (post : list Event.t) (l : Stream.locals) (s s1 : Env World)
    (alt : string) (r : Response.t) :
  start_well_formed stop ->
  Event.contentBlockDelta stop = None ->
  Event.messageStop stop = Some halt ->
  MessageStop.stopReason halt = Some reason ->
  (reason =? "GUARDRAIL_INTERVENED") = false ->
  apply_guardrail service (Stream.buffer_text l) "OUTPUT" gid gv s
  = (Returned (true, alt, r), s1) ->
  Forall (fun e => start_well_formed e
                   /\ Event.contentBlockDelta e = None
                   /\ Event.messageStop e = None) post ->
  for_event_in service gid gv (stop :: post) l s
  = (Returned (Stream.mk (Stream.full_text l) (Stream.buffer_text l)
                         (Stream.applied_guardrails l ++ [r]), []), s1).
Proof.
  intros W D H R N G P. simpl for_event_in.
  assert (T : loop_body service gid gv stop l s
              = (Returned (Stream.Next,
                           Stream.mk (Stream.full_text l) (Stream.buffer_text l)
                                     (Stream.applied_guardrails l ++ [r])), s1)).
  { unfold loop_body.
    rewrite (bind_returned _ _ _ _ _ (on_messageStart_ok stop s W)).
    unfold on_contentBlockDelta, on_messageStop, on_metadata.
    rewrite D. unfold bind at 1, ret at 1. cbv beta iota. rewrite H.
    unfold subscript. rewrite R. unfold bind, ret. rewrite N, G.
    reflexivity. }
  rewrite (bind_returned _ _ _ _ _ T).
  exact (events_without_text_or_stop post _ s1 P).
Qed.

(** C4, as the code has it.  The buffer is evaluated in two places, and
    a blocked result ends the stream in one of them.

    When the flush is triggered by a delta that would take the buffer over
    the threshold, the loop ends in that very turn: the turn stores in its
    event the stop signal, a [messageStop] with reason
    [GUARDRAIL_INTERVENED], the events after the triggering one are left in
    the stream ([post] is returned untouched, whatever it holds), and the
    environment is the one the blocked evaluation left, so that no further
    request is sent.

    When the flush is the one at a [messageStop] of the model, the blocked
    result is recorded and nothing else happens: the event keeps its
    [messageStop], the loop is not left, and it goes on with the events
    that follow.  When these carry neither text nor [messageStop] (the
    [metadata] event that closes a stream), no further request is sent. *)
Theorem blocked_flush_ends_stream
    (pre post : list Event.t) (l : Stream.locals) (s0 s s1 : Env World)
    (alt : string) (r : Response.t) :
  Runs service gid gv pre initial_locals s0 l s ->
  apply_guardrail service (Stream.buffer_text l) "OUTPUT" gid gv s
  = (Returned (true, alt, r), s1) ->
  sent s1 = sent s ++ [Request.mk gid gv "OUTPUT" (Stream.buffer_text l)]
  /\ (forall (event : Event.t) (t : string),
        start_well_formed event ->
        carried_text event = Some t ->
        TEXT_UNIT < String.length (Stream.buffer_text l ++ t)%string ->
        for_event_in service gid gv (pre ++ event :: post) initial_locals s0
        = (Returned (Stream.mk alt t (Stream.applied_guardrails l ++ [r]),
                     post), s1)
        /\ on_contentBlockDelta service gid gv event l s
           = (Returned (Event.mk (Event.messageStart event)
                                 (Event.contentBlockDelta event)
                                 (Some (MessageStop.mk
                                          (Some "GUARDRAIL_INTERVENED")
                                          (Some alt)
                                          (Some (Response.assessments r))))
                                 (Event.metadata event),
                        Stream.mk alt t (Stream.applied_guardrails l ++ [r])),
              s1)
        /\ stream_conversation service gid gv (Some (pre ++ event :: post)) s0
           = (Returned (alt, Stream.applied_guardrails l ++ [r]), s1))
  /\ (forall (stop : Event.t) (halt : MessageStop.t) (reason : string),
        start_well_formed stop ->
        Event.contentBlockDelta stop = None ->
        Event.messageStop stop = Some halt ->
        MessageStop.stopReason halt = Some reason ->
        (reason =? "GUARDRAIL_INTERVENED") = false ->
        (exists event',
            on_messageStop service gid gv stop l s
            = (Returned (Stream.Next, event',
                         Stream.mk (Stream.full_text l) (Stream.buffer_text l)
                                   (Stream.applied_guardrails l ++ [r])), s1)
            /\ Event.messageStop event' = Event.messageStop stop)
        /\ for_event_in service gid gv (pre ++ stop :: post) initial_locals s0
           = for_event_in service gid gv post
               (Stream.mk (Stream.full_text l) (Stream.buffer_text l)
                          (Stream.applied_guardrails l ++ [r])) s1
        /\ (Forall (fun e => start_well_formed e
                             /\ Event.contentBlockDelta e = None
                             /\ Event.messageStop e = None) post ->
            for_event_in service gid gv (pre ++ stop :: post) initial_locals s0
            = (Returned (Stream.mk (Stream.full_text l) (Stream.buffer_text l)
                                   (Stream.applied_guardrails l ++ [r]), []),
               s1)
            /\ stream_conversation service gid gv
                 (Some (pre ++ stop :: post)) s0
               = (Returned (Stream.full_text l,
                            Stream.applied_guardrails l ++ [r]), s1))).
Proof.
  intros R G. split; [|split].
  - pose proof (apply_guardrail_sent service (Stream.buffer_text l)
                  "OUTPUT" gid gv s) as S.
    rewrite G in S. exact S.
  - intros event t W C L.
    assert (Loop : for_event_in service gid gv (pre ++ event :: post)
                     initial_locals s0
                   = (Returned (Stream.mk alt t
                                  (Stream.applied_guardrails l ++ [r]),
                                post), s1)).
    { rewrite (for_event_in_after service gid gv pre (event :: post) _ _ _ _ R).
      simpl.
      rewrite (bind_returned _ _ _ _ _
                 (blocked_flush_breaks service gid gv event l s s1 t alt r
                    W C L G)).
      reflexivity. }
    split; [exact Loop|]. split.
    + rewrite (delta_flush_blocked service gid gv event l s s1 t alt r C L G).
      rewrite (blocked_is_intervened _ _ _ _ _ _ _ _ _ G). reflexivity.
    + rewrite stream_conversation_run, Loop. reflexivity.
  - intros stop halt reason W D H Rs N.
    assert (O : on_messageStop service gid gv stop l s
                = (Returned
                     (Stream.Next,
                      Event.mk (Event.messageStart stop)
                               (Event.contentBlockDelta stop)
                               (Event.messageStop stop)
                               (Some (Metadata.mk
                                        (Metadata.usage
                                           match Event.metadata stop with
                                           | Some m => m
                                           | None => Metadata.empty
                                           end)
                                        (Metadata.metrics
                                           match Event.metadata stop with
                                           | Some m => m
                                           | None => Metadata.empty
                                           end)
                                        (Some (Response.usage r)))),
                      Stream.mk (Stream.full_text l) (Stream.buffer_text l)
                                (Stream.applied_guardrails l ++ [r])), s1)).
    { unfold on_messageStop. rewrite H. unfold subscript. rewrite Rs.
      unfold bind, ret. rewrite N, G. reflexivity. }
    assert (T : loop_body service gid gv stop l s
                = (Returned (Stream.Next,
                             Stream.mk (Stream.full_text l) (Stream.buffer_text l)
                                       (Stream.applied_guardrails l ++ [r])),
                   s1)).
    { unfold loop_body.
      rewrite (bind_returned _ _ _ _ _ (on_messageStart_ok stop s W)).
      unfold on_contentBlockDelta. rewrite D.
      unfold bind at 1, ret at 1. cbv beta iota.
      rewrite (bind_returned _ _ _ _ _ O). reflexivity. }
    assert (Go : for_event_in service gid gv (pre ++ stop :: post)
                   initial_locals s0
                 = for_event_in service gid gv post
                     (Stream.mk (Stream.full_text l) (Stream.buffer_text l)
                                (Stream.applied_guardrails l ++ [r])) s1).
    { rewrite (for_event_in_after service gid gv pre (stop :: post) _ _ _ _ R).
      simpl for_event_in. rewrite (bind_returned _ _ _ _ _ T). reflexivity. }
    split; [|split].
    + eexists. split; [exact O | reflexivity].
    + exact Go.
    + intro P.
      assert (End_ : for_event_in service gid gv (pre ++ stop :: post)
                       initial_locals s0
                     = (Returned (Stream.mk (Stream.full_text l)
                                            (Stream.buffer_text l)
                                            (Stream.applied_guardrails l ++ [r]),
                                  []), s1))
        by (rewrite Go; exact (events_without_text_or_stop post _ s1 P)).
      split; [exact End_|].
      rewrite stream_conversation_run, End_. reflexivity.
Qed.

End StreamFacts.

(** ** The buffer *)

Section BufferFacts.

Context {World : Type}.
Variable service : Request.t -> World -> Result Response.t * World.
Variables gid gv : string.

(** A turn on an event that carries no text, when it returns, leaves the
    buffer as it was. *)
Lemma buffer_without_delta (event : Event.t)
    (l l' : Stream.locals) (s s' : Env World) (flow : Stream.flow) :
  carried_text event = None ->
  loop_body service gid gv event l s = (Returned (flow, l'), s') ->
  Stream.buffer_text l' = Stream.buffer_text l.
Proof.
  intros C. unfold loop_body.
  destruct (on_messageStart event s) as [[[]|e] sa] eqn:Hs;
    [|rewrite (bind_raised _ _ _ _ _ Hs); discriminate].
  rewrite (bind_returned _ _ _ _ _ Hs).
  destruct (on_contentBlockDelta service gid gv event l sa)
    as [[[e1 l1]|e] sb] eqn:Hd;
    [|rewrite (bind_raised _ _ _ _ _ Hd); discriminate].
  rewrite (bind_returned _ _ _ _ _ Hd). cbv beta iota.
  assert (l1 = l) as ->.
  { unfold on_contentBlockDelta, carried_text in *.
    destruct (Event.contentBlockDelta event) as [block|];
      [|unfold ret in Hd; congruence].
    unfold subscript, bind, raise, ret in Hd.
    destruct (ContentBlockDelta.delta block) as [d|]; [|discriminate].
    rewrite C in Hd. discriminate. }
  destruct (on_messageStop service gid gv e1 l sb) as [[[[f e2] l2]|e] sc] eqn:Hm;
    [|rewrite (bind_raised _ _ _ _ _ Hm); discriminate].
  rewrite (bind_returned _ _ _ _ _ Hm). cbv beta iota.
  apply on_messageStop_keeps_text in Hm. destruct Hm as [_ Hb].
  destruct f; unfold on_metadata, bind, ret; intro H;
    injection H as _ Hl _; subst l'; exact Hb.
Qed.

(** A bound that holds for the unit and for every delta holds for the
    buffer all along a run. *)
Lemma buffer_bound_along_run (events : list Event.t)
    (l l' : Stream.locals) (s s' : Env World) (n : nat) :
  Runs service gid gv events l s l' s' ->
  TEXT_UNIT <= n ->
  String.length (Stream.buffer_text l) <= n ->
  (forall e u, In e events -> carried_text e = Some u -> String.length u <= n) ->
  String.length (Stream.buffer_text l') <= n.
Proof.
  intros R U. induction R as [|event rest l s l1 s1 l' s' Hstep _ IH];
    intros B D; [exact B|].
  apply IH; [|intros e u I; apply D; now right].
  destruct (carried_text event) as [t|] eqn:C.
  - destruct (buffer_after_turn service gid gv event t l l1 s s1 _ C Hstep)
      as [[_ Hle]|[Heq _]].
    + lia.
    + rewrite Heq. apply (D event t); [now left | exact C].
  - now rewrite (buffer_without_delta event l l1 s s1 _ C Hstep).
Qed.

(** C10, as the code has it.  After the turn on a delta, the buffer is
    either the previous buffer followed by the delta, of length at most
    [TEXT_UNIT], or exactly the triggering delta, the previous buffer
    having been sent for evaluation.  So the buffer, at the start of every
    turn, is never longer than the larger of [TEXT_UNIT] and the longest
    delta received so far; it stays within [TEXT_UNIT] when no delta is
    longer than that. *)
Theorem buffer_after_delta
    (pre : list Event.t) (event : Event.t) (t : string)
    (l0 l1 l2 : Stream.locals) (s0 s1 s2 : Env World) :
  Runs service gid gv pre l0 s0 l1 s1 ->
  Runs service gid gv (pre ++ [event]) l0 s0 l2 s2 ->
  carried_text event = Some t ->
  ((Stream.buffer_text l2 = (Stream.buffer_text l1 ++ t)%string
    /\ String.length (Stream.buffer_text l2) <= TEXT_UNIT)
   \/ (Stream.buffer_text l2 = t
       /\ TEXT_UNIT < String.length (Stream.buffer_text l1 ++ t)%string
       /\ exists later,
            sent s2 = sent s1
                      ++ Request.mk gid gv "OUTPUT" (Stream.buffer_text l1)
                         :: later))
  /\ (forall n,
        TEXT_UNIT <= n ->
        String.length (Stream.buffer_text l0) <= n ->
        (forall e u, In e (pre ++ [event]) -> carried_text e = Some u ->
                     String.length u <= n) ->
        String.length (Stream.buffer_text l2) <= n).
Proof.
  intros R1 R2 C. split.
  - destruct (Runs_split service gid gv pre [event] l0 l2 s0 s2 R2)
      as (la & sa & Ra & Rb).
    destruct (Runs_deterministic service gid gv pre l0 l1 la s0 s1 sa R1 Ra)
      as [<- <-].
    inversion Rb as [|? ? ? ? lb sb ? ? Hstep Hnil]; subst.
    inversion Hnil; subst.
    exact (buffer_after_turn service gid gv event t l1 l2 s1 s2 _ C Hstep).
  - intros n U B D.
    exact (buffer_bound_along_run (pre ++ [event]) l0 l2 s0 s2 n R2 U B D).
Qed.

End BufferFacts.

(** ** Runs of the dispatcher on concrete streams *)

(** The first two deltas of [abcd_deltas]: the first flush passes. *)
Lemma ab_runs :
  Runs scripted "gr-1" "DRAFT"
       [text_delta (chars "a" 600); text_delta (chars "b" 600)]
       initial_locals (fresh pass_then_block)
       (Stream.mk (chars "a" 600) (chars "b" 600) [no_action])
       (mkEnv [Request.mk "gr-1" "DRAFT" "OUTPUT" (chars "a" 600)]
              [Returned blocked_answer]).
Proof.
  apply Runs_cons with (l1 := Stream.mk "" (chars "a" 600) [])
                       (s1 := fresh pass_then_block);
    [vm_compute; reflexivity|].
  eapply Runs_cons; [vm_compute; reflexivity|].
  apply Runs_nil.
Qed.

Lemma c_overflows_b :
  TEXT_UNIT < String.length (chars "b" 600 ++ chars "c" 600)%string.
Proof. apply Nat.ltb_lt. vm_compute. reflexivity. Qed.

Lemma blocked_flush_ends_stream_witness :
  (* blocked at the threshold: the delta and the stop after it are left *)
  (for_event_in scripted "gr-1" "DRAFT"
     ([text_delta (chars "a" 600); text_delta (chars "b" 600)]
      ++ text_delta (chars "c" 600) :: [text_delta "d"; message_stop "end_turn"])
     initial_locals (fresh pass_then_block)
   = (Returned (Stream.mk "Sorry, I cannot answer that." (chars "c" 600)
                          ([no_action] ++ [blocked_answer]),
                [text_delta "d"; message_stop "end_turn"]),
      mkEnv [Request.mk "gr-1" "DRAFT" "OUTPUT" (chars "a" 600);
             Request.mk "gr-1" "DRAFT" "OUTPUT" (chars "b" 600)] [])
   /\ stream_conversation scripted "gr-1" "DRAFT"
        (Some ([text_delta (chars "a" 600); text_delta (chars "b" 600)]
               ++ text_delta (chars "c" 600)
                  :: [text_delta "d"; message_stop "end_turn"]))
        (fresh pass_then_block)
      = (Returned ("Sorry, I cannot answer that.",
                   [no_action] ++ [blocked_answer]),
         mkEnv [Request.mk "gr-1" "DRAFT" "OUTPUT" (chars "a" 600);
                Request.mk "gr-1" "DRAFT" "OUTPUT" (chars "b" 600)] []))
  (* blocked at the stop of the model: the stream is read to its end *)
  /\ (for_event_in scripted "gr-1" "DRAFT"
        ([text_delta (chars "a" 600); text_delta (chars "b" 600)]
         ++ message_stop "end_turn" :: [metadata_event])
        initial_locals (fresh pass_then_block)
      = (Returned (Stream.mk (chars "a" 600) (chars "b" 600)
                             ([no_action] ++ [blocked_answer]), []),
         mkEnv [Request.mk "gr-1" "DRAFT" "OUTPUT" (chars "a" 600);
                Request.mk "gr-1" "DRAFT" "OUTPUT" (chars "b" 600)] [])
      /\ stream_conversation scripted "gr-1" "DRAFT"
           (Some ([text_delta (chars "a" 600); text_delta (chars "b" 600)]
                  ++ message_stop "end_turn" :: [metadata_event]))
           (fresh pass_then_block)
         = (Returned (chars "a" 600, [no_action] ++ [blocked_answer]),
            mkEnv [Request.mk "gr-1" "DRAFT" "OUTPUT" (chars "a" 600);
                   Request.mk "gr-1" "DRAFT" "OUTPUT" (chars "b" 600)] [])).
Proof.
  assert (G : apply_guardrail scripted (chars "b" 600) "OUTPUT" "gr-1" "DRAFT"
                (mkEnv [Request.mk "gr-1" "DRAFT" "OUTPUT" (chars "a" 600)]
                       [Returned blocked_answer])
              = (Returned (true, "Sorry, I cannot answer that.", blocked_answer),
                 mkEnv [Request.mk "gr-1" "DRAFT" "OUTPUT" (chars "a" 600);
                        Request.mk "gr-1" "DRAFT" "OUTPUT" (chars "b" 600)] []))
    by reflexivity.
  split.
  - destruct (blocked_flush_ends_stream scripted "gr-1" "DRAFT"
                [text_delta (chars "a" 600); text_delta (chars "b" 600)]
                [text_delta "d"; message_stop "end_turn"]
                (Stream.mk (chars "a" 600) (chars "b" 600) [no_action])
                (fresh pass_then_block) _ _ _ _ ab_runs G)
      as (_ & A & _).
    destruct (A (text_delta (chars "c" 600)) (chars "c" 600)
                I eq_refl c_overflows_b)
      as (Loop & _ & Run).
    split; [exact Loop | exact Run].
  - destruct (blocked_flush_ends_stream scripted "gr-1" "DRAFT"
                [text_delta (chars "a" 600); text_delta (chars "b" 600)]
                [metadata_event]
                (Stream.mk (chars "a" 600) (chars "b" 600) [no_action])
                (fresh pass_then_block) _ _ _ _ ab_runs G)
      as (_ & _ & B).
    destruct (B (message_stop "end_turn")
                (MessageStop.mk (Some "end_turn") None None) "end_turn"
                I eq_refl eq_refl eq_refl eq_refl)
      as (_ & _ & F).
    apply F. constructor; [|constructor]. repeat split.
Defined.

(** C4 as stated fails: the first evaluation, made at the first
    [messageStop], is blocked and recorded; the turn stores no stop signal
    (the event keeps the reason the model gave) and the loop is not left;
    the delta that follows is taken from the stream and added to the
    buffer, and the buffer is evaluated once more at the second
    [messageStop]. *)
Lemma blocked_stop_flush_continues :
  (exists alt r s1,
      apply_guardrail scripted "Hello" "OUTPUT" "gr-1" "DRAFT"
                      (fresh block_then_pass)
      = (Returned (true, alt, r), s1))
  /\ (exists event' l' s1,
         on_messageStop scripted "gr-1" "DRAFT" (message_stop "end_turn")
                        (Stream.mk "" "Hello" []) (fresh block_then_pass)
         = (Returned (Stream.Next, event', l'), s1)
         /\ Event.messageStop event'
            = Some (MessageStop.mk (Some "end_turn") None None))
  /\ exists final history s',
       stream_conversation scripted "gr-1" "DRAFT" (Some resumed_stream)
                           (fresh block_then_pass)
       = (Returned (final, history), s')
       /\ history = [blocked_answer]
       /\ map Request.content (sent s') = ["Hello"; "Hello world"]
       /\ ~ (List.length (sent s') = 1).
Proof.
  split; [|split].
  - do 3 eexists. vm_compute. reflexivity.
  - do 3 eexists. split; [vm_compute; reflexivity | reflexivity].
  - do 3 eexists. split; [vm_compute; reflexivity|].
    split; [reflexivity|]. split; [reflexivity|]. discriminate.
Qed.

Lemma blocked_flush_replaces_text_witness :
  stream_conversation scripted "gr-1" "DRAFT"
    (Some ([text_delta (chars "a" 600); text_delta (chars "b" 600)]
           ++ text_delta (chars "c" 600)
              :: [text_delta "d"; message_stop "end_turn"]))
    (fresh pass_then_block)
  = (Returned ("Sorry, I cannot answer that.", [no_action] ++ [blocked_answer]),
     mkEnv [Request.mk "gr-1" "DRAFT" "OUTPUT" (chars "a" 600);
            Request.mk "gr-1" "DRAFT" "OUTPUT" (chars "b" 600)] []).
Proof.
  apply (blocked_flush_replaces_text scripted "gr-1" "DRAFT"
           [text_delta (chars "a" 600); text_delta (chars "b" 600)]
           [text_delta "d"; message_stop "end_turn"]
           (text_delta (chars "c" 600))
           (Stream.mk (chars "a" 600) (chars "b" 600) [no_action])
           (fresh pass_then_block)
           (mkEnv [Request.mk "gr-1" "DRAFT" "OUTPUT" (chars "a" 600)]
                  [Returned blocked_answer])
           (mkEnv [Request.mk "gr-1" "DRAFT" "OUTPUT" (chars "a" 600);
                   Request.mk "gr-1" "DRAFT" "OUTPUT" (chars "b" 600)] [])
           (chars "c" 600) "Sorry, I cannot answer that." blocked_answer).
  - exact ab_runs.
  - exact I.
  - reflexivity.
  - exact c_overflows_b.
  - reflexivity.
Defined.

(** C5 as stated fails: before the blocked flush [full_text] holds the
    600 characters of the first flush; the text returned is the
    replacement text alone, not those characters followed by it. *)
Lemma blocked_flush_drops_accumulated_text :
  exists l s final history s',
    Runs scripted "gr-1" "DRAFT"
         [text_delta (chars "a" 600); text_delta (chars "b" 600)]
         initial_locals (fresh pass_then_block) l s
    /\ Stream.full_text l = chars "a" 600
    /\ stream_conversation scripted "gr-1" "DRAFT"
         (Some (text_stream abcd_deltas "end_turn")) (fresh pass_then_block)
       = (Returned (final, history), s')
    /\ final
       <> (Stream.full_text l
           ++ String.concat " " (map Output.text (Response.outputs blocked_answer)))%string.
Proof.
  exists (Stream.mk (chars "a" 600) (chars "b" 600) [no_action]),
    (mkEnv [Request.mk "gr-1" "DRAFT" "OUTPUT" (chars "a" 600)]
           [Returned blocked_answer]),
    "Sorry, I cannot answer that.", [no_action; blocked_answer],
    (mkEnv [Request.mk "gr-1" "DRAFT" "OUTPUT" (chars "a" 600);
            Request.mk "gr-1" "DRAFT" "OUTPUT" (chars "b" 600)] []).
  split; [exact ab_runs|]. split; [reflexivity|].
  split; [vm_compute; reflexivity|].
  intro H. apply (f_equal String.length) in H. vm_compute in H. discriminate.
Qed.

Lemma delta_without_text_raises_witness :
  stream_conversation permissive "gr-1" "DRAFT"
    (Some ([] ++ toolless_delta :: text_stream ["Hello"] "end_turn")) (fresh tt)
  = (Raised (KeyError "text"), fresh tt)
  /\ for_event_in permissive "gr-1" "DRAFT"
       ([] ++ Event.mk None None None None :: text_stream ["Hello"] "end_turn")
       initial_locals (fresh tt)
     = for_event_in permissive "gr-1" "DRAFT"
         ([] ++ text_stream ["Hello"] "end_turn") initial_locals (fresh tt).
Proof.
  apply (delta_without_text_raises permissive "gr-1" "DRAFT"
           [] (text_stream ["Hello"] "end_turn") toolless_delta
           (ContentBlockDelta.mk (Some (Delta.mk None))) "text"
           initial_locals (fresh tt) (fresh tt)).
  - apply Runs_nil.
  - exact I.
  - reflexivity.
  - reflexivity.
Defined.

(** C9 as stated fails: the delta without text is not passed over; the
    run ends with [KeyError], which is not the result of the stream
    without that event. *)
Lemma delta_without_text_aborts :
  stream_conversation permissive "gr-1" "DRAFT"
    (Some (toolless_delta :: text_stream ["Hello"] "end_turn")) (fresh tt)
  = (Raised (KeyError "text"), fresh tt)
  /\ stream_conversation permissive "gr-1" "DRAFT"
       (Some (toolless_delta :: text_stream ["Hello"] "end_turn")) (fresh tt)
     <> stream_conversation permissive "gr-1" "DRAFT"
          (Some (text_stream ["Hello"] "end_turn")) (fresh tt).
Proof. split; [reflexivity | vm_compute; discriminate]. Qed.

(** The first two deltas of [hello_world_deltas]. *)
Lemma hello_runs :
  Runs permissive "gr-1" "DRAFT" [text_delta "Hello "]
       initial_locals (fresh tt)
       (Stream.mk "" "Hello " []) (fresh tt).
Proof. eapply Runs_cons; [vm_compute; reflexivity | apply Runs_nil]. Qed.

Lemma hello_world_runs :
  Runs permissive "gr-1" "DRAFT"
       ([text_delta "Hello "]
        ++ [text_delta (String.concat "" (repeat "world " 200))])
       initial_locals (fresh tt)
       (Stream.mk "Hello " (String.concat "" (repeat "world " 200)) [no_action])
       (mkEnv [Request.mk "gr-1" "DRAFT" "OUTPUT" "Hello "] tt).
Proof.
  eapply Runs_cons; [vm_compute; reflexivity|].
  eapply Runs_cons; [vm_compute; reflexivity|].
  apply Runs_nil.
Qed.

Lemma buffer_after_delta_witness :
  ((String.concat "" (repeat "world " 200)
    = ("Hello " ++ String.concat "" (repeat "world " 200))%string
    /\ String.length (String.concat "" (repeat "world " 200)) <= TEXT_UNIT)
   \/ (String.concat "" (repeat "world " 200)
       = String.concat "" (repeat "world " 200)
       /\ TEXT_UNIT
          < String.length ("Hello " ++ String.concat "" (repeat "world " 200))%string
       /\ exists later,
            [Request.mk "gr-1" "DRAFT" "OUTPUT" "Hello "]
            = [] ++ Request.mk "gr-1" "DRAFT" "OUTPUT" "Hello " :: later))
  /\ (forall n,
        TEXT_UNIT <= n ->
        String.length "" <= n ->
        (forall e u,
            In e ([text_delta "Hello "]
                  ++ [text_delta (String.concat "" (repeat "world " 200))]) ->
            carried_text e = Some u -> String.length u <= n) ->
        String.length (String.concat "" (repeat "world " 200)) <= n).
Proof.
  apply (buffer_after_delta permissive "gr-1" "DRAFT"
           [text_delta "Hello "]
           (text_delta (String.concat "" (repeat "world " 200)))
           (String.concat "" (repeat "world " 200))
           initial_locals
           (Stream.mk "" "Hello " [])
           (Stream.mk "Hello " (String.concat "" (repeat "world " 200)) [no_action])
           (fresh tt) (fresh tt)
           (mkEnv [Request.mk "gr-1" "DRAFT" "OUTPUT" "Hello "] tt)).
  - exact hello_runs.
  - exact hello_world_runs.
  - reflexivity.
Defined.

(** C10 as stated fails: in the stream of [hello_world_deltas], when the
    turn on the third delta starts the buffer holds the second delta,
    1200 characters, more than [TEXT_UNIT]. *)
Lemma buffer_exceeds_unit :
  exists l s,
    Runs permissive "gr-1" "DRAFT"
         ([text_delta "Hello "]
          ++ [text_delta (String.concat "" (repeat "world " 200))])
         initial_locals (fresh tt) l s
    /\ ~ String.length (Stream.buffer_text l) <= TEXT_UNIT.
Proof.
  exists (Stream.mk "Hello " (String.concat "" (repeat "world " 200)) [no_action]),
    (mkEnv [Request.mk "gr-1" "DRAFT" "OUTPUT" "Hello "] tt).
  split; [exact hello_world_runs|].
  apply Nat.lt_nge, Nat.ltb_lt. vm_compute. reflexivity.
Qed.

(** C3 at the failing input.  A stream of one delta and a [messageStop]:
    the remaining buffer is evaluated (the request is sent), and neither
    is its replacement text added to [full_text] nor, when it passes, its
    result recorded; when it is blocked the result is recorded and the
    replacement text is still not added.  A stream that ends without
    [messageStop] gets no final evaluation at all. *)
Theorem final_flush_is_dropped :
  stream_conversation permissive "gr-1" "DRAFT"
    (Some (text_stream ["Hello"] "end_turn")) (fresh tt)
  = (Returned ("", []),
     mkEnv [Request.mk "gr-1" "DRAFT" "OUTPUT" "Hello"] tt)
  /\ stream_conversation scripted "gr-1" "DRAFT"
       (Some (text_stream ["Hello"] "end_turn")) (fresh [Returned blocked_answer])
     = (Returned ("", [blocked_answer]),
        mkEnv [Request.mk "gr-1" "DRAFT" "OUTPUT" "Hello"] [])
  /\ stream_conversation permissive "gr-1" "DRAFT"
       (Some [text_delta "Hello"]) (fresh tt)
     = (Returned ("", []), fresh tt).
Proof. repeat split. Qed.

(** ** Streams on which the service never intervenes *)

Lemma join_cons (x : string) (xs : list string) :
  String.concat "" (x :: xs) = (x ++ String.concat "" xs)%string.
Proof.
  destruct xs as [|y ys]; simpl; [now rewrite append_empty_r | reflexivity].
Qed.

Lemma length_join_cons (x : string) (xs : list string) :
  String.length (String.concat "" (x :: xs))
  = String.length x + String.length (String.concat "" xs).
Proof. now rewrite join_cons, length_append. Qed.


Section QuietStream.

Context {World : Type}.
Variable service : Request.t -> World -> Result Response.t * World.
Variables gid gv : string.
Hypothesis quiet : never_intervenes service.

Lemma quiet_apply_guardrail (text src : string) (s : Env World) :
  exists r w',
    apply_guardrail service text src gid gv s
    = (Returned (false, text, r),
       mkEnv (sent s ++ [Request.mk gid gv src text]) w').
Proof.
  rewrite apply_guardrail_run.
  destruct (quiet (Request.mk gid gv src text) (world s)) as (r & w' & E & N).
  rewrite E, N. eauto.
Qed.

(** The turn on [messageStop]: the buffer is sent, the locals stay. *)
Lemma quiet_stop_turn (reason : string) (l : Stream.locals) (s : Env World) :
  (reason =? "GUARDRAIL_INTERVENED") = false ->
  exists w',
    loop_body service gid gv (message_stop reason) l s
    = (Returned (Stream.Next, l),
       mkEnv (sent s ++ [Request.mk gid gv "OUTPUT" (Stream.buffer_text l)]) w').
Proof.
  intro N.
  destruct (quiet_apply_guardrail (Stream.buffer_text l) "OUTPUT" s)
    as (r & w' & G).
  exists w'. unfold loop_body, message_stop.
  unfold on_messageStart, on_contentBlockDelta, on_messageStop, on_metadata.
  unfold Event.messageStart, Event.contentBlockDelta, Event.messageStop,
    MessageStop.stopReason, subscript, bind, ret.
  rewrite N, G. reflexivity.
Qed.

(** The turn on a text delta that fits. *)
Lemma quiet_delta_fits (d : string) (l : Stream.locals) (s : Env World) :
  String.length (Stream.buffer_text l ++ d)%string <= TEXT_UNIT ->
  loop_body service gid gv (text_delta d) l s
  = (Returned (Stream.Next,
               Stream.mk (Stream.full_text l)
                         (Stream.buffer_text l ++ d)%string
                         (Stream.applied_guardrails l)), s).
Proof.
  intro L. unfold loop_body.
  rewrite (bind_returned _ _ _ _ _ (on_messageStart_ok (text_delta d) s I)).
  rewrite (bind_returned _ _ _ _ _
             (delta_joins_buffer service gid gv (text_delta d) l s d eq_refl L)).
  reflexivity.
Qed.

(** The turn on a text delta that does not fit: the buffer is sent. *)
Lemma quiet_delta_flushes (d : string) (l : Stream.locals) (s : Env World) :
  TEXT_UNIT < String.length (Stream.buffer_text l ++ d)%string ->
  exists r w',
    loop_body service gid gv (text_delta d) l s
    = (Returned (Stream.Next,
                 Stream.mk (Stream.full_text l ++ Stream.buffer_text l)%string d
                           (Stream.applied_guardrails l ++ [r])),
       mkEnv (sent s ++ [Request.mk gid gv "OUTPUT" (Stream.buffer_text l)]) w').
Proof.
  intro L.
  destruct (quiet_apply_guardrail (Stream.buffer_text l) "OUTPUT" s)
    as (r & w' & G).
  exists r, w'. unfold loop_body.
  rewrite (bind_returned _ _ _ _ _ (on_messageStart_ok (text_delta d) s I)).
  rewrite (bind_returned _ _ _ _ _
             (delta_flush_passes service gid gv (text_delta d) l s _ d _ r
                                 eq_refl L G)).
  reflexivity.
Qed.



End QuietStream.

Lemma permissive_never_intervenes : never_intervenes permissive.
Proof. intros request w. exists no_action, w. split; reflexivity. Qed.



(** ** [textwrap.wrap]: whitespace and splitting *)

Section WrapFacts.

Import textwrap.

Lemma in_whitespace_isspace (c : ascii) :
  in_whitespace c = true -> isspace c = true.
Proof.
  unfold in_whitespace, isspace, between. intro H.
  apply orb_true_iff in H. destruct H as [H|H].
  - rewrite H. reflexivity.
  - apply N.eqb_eq in H. rewrite H. reflexivity.
Qed.

Lemma unspaced_app (a b : text) : unspaced (a ++ b) = unspaced a ++ unspaced b.
Proof. apply filter_app. Qed.

Lemma unspaced_blanks (n : nat) (rest : text) :
  unspaced (repeat space n ++ rest) = unspaced rest.
Proof. induction n as [|n IH]; [reflexivity | exact IH]. Qed.

Lemma unspaced_expandtabs (tabsize column : nat) (s : text) :
  unspaced (expandtabs_from tabsize column s) = unspaced s.
Proof.
  revert column. induction s as [|ch rest IH]; intro column; [reflexivity|].
  simpl expandtabs_from.
  destruct (Ascii.eqb_spec ch tab) as [->|Hne].
  - change (unspaced (tab :: rest)) with (unspaced rest).
    destruct (0 <? tabsize)%nat; [rewrite unspaced_blanks|]; apply IH.
  - unfold unspaced at 1 2. simpl filter. fold (unspaced rest).
    match goal with
    | |- context [expandtabs_from tabsize ?col rest] =>
        fold (unspaced (expandtabs_from tabsize col rest)); rewrite (IH col)
    end.
    reflexivity.
Qed.

Lemma unspaced_translate (s : text) :
  unspaced (translate_whitespace s) = unspaced s.
Proof.
  induction s as [|c rest IH]; [reflexivity|].
  unfold translate_whitespace, unspaced in *. simpl map. simpl filter.
  destruct (in_whitespace c) eqn:W.
  - rewrite (in_whitespace_isspace c W). change (isspace space) with true.
    simpl. exact IH.
  - rewrite IH. reflexivity.
Qed.

(** Tab expansion and the replacement of whitespace touch blanks only. *)
Lemma unspaced_munge (s : text) : unspaced (_munge_whitespace s) = unspaced s.
Proof.
  unfold _munge_whitespace, expandtabs.
  now rewrite unspaced_translate, unspaced_expandtabs.
Qed.

(** Every match of [wordsep_re] takes at least one character. *)
Lemma whitespace_run_pos (c : ascii) (rest : text) :
  in_whitespace c = true -> 1 <= whitespace_run (c :: rest).
Proof. intro H. simpl. rewrite H. lia. Qed.

Lemma em_dash_ahead_pos (s : text) :
  em_dash_ahead s = true -> 1 <= leading_hyphens s.
Proof.
  unfold em_dash_ahead. intro H. apply andb_true_iff in H.
  destruct H as [H _]. apply Nat.leb_le in H. lia.
Qed.

Lemma match_length_pos (back : text) (c : ascii) (rest : text) :
  1 <= match_length back (c :: rest).
Proof.
  unfold match_length.
  destruct (in_whitespace c) eqn:W; [now apply whitespace_run_pos|].
  destruct (after_word_punct back && em_dash_ahead (c :: rest)) eqn:E;
    [|lia].
  apply andb_true_iff in E. now apply em_dash_ahead_pos.
Qed.

(** The matches tile the text. *)
Lemma concat_split_from (fuel : nat) (back s : text) :
  concat (split_from fuel back s) = s.
Proof.
  revert back s. induction fuel as [|fuel IH]; intros back s.
  - destruct s; simpl; [reflexivity | now rewrite app_nil_r].
  - destruct s as [|c rest]; [reflexivity|].
    cbn [split_from concat]. rewrite IH. apply firstn_skipn.
Qed.

(** With fuel for every character, splitting never runs out. *)
Lemma split_from_enough (fuel1 fuel2 : nat) (back s : text) :
  List.length s <= fuel1 -> List.length s <= fuel2 ->
  split_from fuel1 back s = split_from fuel2 back s.
Proof.
  revert fuel2 back s. induction fuel1 as [|fuel1 IH]; intros fuel2 back s L1 L2.
  - destruct s; [destruct fuel2; reflexivity | simpl in L1; lia].
  - destruct s as [|c rest]; [destruct fuel2; reflexivity|].
    destruct fuel2 as [|fuel2]; [simpl in L2; lia|].
    cbn [split_from]. f_equal.
    pose proof (match_length_pos back c rest) as P.
    assert (Hs : List.length (skipn (match_length back (c :: rest)) (c :: rest))
                 <= List.length rest).
    { rewrite length_skipn. simpl List.length. lia. }
    simpl List.length in L1, L2.
    apply IH; lia.
Qed.

Lemma concat_filter_nonempty (l : list text) :
  concat (filter nonempty l) = concat l.
Proof.
  induction l as [|x l IH]; [reflexivity|].
  destruct x as [|c x]; simpl; [exact IH | now rewrite IH].
Qed.

Lemma concat_split (s : text) : concat (_split s) = s.
Proof. unfold _split. now rewrite concat_filter_nonempty, concat_split_from. Qed.

Lemma split_nonempty (s : text) :
  Forall (fun chunk => chunk <> []) (_split s).
Proof.
  unfold _split. apply Forall_forall. intros chunk H.
  apply filter_In in H. destruct H as [_ H].
  destruct chunk; [discriminate | discriminate].
Qed.

End WrapFacts.

(** ** [textwrap.wrap]: one line *)

Section WrapLineFacts.

Import textwrap.

Lemma total_length_app (a b : list text) :
  total_length (a ++ b) = total_length a + total_length b.
Proof. unfold total_length. now rewrite concat_app, length_app. Qed.

Lemma total_length_cons (c : text) (l : list text) :
  total_length (c :: l) = List.length c + total_length l.
Proof. unfold total_length. simpl. now rewrite length_app. Qed.

Lemma strip_is_empty_unspaced (chunk : text) :
  strip_is_empty chunk = true -> unspaced chunk = [].
Proof.
  unfold strip_is_empty, unspaced.
  induction chunk as [|c chunk IH]; [reflexivity|].
  simpl. intro H. apply andb_true_iff in H. destruct H as [Hc Hr].
  rewrite Hc. simpl. now apply IH.
Qed.

Lemma rfind_from_bound (i : nat) (c : ascii) (s : text) (j : nat) :
  rfind_from i c s = Some j -> i <= j < i + List.length s.
Proof.
  revert i. induction s as [|x rest IH]; intros i; [discriminate|].
  simpl. destruct (rfind_from (S i) c rest) as [k|] eqn:R.
  - intro H. injection H as <-. specialize (IH _ R). lia.
  - destruct (x =? c)%char; [|discriminate].
    intro H. injection H as <-. lia.
Qed.

Lemma rfind_bound (c : ascii) (s : text) (stop j : nat) :
  rfind c s stop = Some j -> j < stop.
Proof.
  unfold rfind. intro H. apply rfind_from_bound in H.
  pose proof (length_firstn stop s) as F. lia.
Qed.

(** Breaking a chunk that is longer than any line: the part put on the
    line fits in what is left of it, and is not empty when the line is
    not full. *)
Lemma handle_long_word_spec
    (width : nat) (chunk : text) (rest cur_line : list text) (cur_len : nat) :
  1 <= width -> cur_len <= width -> width < List.length chunk ->
  exists e,
    _handle_long_word (chunk :: rest) cur_line cur_len width
    = (skipn e chunk :: rest, cur_line ++ [firstn e chunk])
    /\ e <= width - cur_len
    /\ (cur_len < width -> 1 <= e).
Proof.
  intros W C L. unfold _handle_long_word.
  assert (Hw : (width <? 1)%nat = false) by (apply Nat.ltb_ge; lia).
  rewrite Hw.
  assert (Hs : (width - cur_len <? List.length chunk)%nat = true)
    by (apply Nat.ltb_lt; lia).
  rewrite Hs.
  destruct (rfind hyphen chunk (width - cur_len)) as [h|] eqn:R.
  - apply rfind_bound in R.
    destruct ((0 <? h)%nat
              && existsb (fun c => negb (c =? hyphen)%char) (firstn h chunk)).
    + exists (h + 1). split; [reflexivity|]. lia.
    + exists (width - cur_len). split; [reflexivity|]. lia.
  - exists (width - cur_len). split; [reflexivity|]. lia.
Qed.

(** The chunks that fit are moved to the line, in order; the next one,
    if any, does not fit. *)
Lemma fill_line_spec (width : nat) (chunks : list text) :
  forall (cur_line : list text) (cur_len : nat)
         (chunks' cur_line' : list text) (cur_len' : nat),
  fill_line width chunks cur_line cur_len = (chunks', cur_line', cur_len') ->
  cur_len = List.length (concat cur_line) ->
  cur_len <= width ->
  exists taken,
    chunks = taken ++ chunks'
    /\ cur_line' = cur_line ++ taken
    /\ cur_len' = List.length (concat cur_line')
    /\ cur_len' <= width
    /\ match chunks' with
       | c :: _ => width < cur_len' + List.length c
       | [] => True
       end.
Proof.
  induction chunks as [|chunk rest IH];
    intros cur_line cur_len chunks' cur_line' cur_len' F E B.
  - simpl in F. injection F as <- <- <-.
    exists []. simpl. rewrite app_nil_r. repeat split; auto.
  - simpl in F.
    destruct (cur_len + List.length chunk <=? width)%nat eqn:Fit.
    + apply Nat.leb_le in Fit.
      destruct (IH _ _ _ _ _ F) as (taken & H1 & H2 & H3 & H4 & H5).
      * rewrite concat_app, length_app. simpl. rewrite app_nil_r. lia.
      * exact Fit.
      * exists (chunk :: taken).
        assert (Hc : cur_line' = cur_line ++ chunk :: taken)
          by (rewrite H2, <- app_assoc; reflexivity).
        rewrite H1. repeat split; auto.
    + apply Nat.leb_gt in Fit. injection F as <- <- <-.
      exists []. simpl. rewrite app_nil_r. repeat split; auto.
Qed.

Lemma concat_removelast_last (l : list text) :
  l <> [] -> concat l = concat (removelast l) ++ last l [].
Proof.
  intro N. rewrite (app_removelast_last [] N) at 1.
  rewrite concat_app. simpl. now rewrite app_nil_r.
Qed.

Lemma unspaced_concat_removelast (l : list text) :
  l <> [] -> strip_is_empty (last l []) = true ->
  unspaced (concat (removelast l)) = unspaced (concat l).
Proof.
  intros N S.
  rewrite (concat_removelast_last l N), unspaced_app.
  rewrite (strip_is_empty_unspaced _ S), app_nil_r. reflexivity.
Qed.

Lemma length_concat_removelast (l : list text) :
  List.length (concat (removelast l)) <= List.length (concat l).
Proof.
  destruct l as [|x l]; [apply Nat.le_refl|].
  rewrite (concat_removelast_last (x :: l)) by discriminate.
  rewrite length_app. lia.
Qed.

Lemma nonempty_true {A} (l : list A) : nonempty l = true <-> l <> [].
Proof. destruct l; simpl; split; congruence. Qed.

Lemma total_length_pos (c : text) (l : list text) :
  c <> [] -> 1 <= total_length (c :: l).
Proof.
  intro N. rewrite total_length_cons. destruct c; [contradiction | simpl; lia].
Qed.

(** One turn of the outer loop of [_wrap_chunks]: the chunks left are
    fewer characters, the line added (if any) fits the width, and nothing
    but blanks is lost. *)
Lemma wrap_line_spec
    (width : nat) (chunks lines chunks' lines' : list text) :
  1 <= width ->
  chunks <> [] ->
  Forall (fun chunk => chunk <> []) chunks ->
  wrap_line width chunks lines = (chunks', lines') ->
  Forall (fun chunk => chunk <> []) chunks'
  /\ total_length chunks' < total_length chunks
  /\ (lines' = lines
      \/ exists line, lines' = lines ++ [line] /\ List.length line <= width)
  /\ unspaced (concat lines') ++ unspaced (concat chunks')
     = unspaced (concat lines) ++ unspaced (concat chunks).
Proof.
  intros W N NE. unfold wrap_line.
  destruct chunks as [|c0 rest0]; [contradiction|].
  (* the chunk dropped at the start of the line *)
  set (chunks1 := if strip_is_empty c0 && nonempty lines then rest0
                  else c0 :: rest0).
  assert (NE1 : Forall (fun chunk => chunk <> []) chunks1).
  { unfold chunks1. destruct (strip_is_empty c0 && nonempty lines);
      [now inversion NE | exact NE]. }
  assert (U1 : unspaced (concat chunks1) = unspaced (concat (c0 :: rest0))).
  { unfold chunks1. destruct (strip_is_empty c0 && nonempty lines) eqn:D;
      [|reflexivity].
    apply andb_true_iff in D. destruct D as [D _].
    simpl. now rewrite unspaced_app, (strip_is_empty_unspaced _ D). }
  assert (T1 : chunks1 = c0 :: rest0
               \/ total_length chunks1 < total_length (c0 :: rest0)).
  { unfold chunks1. destruct (strip_is_empty c0 && nonempty lines);
      [right | now left].
    inversion NE as [|? ? Hc _]; subst.
    rewrite total_length_cons. destruct c0; [contradiction | simpl; lia]. }
  clearbody chunks1.
  (* the chunks that fit *)
  destruct (fill_line width chunks1 [] 0) as [[chunks2 cur_line] cur_len] eqn:F.
  destruct (fill_line_spec width chunks1 [] 0 chunks2 cur_line cur_len F
                           eq_refl (Nat.le_0_l _))
    as (taken & H1 & H2 & H3 & H4 & H5).
  simpl in H2. subst cur_line chunks1.
  apply Forall_app in NE1. destruct NE1 as [NEt NE2].
  (* the long word *)
  set (stage := match chunks2 with
                | chunk :: _ =>
                    if (width <? List.length chunk)%nat
                    then _handle_long_word chunks2 taken cur_len width
                    else (chunks2, taken)
                | [] => (chunks2, taken)
                end).
  assert (S3 : exists chunks3 cur_line3,
             stage = (chunks3, cur_line3)
             /\ Forall (fun chunk => chunk <> []) chunks3
             /\ concat cur_line3 ++ concat chunks3 = concat taken ++ concat chunks2
             /\ List.length (concat cur_line3) <= width
             /\ total_length chunks3 <= total_length chunks2
             /\ (taken = [] -> chunks2 <> [] ->
                 total_length chunks3 < total_length chunks2)).
  { unfold stage. destruct chunks2 as [|chunk rest2].
    - exists [], taken.
      split; [reflexivity|]. split; [constructor|]. split; [reflexivity|].
      split; [lia|]. split; [lia|]. intros _ X. contradiction.
    - destruct (width <? List.length chunk)%nat eqn:Long.
      + apply Nat.ltb_lt in Long.
        destruct (handle_long_word_spec width chunk rest2 taken cur_len W H4 Long)
          as (e & He & Hle & Hpos).
        exists (skipn e chunk :: rest2), (taken ++ [firstn e chunk]).
        split; [exact He|]. split; [|split; [|split; [|split]]].
        * constructor; [|now inversion NE2].
          intro Z. apply (f_equal (@List.length ascii)) in Z.
          rewrite length_skipn in Z. simpl in Z. lia.
        * rewrite concat_app. simpl. rewrite app_nil_r, <- app_assoc.
          f_equal. rewrite app_assoc, firstn_skipn. reflexivity.
        * rewrite concat_app, length_app. simpl. rewrite app_nil_r.
          rewrite length_firstn. lia.
        * rewrite !total_length_cons, length_skipn. lia.
        * intros Te _. subst taken. simpl in H3. subst cur_len.
          rewrite !total_length_cons, length_skipn.
          assert (1 <= e) by (apply Hpos; lia). lia.
      + apply Nat.ltb_ge in Long.
        exists (chunk :: rest2), taken.
        split; [reflexivity|]. split; [exact NE2|]. split; [reflexivity|].
        split; [lia|]. split; [lia|].
        intros Te _. subst taken. simpl in H3. subst cur_len.
        simpl in H5. lia. }
  destruct S3 as (chunks3 & cur_line3 & -> & NE3 & C3 & L3 & T3 & P3).
  (* the blank dropped at the end of the line *)
  set (cur_line4 := if nonempty cur_line3 && strip_is_empty (last cur_line3 [])
                    then removelast cur_line3 else cur_line3).
  assert (U4 : unspaced (concat cur_line4) = unspaced (concat cur_line3)).
  { unfold cur_line4.
    destruct (nonempty cur_line3 && strip_is_empty (last cur_line3 [])) eqn:D;
      [|reflexivity].
    apply andb_true_iff in D. destruct D as [D1 D2].
    apply nonempty_true in D1. now apply unspaced_concat_removelast. }
  assert (L4 : List.length (concat cur_line4) <= width).
  { unfold cur_line4.
    destruct (nonempty cur_line3 && strip_is_empty (last cur_line3 []));
      [|exact L3].
    pose proof (length_concat_removelast cur_line3). lia. }
  clearbody cur_line4.
  intro H. injection H as <- <-.
  split; [exact NE3|]. split; [|split].
  - destruct T1 as [T1|T1].
    + rewrite <- T1.
      destruct taken as [|t0 taken'].
      * simpl app in *.
        apply P3; [reflexivity|]. rewrite T1. discriminate.
      * inversion NEt as [|? ? Ht0 _]; subst.
        pose proof (total_length_pos t0 taken' Ht0) as P.
        rewrite total_length_app. lia.
    + rewrite total_length_app in T1. lia.
  - destruct (nonempty cur_line4) eqn:E4; [right | now left].
    exists (concat cur_line4). split; [reflexivity | exact L4].
  - assert (Hc : unspaced (concat cur_line4) ++ unspaced (concat chunks3)
                 = unspaced (concat (c0 :: rest0))).
    { rewrite U4, <- unspaced_app, C3, <- concat_app. exact U1. }
    rewrite <- Hc.
    destruct cur_line4 as [|x l4]; simpl nonempty; cbv iota.
    + reflexivity.
    + rewrite concat_app, unspaced_app, <- app_assoc.
      simpl concat at 2. now rewrite app_nil_r.
Qed.

End WrapLineFacts.

(** ** [textwrap.wrap]: the windows *)

Section WrapWindows.

Import textwrap.

(** The outer loop of [_wrap_chunks], with fuel above the number of
    characters left: every line fits the width and only blanks are lost. *)
Lemma wrap_loop_spec (width : nat) :
  1 <= width ->
  forall (fuel : nat) (chunks lines : list text),
  total_length chunks < fuel ->
  Forall (fun chunk => chunk <> []) chunks ->
  Forall (fun line => List.length line <= width) lines ->
  Forall (fun line => List.length line <= width)
         (wrap_loop fuel width chunks lines)
  /\ unspaced (concat (wrap_loop fuel width chunks lines))
     = unspaced (concat lines) ++ unspaced (concat chunks).
Proof.
  intro W. induction fuel as [|fuel IH]; intros chunks lines T NE FL; [lia|].
  destruct chunks as [|c rest].
  - simpl. rewrite app_nil_r. auto.
  - cbn [wrap_loop].
    destruct (wrap_line width (c :: rest) lines) as [chunks' lines'] eqn:E.
    destruct (wrap_line_spec width (c :: rest) lines chunks' lines' W
                             ltac:(discriminate) NE E)
      as (NE' & T' & L' & U').
    destruct (IH chunks' lines') as [F1 F2].
    + lia.
    + exact NE'.
    + destruct L' as [->|(line & -> & Hl)]; [exact FL|].
      apply Forall_app. split; [exact FL | now constructor].
    + split; [exact F1 | now rewrite F2, U'].
Qed.

(** More fuel than characters makes no difference. *)
Lemma wrap_loop_enough (width : nat) :
  1 <= width ->
  forall (fuel1 fuel2 : nat) (chunks lines : list text),
  total_length chunks < fuel1 ->
  total_length chunks < fuel2 ->
  Forall (fun chunk => chunk <> []) chunks ->
  wrap_loop fuel1 width chunks lines = wrap_loop fuel2 width chunks lines.
Proof.
  intro W. induction fuel1 as [|fuel1 IH];
    intros fuel2 chunks lines T1 T2 NE; [lia|].
  destruct fuel2 as [|fuel2]; [lia|].
  destruct chunks as [|c rest]; [reflexivity|].
  cbn [wrap_loop].
  destruct (wrap_line width (c :: rest) lines) as [chunks' lines'] eqn:E.
  destruct (wrap_line_spec width (c :: rest) lines chunks' lines' W
                           ltac:(discriminate) NE E)
    as (NE' & T' & _ & _).
  apply IH; [lia | lia | exact NE'].
Qed.

Lemma wrap_text_spec (s : text) (width : nat) :
  1 <= width ->
  Forall (fun line => List.length line <= width) (wrap_text s width)
  /\ unspaced (concat (wrap_text s width)) = unspaced s.
Proof.
  intro W. unfold wrap_text, _wrap_chunks.
  destruct (wrap_loop_spec width W
              (S (total_length (_split (_munge_whitespace s))))
              (_split (_munge_whitespace s)) [])
    as [F U].
  - lia.
  - apply split_nonempty.
  - constructor.
  - split; [exact F|].
    rewrite U. simpl. now rewrite concat_split, unspaced_munge.
Qed.

Lemma list_ascii_of_join (lines : list text) :
  list_ascii_of_string (join_windows (map string_of_list_ascii lines))
  = concat lines.
Proof.
  unfold join_windows. induction lines as [|line rest IH]; [reflexivity|].
  cbn [map]. rewrite join_cons, list_ascii_of_append, IH.
  now rewrite list_ascii_of_string_of_list_ascii.
Qed.

End WrapWindows.

(** ** [textwrap.wrap]: what is dropped *)

Section WrapWeave.

Import textwrap.

Lemma strip_is_empty_app (a b : text) :
  strip_is_empty (a ++ b) = strip_is_empty a && strip_is_empty b.
Proof. apply forallb_app. Qed.

Lemma handle_long_word_cut_at
    (width : nat) (chunk : text) (rest cur_line : list text) (cur_len : nat) :
  exists e,
    _handle_long_word (chunk :: rest) cur_line cur_len width
    = (skipn e chunk :: rest, cur_line ++ [firstn e chunk]).
Proof. unfold _handle_long_word. eexists. reflexivity. Qed.

Lemma Forall_removelast {A} (P : A -> Prop) (l : list A) :
  Forall P l -> Forall P (removelast l).
Proof.
  induction 1 as [|x l Hx Hl IH]; [constructor|].
  destruct l as [|y l]; [constructor|].
  change (removelast (x :: y :: l)) with (x :: removelast (y :: l)).
  now constructor.
Qed.

Lemma concat_nonempty (l : list text) :
  l <> [] -> Forall (fun chunk => chunk <> []) l -> concat l <> [].
Proof.
  destruct l as [|x l]; [contradiction|].
  intros _ F. inversion F as [|? ? Hx _]; subst.
  destruct x; [contradiction | discriminate].
Qed.

(** One turn of the outer loop of [_wrap_chunks]: the characters of the
    chunks are, in order, a run of spaces dropped where the line begins,
    the line (if one is added), a run of spaces dropped where it ends, and
    the chunks left. *)
Lemma wrap_line_weave
    (width : nat) (chunks lines chunks' lines' : list text) :
  Forall (fun chunk => chunk <> []) chunks ->
  wrap_line width chunks lines = (chunks', lines') ->
  exists pre body post,
    concat chunks = pre ++ body ++ post ++ concat chunks'
    /\ strip_is_empty pre = true
    /\ strip_is_empty post = true
    /\ ((lines' = lines /\ body = [])
        \/ (lines' = lines ++ [body] /\ body <> [])).
Proof.
  intros NE. unfold wrap_line.
  (* the chunk dropped where the line begins *)
  set (chunks1 := match chunks with
                  | chunk :: rest =>
                      if strip_is_empty chunk && nonempty lines then rest
                      else chunks
                  | [] => chunks
                  end).
  assert (S1 : exists pre,
             concat chunks = pre ++ concat chunks1
             /\ strip_is_empty pre = true
             /\ Forall (fun chunk => chunk <> []) chunks1).
  { unfold chunks1. destruct chunks as [|c0 rest0].
    - exists []. repeat split; constructor.
    - destruct (strip_is_empty c0 && nonempty lines) eqn:D.
      + apply andb_true_iff in D. destruct D as [D _].
        exists c0. split; [reflexivity|]. split; [exact D | now inversion NE].
      + exists []. split; [reflexivity|]. split; [reflexivity | exact NE]. }
  destruct S1 as (pre & C1 & P1 & NE1). clearbody chunks1.
  (* the chunks that fit *)
  destruct (fill_line width chunks1 [] 0) as [[chunks2 cur_line] cur_len] eqn:F.
  destruct (fill_line_spec width chunks1 [] 0 chunks2 cur_line cur_len F
                           eq_refl (Nat.le_0_l _))
    as (taken & H1 & H2 & _).
  simpl in H2. subst cur_line chunks1.
  apply Forall_app in NE1. destruct NE1 as [NEt _].
  (* the long word *)
  set (stage := match chunks2 with
                | chunk :: _ =>
                    if (width <? List.length chunk)%nat
                    then _handle_long_word chunks2 taken cur_len width
                    else (chunks2, taken)
                | [] => (chunks2, taken)
                end).
  assert (S3 : exists chunks3 cur_line3,
             stage = (chunks3, cur_line3)
             /\ concat cur_line3 ++ concat chunks3
                = concat taken ++ concat chunks2
             /\ (cur_line3 = taken
                 \/ exists piece, cur_line3 = taken ++ [piece])).
  { unfold stage. destruct chunks2 as [|chunk rest2].
    - exists [], taken. split; [reflexivity|]. split; [reflexivity | now left].
    - destruct (width <? List.length chunk)%nat.
      + destruct (handle_long_word_cut_at width chunk rest2 taken cur_len)
          as [e He].
        exists (skipn e chunk :: rest2), (taken ++ [firstn e chunk]).
        split; [exact He|]. split; [|right; eauto].
        rewrite concat_app. simpl. rewrite app_nil_r, <- app_assoc.
        f_equal. rewrite app_assoc, firstn_skipn. reflexivity.
      + exists (chunk :: rest2), taken.
        split; [reflexivity|]. split; [reflexivity | now left]. }
  destruct S3 as (chunks3 & cur_line3 & -> & C3 & Shape).
  (* the spaces dropped where the line ends *)
  set (cur_line4 := if nonempty cur_line3 && strip_is_empty (last cur_line3 [])
                    then removelast cur_line3 else cur_line3).
  assert (S4 : exists post,
             concat cur_line3 = concat cur_line4 ++ post
             /\ strip_is_empty post = true
             /\ Forall (fun chunk => chunk <> []) cur_line4).
  { unfold cur_line4.
    destruct (nonempty cur_line3 && strip_is_empty (last cur_line3 [])) eqn:D.
    - apply andb_true_iff in D. destruct D as [D1 D2].
      apply nonempty_true in D1.
      exists (last cur_line3 []).
      split; [exact (concat_removelast_last cur_line3 D1)|].
      split; [exact D2|].
      destruct Shape as [->|[piece ->]].
      + now apply Forall_removelast.
      + rewrite removelast_last. exact NEt.
    - exists []. split; [now rewrite app_nil_r|]. split; [reflexivity|].
      destruct Shape as [->|[piece ->]]; [exact NEt|].
      apply Forall_app. split; [exact NEt|].
      constructor; [|constructor].
      intro Z. subst piece. rewrite last_last in D.
      change (strip_is_empty []) with true in D.
      rewrite andb_true_r in D.
      destruct taken; discriminate D. }
  destruct S4 as (post & C4 & P4 & NE4). clearbody cur_line4.
  intro H. injection H as <- <-.
  exists pre, (concat cur_line4), post.
  split; [|split; [exact P1|split; [exact P4|]]].
  - rewrite C1, concat_app, <- C3, C4, <- !app_assoc. reflexivity.
  - destruct cur_line4 as [|x l4].
    + left. split; reflexivity.
    + right. split; [reflexivity|].
      apply concat_nonempty; [discriminate | exact NE4].
Qed.

(** The outer loop of [_wrap_chunks]: the characters of the chunks are a
    run of spaces, and then the lines added, in order, each followed by a
    run of spaces.  Nothing else is dropped, and no line is empty. *)
Lemma wrap_loop_weave (width : nat) :
  1 <= width ->
  forall (fuel : nat) (chunks lines : list text),
  total_length chunks < fuel ->
  Forall (fun chunk => chunk <> []) chunks ->
  exists added lead gaps,
    wrap_loop fuel width chunks lines = lines ++ added
    /\ List.length gaps = List.length added
    /\ concat chunks = lead ++ concat (interleave added gaps)
    /\ strip_is_empty lead = true
    /\ Forall (fun gap => strip_is_empty gap = true) gaps
    /\ Forall (fun line => line <> []) added.
Proof.
  intro W. induction fuel as [|fuel IH]; intros chunks lines T NE; [lia|].
  destruct chunks as [|c rest].
  - exists [], [], []. simpl. rewrite app_nil_r.
    repeat split; constructor.
  - cbn [wrap_loop].
    destruct (wrap_line width (c :: rest) lines) as [chunks' lines'] eqn:E.
    destruct (wrap_line_spec width (c :: rest) lines chunks' lines' W
                             ltac:(discriminate) NE E)
      as (NE' & T' & _ & _).
    destruct (wrap_line_weave width (c :: rest) lines chunks' lines' NE E)
      as (pre & body & post & C & Ppre & Ppost & L).
    destruct (IH chunks' lines' ltac:(lia) NE')
      as (added & lead & gaps & R & Len & Cc & Pl & Pg & Na).
    rewrite R, C, Cc.
    destruct L as [[-> ->]|[-> Nb]].
    + exists added, (pre ++ post ++ lead), gaps.
      split; [reflexivity|]. split; [exact Len|].
      split; [now rewrite <- !app_assoc|].
      split; [now rewrite !strip_is_empty_app, Ppre, Ppost, Pl|].
      split; [exact Pg | exact Na].
    + exists (body :: added), pre, ((post ++ lead) :: gaps).
      split; [now rewrite <- app_assoc|].
      split; [simpl; now rewrite Len|].
      split; [cbn [interleave concat]; now rewrite <- !app_assoc|].
      split; [exact Ppre|].
      split; [constructor; [now rewrite strip_is_empty_app, Ppost, Pl | exact Pg]|].
      constructor; [exact Nb | exact Na].
Qed.

Lemma wrap_text_weave (s : text) (width : nat) :
  1 <= width ->
  exists lead gaps,
    List.length gaps = List.length (wrap_text s width)
    /\ _munge_whitespace s
       = lead ++ concat (interleave (wrap_text s width) gaps)
    /\ strip_is_empty lead = true
    /\ Forall (fun gap => strip_is_empty gap = true) gaps
    /\ Forall (fun line => line <> []) (wrap_text s width).
Proof.
  intro W. unfold wrap_text, _wrap_chunks.
  destruct (wrap_loop_weave width W
              (S (total_length (_split (_munge_whitespace s))))
              (_split (_munge_whitespace s)) []
              (Nat.lt_succ_diag_r _) (split_nonempty _))
    as (added & lead & gaps & R & Len & C & Pl & Pg & Na).
  rewrite R. cbn [app]. rewrite concat_split in C.
  exists lead, gaps. auto.
Qed.

(** A text whose only characters of [_whitespace] are blanks is not
    changed by the normalisation. *)
Lemma expandtabs_without_tab (tabsize : nat) (s : text) :
  (forall c, In c s -> in_whitespace c = true -> c = space) ->
  forall column, expandtabs_from tabsize column s = s.
Proof.
  induction s as [|ch rest IH]; intros B column; [reflexivity|].
  cbn [expandtabs_from].
  destruct (Ascii.eqb_spec ch tab) as [->|_].
  - discriminate (B tab (or_introl eq_refl) eq_refl).
  - f_equal. apply IH. intros c Hc. apply B. now right.
Qed.

Lemma munge_only_blanks (s : text) :
  (forall c, In c s -> in_whitespace c = true -> c = space) ->
  _munge_whitespace s = s.
Proof.
  intro B. unfold _munge_whitespace, expandtabs.
  rewrite (expandtabs_without_tab 8 s B 0).
  unfold translate_whitespace.
  rewrite <- (map_id s) at 2. apply map_ext_in.
  intros c Hc. destruct (in_whitespace c) eqn:Wc; [|reflexivity].
  symmetry. exact (B c Hc Wc).
Qed.

(** After the normalisation the only character of [_whitespace] left is
    the blank. *)
Lemma munge_leaves_blanks (s : text) (c : ascii) :
  In c (_munge_whitespace s) -> in_whitespace c = true -> c = space.
Proof.
  unfold _munge_whitespace, translate_whitespace. intros H Wc.
  apply in_map_iff in H. destruct H as (x & E & _).
  destruct (in_whitespace x) eqn:Wx; [now symmetry|].
  subst x. rewrite Wc in Wx. discriminate.
Qed.

Lemma string_of_app (a b : text) :
  string_of_list_ascii (a ++ b)
  = (string_of_list_ascii a ++ string_of_list_ascii b)%string.
Proof. induction a as [|c a IH]; [reflexivity|]. simpl. now rewrite IH. Qed.

Lemma string_of_concat (lines : list text) :
  string_of_list_ascii (concat lines)
  = join_windows (map string_of_list_ascii lines).
Proof.
  unfold join_windows. induction lines as [|line rest IH]; [reflexivity|].
  cbn [concat map]. rewrite string_of_app, IH, join_cons. reflexivity.
Qed.

Lemma map_interleave {A B} (f : A -> B) (xs ys : list A) :
  map f (interleave xs ys) = interleave (map f xs) (map f ys).
Proof.
  revert ys. induction xs as [|x xs IH]; intros [|y ys]; try reflexivity.
  cbn [interleave map]. now rewrite IH.
Qed.

End WrapWeave.

Lemma quota_positive : 1 <= LIMIT_TEXT_UNIT * TEXT_UNIT.
Proof. unfold LIMIT_TEXT_UNIT, TEXT_UNIT. lia. Qed.

(** C1, as the code has it.  The windows are the lines [textwrap.wrap]
    cuts at the width of 25 units, in the order of the text.  No window is
    empty and none is longer than 25 units.  The text is first normalised
    (tabs expanded, every tab, line end and other character of
    [_whitespace] replaced by a blank; a text whose only such characters
    are blanks is left as it is).  The normalised text is then, character
    for character, a run of spaces, and after it the windows in order, each
    followed by a run of spaces: these runs, which lie where a window begins
    or ends, are all that is dropped, so the windows do not overlap, every
    character inside a window is kept, and the windows laid end to end hold
    every character of the text that is not a space, once and in order.
    The windows are not contiguous and, laid end to end, need not be the
    text. *)
Theorem wrap_windows (text : string) :
  Forall (fun window =>
            1 <= String.length window <= LIMIT_TEXT_UNIT * TEXT_UNIT)
         (textwrap.wrap text (LIMIT_TEXT_UNIT * TEXT_UNIT))
  /\ visible (join_windows (textwrap.wrap text (LIMIT_TEXT_UNIT * TEXT_UNIT)))
     = visible text
  /\ (exists lead gaps,
        List.length gaps
        = List.length (textwrap.wrap text (LIMIT_TEXT_UNIT * TEXT_UNIT))
        /\ normalised text
           = (lead
              ++ join_windows
                   (interleave
                      (textwrap.wrap text (LIMIT_TEXT_UNIT * TEXT_UNIT))
                      gaps))%string
        /\ all_space lead
        /\ Forall all_space gaps)
  /\ (forall c, In c (list_ascii_of_string (normalised text)) ->
                textwrap.in_whitespace c = true -> c = " "%char)
  /\ ((forall c, In c (list_ascii_of_string text) ->
                 textwrap.in_whitespace c = true -> c = " "%char) ->
      normalised text = text).
Proof.
  unfold textwrap.wrap, visible.
  destruct (wrap_text_spec (list_ascii_of_string text)
                           (LIMIT_TEXT_UNIT * TEXT_UNIT) quota_positive)
    as [F U].
  destruct (wrap_text_weave (list_ascii_of_string text)
                            (LIMIT_TEXT_UNIT * TEXT_UNIT) quota_positive)
    as (lead & gaps & Len & C & Pl & Pg & Ne).
  split; [|split; [|split; [|split]]].
  - apply Forall_map. rewrite Forall_forall in F, Ne.
    apply Forall_forall. intros line H.
    rewrite length_string_of_list_ascii. split; [|exact (F line H)].
    specialize (Ne line H). destruct line; [contradiction | simpl; lia].
  - now rewrite list_ascii_of_join.
  - exists (string_of_list_ascii lead), (map string_of_list_ascii gaps).
    split; [now rewrite !length_map|].
    split; [|split].
    + unfold normalised. rewrite C, string_of_app, string_of_concat.
      now rewrite map_interleave.
    + unfold all_space. now rewrite list_ascii_of_string_of_list_ascii.
    + apply Forall_map. eapply Forall_impl; [|exact Pg].
      intros gap H. unfold all_space.
      now rewrite list_ascii_of_string_of_list_ascii.
  - intros c H. unfold normalised in H.
    rewrite list_ascii_of_string_of_list_ascii in H.
    exact (munge_leaves_blanks _ c H).
  - intro B. unfold normalised.
    rewrite (munge_only_blanks _ B).
    apply string_of_list_ascii_of_string.
Qed.

Lemma two_word_text_oversized :
  LIMIT_TEXT_UNIT * TEXT_UNIT < String.length two_word_text.
Proof.
  unfold two_word_text. rewrite length_append, length_chars.
  simpl String.length. lia.
Qed.

Lemma two_word_windows_differ :
  (join_windows (textwrap.wrap two_word_text (LIMIT_TEXT_UNIT * TEXT_UNIT))
   =? two_word_text) = false.
Proof. vm_compute. reflexivity. Qed.

(** C1 as stated fails: for 25000 letters, a blank and one more letter,
    the windows are the 25000 letters and the last letter; the blank
    between them is in no window, and the windows laid end to end are not
    the text. *)
Lemma windows_drop_the_blank :
  LIMIT_TEXT_UNIT * TEXT_UNIT < String.length two_word_text
  /\ join_windows (textwrap.wrap two_word_text (LIMIT_TEXT_UNIT * TEXT_UNIT))
     <> two_word_text.
Proof.
  split; [exact two_word_text_oversized|].
  apply String.eqb_neq. exact two_word_windows_differ.
Qed.

(** ** The batch chunker *)

Section ChunkerFacts.

Context {World : Type}.
Variable service : Request.t -> World -> Result Response.t * World.
Variables src gid gv : string.

(** Windows that pass are gone through; the loop goes on with the rest. *)
Lemma for_chunk_in_after (pre post : list string)
    (l : FullText.locals) (s s' : Env World)
    (outcomes : list (string * Response.t)) :
  Passes service src gid gv pre s outcomes s' ->
  for_chunk_in service (pre ++ post) src gid gv l s
  = for_chunk_in service post src gid gv (after_passes l outcomes) s'.
Proof.
  intro P. revert l.
  induction P as [|window rest s alt r s1 outcomes s' G _ IH]; intro l;
    [reflexivity|].
  cbn [app for_chunk_in]. rewrite (bind_returned _ _ _ _ _ G).
  cbv beta iota. rewrite IH. reflexivity.
Qed.

Lemma Passes_sent (windows : list string) (s s' : Env World)
    (outcomes : list (string * Response.t)) :
  Passes service src gid gv windows s outcomes s' ->
  sent s' = sent s ++ map (Request.mk gid gv src) windows
  /\ List.length outcomes = List.length windows.
Proof.
  induction 1 as [|window rest s alt r s1 outcomes s' G _ [IH1 IH2]].
  - now rewrite app_nil_r.
  - pose proof (apply_guardrail_sent service window src gid gv s) as S.
    rewrite G in S. simpl in S.
    rewrite IH1, S, <- app_assoc. simpl. now rewrite IH2.
Qed.

Lemma after_passes_text (outcomes : list (string * Response.t))
    (l : FullText.locals) :
  FullText.filtered_text (after_passes l outcomes)
  = (FullText.filtered_text l ++ String.concat "" (map fst outcomes))%string.
Proof.
  revert l. induction outcomes as [|[alt r] rest IH]; intro l.
  - simpl. now rewrite append_empty_r.
  - cbn [after_passes fold_left map]. fold (after_passes
      (FullText.mk (Some false) (FullText.filtered_text l ++ fst (alt, r))%string
                   (Some (snd (alt, r)))) rest).
    rewrite IH, join_cons. simpl. now rewrite append_assoc.
Qed.

Lemma after_passes_last (outcomes : list (string * Response.t))
    (l : FullText.locals) (alt : string) (r : Response.t) :
  after_passes l (outcomes ++ [(alt, r)])
  = FullText.mk (Some false)
                (FullText.filtered_text (after_passes l outcomes) ++ alt)%string
                (Some r).
Proof. unfold after_passes. rewrite fold_left_app. reflexivity. Qed.

(** X13.  A long text whose windows all pass: the verdict is not blocked, the
    filtered text is the replacement texts laid end to end, the response
    is that of the last window, and every window was sent once, in
    order. *)
Lemma full_text_all_pass
    (text : string) (windows : list string) (s s' : Env World)
    (outcomes : list (string * Response.t)) (alt : string) (r : Response.t) :
  LIMIT_TEXT_UNIT * TEXT_UNIT < String.length text ->
  textwrap.wrap text (LIMIT_TEXT_UNIT * TEXT_UNIT) = windows ->
  Passes service src gid gv windows s (outcomes ++ [(alt, r)]) s' ->
  apply_guardrail_full_text service text src gid gv s
  = (Returned (false,
               String.concat "" (map fst (outcomes ++ [(alt, r)])),
               r), s')
  /\ sent s' = sent s ++ map (Request.mk gid gv src) windows.
Proof.
  intros L Wr P. split; [|exact (proj1 (Passes_sent _ _ _ _ P))].
  unfold apply_guardrail_full_text.
  apply Nat.leb_gt in L. rewrite L, Wr.
  rewrite <- (app_nil_r windows).
  rewrite (bind_returned _ _ _ _ _
             (for_chunk_in_after windows [] (FullText.mk None "" None) s s' _ P)).
  rewrite after_passes_last. cbn [FullText.is_blocked FullText.response].
  cbn [FullText.filtered_text]. rewrite after_passes_text.
  rewrite map_app. simpl map.
  replace (String.concat "" (map fst outcomes ++ [alt]))
    with (String.concat "" (map fst outcomes) ++ alt)%string; [reflexivity|].
  clear. induction (map fst outcomes) as [|x xs IH]; [reflexivity|].
  rewrite <- app_comm_cons, !join_cons, <- IH. apply append_assoc.
Qed.

(** X14.  A long text with a blocked window: the verdict is blocked, the
    filtered text is the replacement text of that window alone, and the
    windows up to it were sent, none after it. *)
Lemma full_text_stops_at_block
    (text : string) (pre post : list string) (window : string)
    (s s1 s2 : Env World)
    (outcomes : list (string * Response.t)) (alt : string) (r : Response.t) :
  LIMIT_TEXT_UNIT * TEXT_UNIT < String.length text ->
  textwrap.wrap text (LIMIT_TEXT_UNIT * TEXT_UNIT) = pre ++ window :: post ->
  Passes service src gid gv pre s outcomes s1 ->
  apply_guardrail service window src gid gv s1 = (Returned (true, alt, r), s2) ->
  apply_guardrail_full_text service text src gid gv s
  = (Returned (true, alt, r), s2)
  /\ sent s2 = sent s ++ map (Request.mk gid gv src) (pre ++ [window]).
Proof.
  intros L Wr P G. split.
  - unfold apply_guardrail_full_text.
    apply Nat.leb_gt in L. rewrite L, Wr.
    rewrite (bind_returned _ _ _ _ _
               (eq_trans
                  (for_chunk_in_after pre (window :: post)
                     (FullText.mk None "" None) s s1 _ P)
                  (bind_returned _ _ _ _ _ G))).
    reflexivity.
  - pose proof (apply_guardrail_sent service window src gid gv s1) as S.
    rewrite G in S. simpl in S.
    rewrite S, (proj1 (Passes_sent _ _ _ _ P)), map_app, <- app_assoc.
    reflexivity.
Qed.

End ChunkerFacts.

Lemma blank_text_oversized :
  LIMIT_TEXT_UNIT * TEXT_UNIT < String.length blank_text.
Proof.
  unfold blank_text. rewrite length_chars. apply Nat.lt_succ_diag_r.
Qed.

(** A text of blanks has no window. *)
Lemma blank_text_windows :
  textwrap.wrap blank_text (LIMIT_TEXT_UNIT * TEXT_UNIT) = [].
Proof. vm_compute. reflexivity. Qed.

(** C7 at the failing input.  A text of 25001 blanks is longer than the
    quota and [wrap] gives it no window: the loop has no turn, no request
    is sent, and [return is_blocked, filtered_text, response] finds
    [is_blocked] unbound. *)
Theorem full_text_of_blanks_is_unbound
    (World : Type) (service : Request.t -> World -> Result Response.t * World)
    (s : Env World) :
  apply_guardrail_full_text service blank_text "INPUT" "gr-1" "DRAFT" s
  = (Raised (UnboundLocalError "is_blocked"), s).
Proof.
  unfold apply_guardrail_full_text.
  pose proof blank_text_oversized as L. apply Nat.leb_gt in L. rewrite L.
  rewrite blank_text_windows. reflexivity.
Qed.

(** * Further properties *)

(** ** Assessments *)




(** ** The caller [generate] *)

Section GenerateFacts.

Context {World : Type}.
Variable service : Request.t -> World -> Result Response.t * World.
Variable model : ConverseRequest.t -> World -> Result ConverseResponse.t * World.
Variables gid gv : string.

Lemma generate_run (input_message : string) (s : Env World) :
  generate service model gid gv input_message s
  = match stream_conversation_call service model gid gv
            (ConverseRequest.messages (generate_request input_message))
            (ConverseRequest.system (generate_request input_message))
            (ConverseRequest.inferenceConfig (generate_request input_message))
            (ConverseRequest.additionalModelRequestFields
               (generate_request input_message)) s with
    | (Returned r, s') => (Returned r, s')
    | (Raised (ClientError _), s') => (Raised (UnboundLocalError "full_text"), s')
    | (Raised e, s') => (Raised e, s')
    end.
Proof.
  unfold generate, bind, try_stream_conversation. simpl.
  destruct (stream_conversation_call _ _ _ _ _ _ _ _ s) as [[[ft ag]|e] s'];
    [reflexivity|].
  destruct e; reflexivity.
Qed.

(** The call of [converse_stream] sends no [ApplyGuardrail] request; with
    its response the loop starts from the world the call left. *)
Lemma stream_conversation_call_run (input_message : string) (s : Env World) :
  stream_conversation_call service model gid gv
    (ConverseRequest.messages (generate_request input_message))
    (ConverseRequest.system (generate_request input_message))
    (ConverseRequest.inferenceConfig (generate_request input_message))
    (ConverseRequest.additionalModelRequestFields
       (generate_request input_message)) s
  = match model (generate_request input_message) (world s) with
    | (Returned response, w) =>
        stream_conversation service gid gv (ConverseResponse.stream response)
                            (mkEnv (sent s) w)
    | (Raised e, w) => (Raised e, mkEnv (sent s) w)
    end.
Proof.
  unfold stream_conversation_call, bind, call_converse_stream.
  change (ConverseRequest.mk MODEL_ID _ _ _ _)
    with (generate_request input_message).
  destruct (model (generate_request input_message) (world s)) as [[r|e] w];
    reflexivity.
Qed.

(** X2.  [generate] returns exactly when [stream_conversation] returns,
    and then the same text and history.  A [ClientError] raised inside
    [stream_conversation], by [converse_stream] or by an evaluation, is
    caught, and [generate] then raises [UnboundLocalError] on [full_text],
    which was never assigned, from the environment the failed call left.
    Every other exception passes through unchanged.  So [generate] never
    raises a [ClientError]; in particular a [ClientError] of
    [converse_stream] itself ends in [UnboundLocalError] with no
    evaluation request sent. *)
Theorem generate_outcomes (input_message : string) (s : Env World) :
  (forall r s',
      generate service model gid gv input_message s = (Returned r, s')
      <-> stream_conversation_call service model gid gv
            (ConverseRequest.messages (generate_request input_message))
            (ConverseRequest.system (generate_request input_message))
            (ConverseRequest.inferenceConfig (generate_request input_message))
            (ConverseRequest.additionalModelRequestFields
               (generate_request input_message)) s
          = (Returned r, s'))
  /\ (forall message s',
         stream_conversation_call service model gid gv
           (ConverseRequest.messages (generate_request input_message))
           (ConverseRequest.system (generate_request input_message))
           (ConverseRequest.inferenceConfig (generate_request input_message))
           (ConverseRequest.additionalModelRequestFields
              (generate_request input_message)) s
         = (Raised (ClientError message), s') ->
         generate service model gid gv input_message s
         = (Raised (UnboundLocalError "full_text"), s'))
  /\ (forall e s',
         stream_conversation_call service model gid gv
           (ConverseRequest.messages (generate_request input_message))
           (ConverseRequest.system (generate_request input_message))
           (ConverseRequest.inferenceConfig (generate_request input_message))
           (ConverseRequest.additionalModelRequestFields
              (generate_request input_message)) s
         = (Raised e, s') ->
         (forall message, e <> ClientError message) ->
         generate service model gid gv input_message s = (Raised e, s'))
  /\ (forall e s',
         generate service model gid gv input_message s = (Raised e, s') ->
         forall message, e <> ClientError message)
  /\ (forall message w,
         model (generate_request input_message) (world s)
         = (Raised (ClientError message), w) ->
         generate service model gid gv input_message s
         = (Raised (UnboundLocalError "full_text"), mkEnv (sent s) w)).
Proof.
  rewrite generate_run. split; [|split; [|split; [|split]]].
  - intros r s'.
    destruct (stream_conversation_call _ _ _ _ _ _ _ _ s) as [[r0|e] s0].
    + reflexivity.
    + split; [destruct e|]; discriminate.
  - intros message s' H. rewrite H. reflexivity.
  - intros e s' H N. rewrite H.
    destruct e as [message| |]; [destruct (N message eq_refl) | |];
      reflexivity.
  - intros e s'.
    destruct (stream_conversation_call _ _ _ _ _ _ _ _ s) as [[r0|e0] s0];
      [discriminate|].
    destruct e0; intro H; injection H as <- _; discriminate.
  - intros message w H. rewrite stream_conversation_call_run, H. reflexivity.
Qed.

(** The turn whose threshold flush is refused by the service raises. *)
Lemma flush_raises (event : Event.t) (l : Stream.locals)
    (s s1 : Env World) (t : string) (e : Exn) :
  start_well_formed event ->
  carried_text event = Some t ->
  TEXT_UNIT < String.length (Stream.buffer_text l ++ t)%string ->
  apply_guardrail service (Stream.buffer_text l) "OUTPUT" gid gv s
  = (Raised e, s1) ->
  loop_body service gid gv event l s = (Raised e, s1).
Proof.
  intros W C L G. unfold loop_body.
  rewrite (bind_returned _ _ _ _ _ (on_messageStart_ok event s W)).
  apply bind_raised.
  destruct (carried_text_lookup _ _ C) as (block & d & Hb & Hd & Ht).
  unfold on_contentBlockDelta. rewrite Hb.
  unfold subscript, bind, ret. rewrite Hd, Ht.
  apply Nat.ltb_lt in L. rewrite L, G. reflexivity.
Qed.

(** X3.  When the guardrail service answers an evaluation in the middle
    of the stream with a [ClientError] (a throttled request, say),
    [generate] does not return the text accumulated so far, nor the error:
    it raises [UnboundLocalError] on [full_text], and no request follows
    the refused one. *)
Theorem generate_loses_text_on_client_error
    (input_message : string) (pre post : list Event.t) (event : Event.t)
    (l : Stream.locals) (s s2 s3 : Env World) (w1 : World)
    (t message : string) :
  model (generate_request input_message) (world s)
  = (Returned (ConverseResponse.mk (Some (pre ++ event :: post))), w1) ->
  Runs service gid gv pre initial_locals (mkEnv (sent s) w1) l s2 ->
  start_well_formed event ->
  carried_text event = Some t ->
  TEXT_UNIT < String.length (Stream.buffer_text l ++ t)%string ->
  apply_guardrail service (Stream.buffer_text l) "OUTPUT" gid gv s2
  = (Raised (ClientError message), s3) ->
  generate service model gid gv input_message s
  = (Raised (UnboundLocalError "full_text"), s3)
  /\ sent s3 = sent s2 ++ [Request.mk gid gv "OUTPUT" (Stream.buffer_text l)].
Proof.
  intros Hm R W C L G. split.
  - rewrite generate_run, stream_conversation_call_run, Hm.
    cbn [ConverseResponse.stream].
    rewrite stream_conversation_run.
    rewrite (for_event_in_after service gid gv pre (event :: post) _ _ _ _ R).
    simpl for_event_in.
    rewrite (bind_raised _ _ _ _ _
               (flush_raises event l s2 s3 t _ W C L G)).
    reflexivity.
  - pose proof (apply_guardrail_sent service (Stream.buffer_text l)
                  "OUTPUT" gid gv s2) as S.
    rewrite G in S. exact S.
Qed.

End GenerateFacts.

Lemma generate_loses_text_on_client_error_witness :
  generate scripted (replay (text_stream abcd_deltas "end_turn"))
           "gr-1" "DRAFT" "What is a bank?" (fresh pass_then_throttle)
  = (Raised (UnboundLocalError "full_text"),
     mkEnv [Request.mk "gr-1" "DRAFT" "OUTPUT" (chars "a" 600);
            Request.mk "gr-1" "DRAFT" "OUTPUT" (chars "b" 600)] [])
  /\ [Request.mk "gr-1" "DRAFT" "OUTPUT" (chars "a" 600);
      Request.mk "gr-1" "DRAFT" "OUTPUT" (chars "b" 600)]
     = [Request.mk "gr-1" "DRAFT" "OUTPUT" (chars "a" 600)]
       ++ [Request.mk "gr-1" "DRAFT" "OUTPUT" (chars "b" 600)].
Proof.
  apply (generate_loses_text_on_client_error
           scripted (replay (text_stream abcd_deltas "end_turn"))
           "gr-1" "DRAFT" "What is a bank?"
           [text_delta (chars "a" 600); text_delta (chars "b" 600)]
           [text_delta "d"; message_stop "end_turn"]
           (text_delta (chars "c" 600))
           (Stream.mk (chars "a" 600) (chars "b" 600) [no_action])
           (fresh pass_then_throttle)
           (mkEnv [Request.mk "gr-1" "DRAFT" "OUTPUT" (chars "a" 600)]
                  [Raised (ClientError "ThrottlingException")])
           (mkEnv [Request.mk "gr-1" "DRAFT" "OUTPUT" (chars "a" 600);
                   Request.mk "gr-1" "DRAFT" "OUTPUT" (chars "b" 600)] [])
           pass_then_throttle (chars "c" 600) "ThrottlingException").
  - reflexivity.
  - apply Runs_cons with (l1 := Stream.mk "" (chars "a" 600) [])
                         (s1 := fresh pass_then_throttle);
      [vm_compute; reflexivity|].
    eapply Runs_cons; [vm_compute; reflexivity|].
    apply Runs_nil.
  - exact I.
  - reflexivity.
  - exact c_overflows_b.
  - reflexivity.
Defined.

(** ** Texts of whitespace *)

Section BlankFacts.

Import textwrap.

Lemma in_whitespace_space : in_whitespace space = true.
Proof. reflexivity. Qed.

Lemma in_whitespace_blanks (n : nat) (rest : text) :
  forallb in_whitespace (repeat space n ++ rest) = forallb in_whitespace rest.
Proof. induction n as [|n IH]; [reflexivity | exact IH]. Qed.

(** Tab expansion keeps a text of whitespace a text of whitespace. *)
Lemma expandtabs_whitespace (tabsize column : nat) (s : text) :
  forallb in_whitespace s = true ->
  forallb in_whitespace (expandtabs_from tabsize column s) = true.
Proof.
  revert column. induction s as [|ch rest IH]; intros column H; [reflexivity|].
  simpl in H. apply andb_true_iff in H. destruct H as [Hc Hr].
  simpl expandtabs_from.
  destruct (ch =? tab)%char.
  - destruct (0 <? tabsize)%nat; [rewrite in_whitespace_blanks|]; now apply IH.
  - simpl. rewrite Hc. now apply IH.
Qed.

Lemma translate_whitespace_blanks (s : text) :
  forallb in_whitespace s = true ->
  translate_whitespace s = repeat space (List.length s).
Proof.
  induction s as [|c rest IH]; intro H; [reflexivity|].
  simpl in H. apply andb_true_iff in H. destruct H as [Hc Hr].
  unfold translate_whitespace in *. simpl. rewrite Hc, (IH Hr). reflexivity.
Qed.

Lemma munge_whitespace_blanks (s : text) :
  forallb in_whitespace s = true ->
  exists n, _munge_whitespace s = repeat space n.
Proof.
  intro H. unfold _munge_whitespace, expandtabs.
  exists (List.length (expandtabs_from 8 0 s)).
  apply translate_whitespace_blanks. now apply expandtabs_whitespace.
Qed.

Lemma whitespace_run_blanks (n : nat) : whitespace_run (repeat space n) = n.
Proof. induction n as [|n IH]; [reflexivity | simpl; now rewrite IH]. Qed.

Lemma firstn_blanks (k n : nat) :
  firstn k (repeat space n) = repeat space (Nat.min k n).
Proof.
  revert n. induction k as [|k IH]; intros [|n]; try reflexivity.
  simpl. now rewrite IH.
Qed.

Lemma skipn_blanks (k n : nat) :
  skipn k (repeat space n) = repeat space (n - k).
Proof.
  revert n. induction k as [|k IH]; intros [|n]; try reflexivity.
  simpl. apply IH.
Qed.

(** A text of blanks is one chunk. *)
Lemma split_blanks (n : nat) :
  _split (repeat space (S n)) = [repeat space (S n)].
Proof.
  unfold _split. rewrite repeat_length.
  cbn [split_from repeat]. unfold match_length.
  rewrite in_whitespace_space.
  change (space :: repeat space n) with (repeat space (S n)).
  rewrite whitespace_run_blanks, firstn_blanks, skipn_blanks.
  rewrite Nat.min_id, Nat.sub_diag. simpl repeat at 3.
  destruct n; reflexivity.
Qed.

Lemma strip_is_empty_blanks (n : nat) : strip_is_empty (repeat space n) = true.
Proof. induction n as [|n IH]; [reflexivity | exact IH]. Qed.

Lemma rfind_from_blanks (i n : nat) : rfind_from i hyphen (repeat space n) = None.
Proof.
  revert i. induction n as [|n IH]; intro i; [reflexivity|].
  simpl. now rewrite IH.
Qed.

(** One turn of the loop on a chunk of blanks: no line is made, and what
    does not fit the width is left as a chunk of blanks. *)
Lemma wrap_line_blanks (width k : nat) :
  1 <= width ->
  wrap_line width [repeat space (S k)] []
  = (if (S k <=? width)%nat then [] else [repeat space (S k - width)], []).
Proof.
  intro W. unfold wrap_line.
  rewrite andb_false_r. cbn [fill_line]. rewrite repeat_length.
  cbn [Nat.add].
  destruct (S k <=? width)%nat eqn:Fit.
  - cbn [fill_line app last nonempty]. rewrite strip_is_empty_blanks.
    reflexivity.
  - apply Nat.leb_gt in Fit.
    rewrite repeat_length.
    assert (Long : (width <? S k)%nat = true) by now apply Nat.ltb_lt.
    rewrite Long. unfold _handle_long_word.
    assert (Hw : (width <? 1)%nat = false) by (apply Nat.ltb_ge; lia).
    rewrite Hw, Nat.sub_0_r, repeat_length, Long.
    unfold rfind. rewrite firstn_blanks, rfind_from_blanks.
    rewrite firstn_blanks, skipn_blanks.
    cbn [app last nonempty].
    rewrite strip_is_empty_blanks. reflexivity.
Qed.

(** The loop on a chunk of blanks ends without a line, whatever the
    fuel. *)
Lemma wrap_loop_blanks (width : nat) :
  1 <= width ->
  forall fuel k, wrap_loop fuel width [repeat space (S k)] [] = [].
Proof.
  intro W. induction fuel as [|fuel IH]; intro k; [reflexivity|].
  cbn [wrap_loop].
  change (space :: repeat space k) with (repeat space (S k)).
  rewrite (wrap_line_blanks width k W).
  destruct (S k <=? width)%nat eqn:Fit.
  - destruct fuel; reflexivity.
  - apply Nat.leb_gt in Fit.
    destruct (S k - width) as [|j] eqn:E; [lia|]. apply IH.
Qed.

(** A text of whitespace has no window. *)
Lemma wrap_whitespace (text : string) (width : nat) :
  1 <= width -> only_whitespace text -> wrap text width = [].
Proof.
  intros W H. unfold wrap, wrap_text, _wrap_chunks.
  destruct (munge_whitespace_blanks _ H) as [n ->].
  destruct n as [|n]; [reflexivity|].
  rewrite split_blanks, (wrap_loop_blanks width W). reflexivity.
Qed.

End BlankFacts.

(** X4.  On every text longer than the quota that is made of whitespace
    only (blanks, tabs, line ends), [apply_guardrail_full_text] raises
    [UnboundLocalError]: [wrap] gives no window, the loop has no turn, no
    request is sent, and [is_blocked] is read before any assignment. *)
Theorem full_text_of_whitespace_is_unbound
    (World : Type) (service : Request.t -> World -> Result Response.t * World)
    (text src gid gv : string) (s : Env World) :
  LIMIT_TEXT_UNIT * TEXT_UNIT < String.length text ->
  only_whitespace text ->
  apply_guardrail_full_text service text src gid gv s
  = (Raised (UnboundLocalError "is_blocked"), s).
Proof.
  intros L H. unfold apply_guardrail_full_text.
  apply Nat.leb_gt in L. rewrite L.
  rewrite (wrap_whitespace text _ quota_positive H). reflexivity.
Qed.

Lemma blank_text_only_whitespace : only_whitespace blank_text.
Proof. unfold only_whitespace. vm_compute. reflexivity. Qed.

Lemma full_text_of_whitespace_is_unbound_witness :
  apply_guardrail_full_text permissive blank_text "INPUT" "gr-1" "DRAFT" (fresh tt)
  = (Raised (UnboundLocalError "is_blocked"), fresh tt).
Proof.
  apply (full_text_of_whitespace_is_unbound unit permissive
           blank_text "INPUT" "gr-1" "DRAFT" (fresh tt)).
  - exact blank_text_oversized.
  - exact blank_text_only_whitespace.
Defined.

(** ** Texts without whitespace *)

Section SpacelessFacts.

Import textwrap.

(** Whatever the widths, the long word is cut in two at some point. *)
Lemma handle_long_word_cut
    (width : nat) (chunk : text) (rest cur_line : list text) (cur_len : nat) :
  exists e,
    _handle_long_word (chunk :: rest) cur_line cur_len width
    = (skipn e chunk :: rest, cur_line ++ [firstn e chunk]).
Proof. unfold _handle_long_word. eexists. reflexivity. Qed.

Lemma incl_concat_removelast (l : list text) :
  incl (concat (removelast l)) (concat l).
Proof.
  destruct l as [|x l]; [apply incl_refl|].
  rewrite (concat_removelast_last (x :: l)) by discriminate.
  apply incl_appl, incl_refl.
Qed.

(** One turn of the loop makes no character: those of the lines and of
    the chunks left were in the lines and the chunks before. *)
Lemma wrap_line_chars (width : nat) (chunks lines chunks' lines' : list text) :
  wrap_line width chunks lines = (chunks', lines') ->
  incl (concat lines' ++ concat chunks') (concat lines ++ concat chunks).
Proof.
  unfold wrap_line.
  set (chunks1 := match chunks with
                  | chunk :: rest =>
                      if strip_is_empty chunk && nonempty lines
                      then rest else chunks
                  | [] => chunks
                  end).
  assert (I1 : incl (concat chunks1) (concat chunks)).
  { unfold chunks1. destruct chunks as [|c rest]; [apply incl_refl|].
    destruct (strip_is_empty c && nonempty lines); [|apply incl_refl].
    simpl. apply incl_appr, incl_refl. }
  clearbody chunks1.
  destruct (fill_line width chunks1 [] 0) as [[chunks2 cur_line] cur_len] eqn:F.
  destruct (fill_line_spec width chunks1 [] 0 chunks2 cur_line cur_len F
                           eq_refl (Nat.le_0_l _))
    as (taken & H1 & H2 & _).
  simpl in H2. subst cur_line chunks1.
  set (stage := match chunks2 with
                | chunk :: _ =>
                    if (width <? List.length chunk)%nat
                    then _handle_long_word chunks2 taken cur_len width
                    else (chunks2, taken)
                | [] => (chunks2, taken)
                end).
  assert (S3 : exists chunks3 cur_line3,
             stage = (chunks3, cur_line3)
             /\ concat cur_line3 ++ concat chunks3
                = concat taken ++ concat chunks2).
  { unfold stage. destruct chunks2 as [|chunk rest2]; [eauto|].
    destruct (width <? List.length chunk)%nat; [|eauto].
    destruct (handle_long_word_cut width chunk rest2 taken cur_len) as [e He].
    exists (skipn e chunk :: rest2), (taken ++ [firstn e chunk]).
    split; [exact He|].
    rewrite concat_app. simpl. rewrite app_nil_r, <- app_assoc.
    f_equal. rewrite app_assoc, firstn_skipn. reflexivity. }
  destruct S3 as (chunks3 & cur_line3 & -> & C3).
  set (cur_line4 := if nonempty cur_line3 && strip_is_empty (last cur_line3 [])
                    then removelast cur_line3 else cur_line3).
  assert (I4 : incl (concat cur_line4) (concat cur_line3)).
  { unfold cur_line4.
    destruct (nonempty cur_line3 && strip_is_empty (last cur_line3 []));
      [apply incl_concat_removelast | apply incl_refl]. }
  clearbody cur_line4.
  intro H. injection H as <- <-.
  assert (Hl : concat (if nonempty cur_line4
                       then lines ++ [concat cur_line4] else lines)
               = concat lines ++ concat cur_line4).
  { destruct cur_line4 as [|x l4]; simpl nonempty; cbv iota.
    - simpl. now rewrite app_nil_r.
    - rewrite concat_app. simpl concat at 2. now rewrite app_nil_r. }
  intros c Hc. apply in_app_or in Hc.
  assert (Hin : In c (concat lines) \/ In c (concat cur_line3 ++ concat chunks3)).
  { destruct Hc as [Hc|Hc].
    - destruct cur_line4 as [|x l4]; simpl nonempty in Hc; cbv iota in Hc.
      + now left.
      + rewrite concat_app in Hc. apply in_app_or in Hc.
        destruct Hc as [Hc|Hc]; [now left|].
        right. apply in_or_app. left. apply I4.
        simpl concat in Hc. now rewrite app_nil_r in Hc.
    - right. apply in_or_app. now right. }
  clear Hl. destruct Hin as [Hin|Hin]; apply in_or_app; [now left|].
  right. apply I1. rewrite concat_app, <- C3. exact Hin.
Qed.

Lemma wrap_loop_chars (width fuel : nat) (chunks lines : list text) :
  incl (concat (wrap_loop fuel width chunks lines))
       (concat lines ++ concat chunks).
Proof.
  revert chunks lines. induction fuel as [|fuel IH]; intros chunks lines.
  - destruct chunks; apply incl_appl, incl_refl.
  - destruct chunks as [|c rest]; [apply incl_appl, incl_refl|].
    cbn [wrap_loop].
    destruct (wrap_line width (c :: rest) lines) as [chunks' lines'] eqn:E.
    eapply incl_tran; [apply IH|].
    exact (wrap_line_chars width (c :: rest) lines chunks' lines' E).
Qed.

Lemma filter_all {A} (p : A -> bool) (l : list A) :
  forallb p l = true -> filter p l = l.
Proof.
  induction l as [|x l IH]; [reflexivity|].
  simpl. intro H. apply andb_true_iff in H. destruct H as [Hx Hl].
  rewrite Hx, (IH Hl). reflexivity.
Qed.

Lemma not_isspace_not_whitespace (c : ascii) :
  isspace c = false -> in_whitespace c = false.
Proof.
  intro H. destruct (in_whitespace c) eqn:W; [|reflexivity].
  apply in_whitespace_isspace in W. congruence.
Qed.

Lemma expandtabs_spaceless (tabsize column : nat) (s : text) :
  forallb (fun c => negb (isspace c)) s = true ->
  expandtabs_from tabsize column s = s.
Proof.
  revert column. induction s as [|ch rest IH]; intros column H; [reflexivity|].
  simpl in H. apply andb_true_iff in H. destruct H as [Hc Hr].
  simpl expandtabs_from.
  destruct (Ascii.eqb_spec ch tab) as [->|_]; [discriminate|].
  now rewrite IH.
Qed.

Lemma translate_spaceless (s : text) :
  forallb (fun c => negb (isspace c)) s = true ->
  translate_whitespace s = s.
Proof.
  induction s as [|c rest IH]; intro H; [reflexivity|].
  simpl in H. apply andb_true_iff in H. destruct H as [Hc Hr].
  unfold translate_whitespace in *. simpl.
  apply negb_true_iff in Hc.
  rewrite (not_isspace_not_whitespace c Hc), (IH Hr). reflexivity.
Qed.

(** A text without whitespace is cut into windows that, laid end to end,
    are the text. *)
Lemma wrap_text_spaceless (s : text) (width : nat) :
  1 <= width ->
  forallb (fun c => negb (isspace c)) s = true ->
  concat (wrap_text s width) = s.
Proof.
  intros W H.
  destruct (wrap_text_spec s width W) as [_ U].
  assert (M : _munge_whitespace s = s).
  { unfold _munge_whitespace, expandtabs.
    rewrite (expandtabs_spaceless 8 0 s H). now apply translate_spaceless. }
  assert (I : incl (concat (wrap_text s width)) s).
  { unfold wrap_text, _wrap_chunks. rewrite M.
    eapply incl_tran; [apply wrap_loop_chars|].
    simpl. rewrite concat_split. apply incl_refl. }
  assert (A : forallb (fun c => negb (isspace c)) (concat (wrap_text s width))
              = true).
  { apply forallb_forall. intros c Hc.
    apply (proj1 (forallb_forall _ _) H). now apply I. }
  unfold unspaced in U.
  now rewrite (filter_all _ _ A), (filter_all _ _ H) in U.
Qed.

End SpacelessFacts.

Lemma join_spaceless (text : string) (width : nat) :
  1 <= width -> spaceless text ->
  join_windows (textwrap.wrap text width) = text.
Proof.
  intros W H. unfold textwrap.wrap.
  rewrite <- (string_of_list_ascii_of_string
                (join_windows (map string_of_list_ascii
                   (textwrap.wrap_text (list_ascii_of_string text) width)))).
  rewrite list_ascii_of_join, (wrap_text_spaceless _ width W H).
  apply string_of_list_ascii_of_string.
Qed.

Lemma windows_within_quota (text : string) :
  Forall (fun window => String.length window <= LIMIT_TEXT_UNIT * TEXT_UNIT)
         (textwrap.wrap text (LIMIT_TEXT_UNIT * TEXT_UNIT)).
Proof.
  unfold textwrap.wrap.
  destruct (wrap_text_spec (list_ascii_of_string text)
                           (LIMIT_TEXT_UNIT * TEXT_UNIT) quota_positive)
    as [F _].
  apply Forall_map. eapply Forall_impl; [|exact F].
  intros line H. cbv beta. now rewrite length_string_of_list_ascii.
Qed.

Lemma length_join_bound (windows : list string) (width : nat) :
  Forall (fun window => String.length window <= width) windows ->
  String.length (join_windows windows) <= List.length windows * width.
Proof.
  unfold join_windows. induction 1 as [|w ws Hw _ IH]; [apply Nat.le_refl|].
  rewrite length_join_cons. simpl List.length. lia.
Qed.

(** X5.  A text in which no character is a space for [str.isspace] is
    cut without loss: the windows laid end to end are the text, character
    for character (also across hyphens), each window has at most 25 units,
    and there are at least as many windows as the length of the text
    requires. *)
Theorem windows_of_spaceless_text (text : string) :
  spaceless text ->
  join_windows (textwrap.wrap text (LIMIT_TEXT_UNIT * TEXT_UNIT)) = text
  /\ Forall (fun window => String.length window <= LIMIT_TEXT_UNIT * TEXT_UNIT)
            (textwrap.wrap text (LIMIT_TEXT_UNIT * TEXT_UNIT))
  /\ String.length text
     <= List.length (textwrap.wrap text (LIMIT_TEXT_UNIT * TEXT_UNIT))
        * (LIMIT_TEXT_UNIT * TEXT_UNIT).
Proof.
  intro H. split; [|split].
  - exact (join_spaceless text _ quota_positive H).
  - apply windows_within_quota.
  - rewrite <- (join_spaceless text _ quota_positive H) at 1.
    apply length_join_bound, windows_within_quota.
Qed.

Lemma oversized_text_spaceless : spaceless oversized_text.
Proof. unfold spaceless. vm_compute. reflexivity. Qed.

Lemma windows_of_spaceless_text_witness :
  join_windows (textwrap.wrap oversized_text (LIMIT_TEXT_UNIT * TEXT_UNIT))
  = oversized_text
  /\ Forall (fun window => String.length window <= LIMIT_TEXT_UNIT * TEXT_UNIT)
            (textwrap.wrap oversized_text (LIMIT_TEXT_UNIT * TEXT_UNIT))
  /\ String.length oversized_text
     <= List.length (textwrap.wrap oversized_text (LIMIT_TEXT_UNIT * TEXT_UNIT))
        * (LIMIT_TEXT_UNIT * TEXT_UNIT).
Proof.
  apply (windows_of_spaceless_text oversized_text).
  exact oversized_text_spaceless.
Defined.

(** ** The batch chunker, whatever the service *)

Section ChunkerRequests.

Context {World : Type}.
Variable service : Request.t -> World -> Result Response.t * World.
Variables src gid gv : string.

(** The windows split into those that pass, in order from [s], and the
    rest, whose first window is blocked or refused. *)
Lemma windows_split (windows : list string) :
  forall s : Env World,
  exists pre rest outcomes s1,
    windows = pre ++ rest
    /\ Passes service src gid gv pre s outcomes s1
    /\ match rest with
       | [] => True
       | window :: _ =>
           (exists alt r s2,
               apply_guardrail service window src gid gv s1
               = (Returned (true, alt, r), s2))
           \/ (exists e s2,
                  apply_guardrail service window src gid gv s1
                  = (Raised e, s2))
       end.
Proof.
  induction windows as [|window rest IH]; intro s.
  - exists [], [], [], s. split; [reflexivity|]. split; [constructor | exact I].
  - destruct (apply_guardrail service window src gid gv s)
      as [[[[blocked alt] r]|e] s2] eqn:G.
    + destruct blocked.
      * exists [], (window :: rest), [], s.
        split; [reflexivity|]. split; [constructor|]. left. eauto.
      * destruct (IH s2) as (pre & rest' & outcomes & s1 & E & P & R).
        exists (window :: pre), rest', ((alt, r) :: outcomes), s1.
        split; [rewrite E; reflexivity|].
        split; [eapply Passes_cons; [exact G | exact P] | exact R].
    + exists [], (window :: rest), [], s.
      split; [reflexivity|]. split; [constructor|]. right. eauto.
Qed.

(** X6.  Whatever the text and whatever the service answers, every
    request that [apply_guardrail_full_text] sends carries at most 25 text
    units.  A text within the quota is sent whole, in one request.  A
    longer one is sent window by window, in order, one request per window:
    the windows that pass, and then the first window that is blocked or
    refused by the service, at which the run ends with that verdict or
    that exception; no window after it is sent, and when every window
    passes every window is sent. *)
Theorem full_text_requests_within_quota (text : string) (s : Env World) :
  exists contents,
    sent (snd (apply_guardrail_full_text service text src gid gv s))
    = sent s ++ map (Request.mk gid gv src) contents
    /\ Forall (fun content => String.length content <= LIMIT_TEXT_UNIT * TEXT_UNIT)
              contents
    /\ (String.length text <= LIMIT_TEXT_UNIT * TEXT_UNIT -> contents = [text])
    /\ (LIMIT_TEXT_UNIT * TEXT_UNIT < String.length text ->
        exists pre rest outcomes s1,
          textwrap.wrap text (LIMIT_TEXT_UNIT * TEXT_UNIT) = pre ++ rest
          /\ Passes service src gid gv pre s outcomes s1
          /\ match rest with
             | [] =>
                 contents = pre
                 /\ snd (apply_guardrail_full_text service text src gid gv s)
                    = s1
             | window :: _ =>
                 contents = pre ++ [window]
                 /\ ((exists alt r s2,
                         apply_guardrail service window src gid gv s1
                         = (Returned (true, alt, r), s2)
                         /\ apply_guardrail_full_text service text src gid gv s
                            = (Returned (true, alt, r), s2))
                     \/ (exists e s2,
                            apply_guardrail service window src gid gv s1
                            = (Raised e, s2)
                            /\ apply_guardrail_full_text service text src gid gv s
                               = (Raised e, s2)))
             end).
Proof.
  destruct (Nat.le_gt_cases (String.length text) (LIMIT_TEXT_UNIT * TEXT_UNIT))
    as [L|L].
  - exists [text]. unfold apply_guardrail_full_text.
    rewrite (proj2 (Nat.leb_le _ _) L).
    split; [apply apply_guardrail_sent|].
    split; [now constructor|]. split; [reflexivity | lia].
  - pose proof (windows_within_quota text) as F.
    destruct (windows_split (textwrap.wrap text (LIMIT_TEXT_UNIT * TEXT_UNIT)) s)
      as (pre & rest & outcomes & s1 & E & P & R).
    rewrite E in F. apply Forall_app in F. destruct F as [Fp Fr].
    pose proof (proj1 (Passes_sent service src gid gv _ _ _ _ P)) as Sp.
    assert (Run : apply_guardrail_full_text service text src gid gv s
                  = bind (for_chunk_in service rest src gid gv
                            (after_passes (FullText.mk None "" None) outcomes))
                         (fun l =>
                            match FullText.is_blocked l, FullText.response l with
                            | Some is_blocked, Some response =>
                                ret (is_blocked, FullText.filtered_text l, response)
                            | None, _ => raise (UnboundLocalError "is_blocked")
                            | Some _, None => raise (UnboundLocalError "response")
                            end) s1).
    { unfold apply_guardrail_full_text.
      rewrite (proj2 (Nat.leb_gt _ _) L), E.
      unfold bind at 1.
      rewrite (for_chunk_in_after service src gid gv pre rest _ s s1 outcomes P).
      reflexivity. }
    destruct rest as [|window post].
    + exists pre.
      assert (St : snd (apply_guardrail_full_text service text src gid gv s) = s1).
      { rewrite Run. unfold bind. cbn [for_chunk_in]. unfold ret at 1.
        destruct (FullText.is_blocked _) as [b|];
          [destruct (FullText.response _)|]; reflexivity. }
      split; [rewrite St; exact Sp|]. split; [exact Fp|].
      split; [lia|]. intros _.
      exists pre, [], outcomes, s1.
      split; [exact E|]. split; [exact P|]. split; [reflexivity | exact St].
    + exists (pre ++ [window]).
      assert (Fw : Forall (fun content =>
                             String.length content <= LIMIT_TEXT_UNIT * TEXT_UNIT)
                          (pre ++ [window])).
      { apply Forall_app. split; [exact Fp|].
        constructor; [now inversion Fr | constructor]. }
      pose proof (apply_guardrail_sent service window src gid gv s1) as Sw.
      destruct R as [(alt & r & s2 & G)|(e & s2 & G)].
      * assert (Res : apply_guardrail_full_text service text src gid gv s
                      = (Returned (true, alt, r), s2)).
        { rewrite Run. cbn [for_chunk_in].
          rewrite (bind_returned _ _ _ _ _ (bind_returned _ _ _ _ _ G)).
          reflexivity. }
        rewrite G in Sw. cbn [snd] in Sw.
        split; [rewrite Res; cbn [snd];
                rewrite Sw, Sp, map_app, <- app_assoc; reflexivity|].
        split; [exact Fw|]. split; [lia|]. intros _.
        exists pre, (window :: post), outcomes, s1.
        split; [exact E|]. split; [exact P|]. split; [reflexivity|].
        left. exists alt, r, s2. split; [exact G | exact Res].
      * assert (Res : apply_guardrail_full_text service text src gid gv s
                      = (Raised e, s2)).
        { rewrite Run. apply bind_raised. cbn [for_chunk_in].
          apply bind_raised. exact G. }
        rewrite G in Sw. cbn [snd] in Sw.
        split; [rewrite Res; cbn [snd];
                rewrite Sw, Sp, map_app, <- app_assoc; reflexivity|].
        split; [exact Fw|]. split; [lia|]. intros _.
        exists pre, (window :: post), outcomes, s1.
        split; [exact E|]. split; [exact P|]. split; [reflexivity|].
        right. exists e, s2. split; [exact G | exact Res].
Qed.

End ChunkerRequests.

(** ** The batch chunker when nothing intervenes *)

Lemma visible_join (text : string) (width : nat) :
  1 <= width ->
  visible (join_windows (textwrap.wrap text width)) = visible text.
Proof.
  intro W. unfold textwrap.wrap, visible. rewrite list_ascii_of_join.
  exact (proj2 (wrap_text_spec (list_ascii_of_string text) width W)).
Qed.

Section QuietFullText.

Context {World : Type}.
Variable service : Request.t -> World -> Result Response.t * World.
Variables src gid gv : string.
Hypothesis quiet : never_intervenes service.

Lemma quiet_passes (windows : list string) :
  forall s : Env World,
  exists outcomes s',
    Passes service src gid gv windows s outcomes s'
    /\ map fst outcomes = windows.
Proof.
  induction windows as [|window rest IH]; intro s.
  - exists [], s. split; [constructor | reflexivity].
  - destruct (quiet_apply_guardrail service gid gv quiet window src s)
      as (r & w' & G).
    destruct (IH (mkEnv (sent s ++ [Request.mk gid gv src window]) w'))
      as (outcomes & s' & P & E).
    exists ((window, r) :: outcomes), s'.
    split; [econstructor; eassumption | simpl; now rewrite E].
Qed.

Lemma join_snoc (xs : list string) (x : string) :
  String.concat "" (xs ++ [x]) = (String.concat "" xs ++ x)%string.
Proof.
  induction xs as [|y ys IH]; [reflexivity|].
  rewrite <- app_comm_cons, !join_cons, IH. now rewrite append_assoc.
Qed.

Lemma after_passes_bound (l : FullText.locals)
    (outcomes : list (string * Response.t)) :
  outcomes <> [] ->
  exists r,
    after_passes l outcomes
    = FullText.mk (Some false)
        (FullText.filtered_text l ++ String.concat "" (map fst outcomes))%string
        (Some r).
Proof.
  intro N. destruct (exists_last N) as (init & [alt r] & ->).
  exists r. rewrite after_passes_last, after_passes_text, map_app.
  simpl map. rewrite join_snoc, append_assoc. reflexivity.
Qed.

(** X7.  When the service never intervenes, a text longer than the quota
    that has a window comes back not blocked, after one request per window,
    and the filtered text is the windows laid end to end: it has the
    characters of the text that are not white space, in order, and it is
    the text itself when the text has no white space. *)
Theorem quiet_full_text (text : string) (s : Env World) :
  LIMIT_TEXT_UNIT * TEXT_UNIT < String.length text ->
  textwrap.wrap text (LIMIT_TEXT_UNIT * TEXT_UNIT) <> [] ->
  exists filtered r s',
    apply_guardrail_full_text service text src gid gv s
    = (Returned (false, filtered, r), s')
    /\ sent s'
       = sent s ++ map (Request.mk gid gv src)
                       (textwrap.wrap text (LIMIT_TEXT_UNIT * TEXT_UNIT))
    /\ filtered
       = join_windows (textwrap.wrap text (LIMIT_TEXT_UNIT * TEXT_UNIT))
    /\ visible filtered = visible text
    /\ (spaceless text -> filtered = text).
Proof.
  intros L N.
  destruct (quiet_passes (textwrap.wrap text (LIMIT_TEXT_UNIT * TEXT_UNIT)) s)
    as (outcomes & s' & P & E).
  assert (No : outcomes <> []).
  { intro Z. subst outcomes. apply N. symmetry. exact E. }
  destruct (after_passes_bound (FullText.mk None "" None) outcomes No)
    as [r A].
  exists (join_windows (textwrap.wrap text (LIMIT_TEXT_UNIT * TEXT_UNIT))), r, s'.
  split; [|split; [|split; [|split]]].
  - unfold apply_guardrail_full_text.
    apply Nat.leb_gt in L. rewrite L.
    rewrite <- (app_nil_r (textwrap.wrap text (LIMIT_TEXT_UNIT * TEXT_UNIT))) at 1.
    rewrite (bind_returned _ _ _ _ _
               (for_chunk_in_after service src gid gv _ []
                  (FullText.mk None "" None) s s' outcomes P)).
    rewrite A. cbn [FullText.is_blocked FullText.response FullText.filtered_text].
    rewrite E. reflexivity.
  - exact (proj1 (Passes_sent service src gid gv _ _ _ _ P)).
  - reflexivity.
  - apply visible_join, quota_positive.
  - intro H. exact (join_spaceless text _ quota_positive H).
Qed.

End QuietFullText.

Lemma two_word_text_has_window :
  textwrap.wrap two_word_text (LIMIT_TEXT_UNIT * TEXT_UNIT) <> [].
Proof.
  intro H. apply (f_equal (@List.length string)) in H.
  vm_compute in H. discriminate.
Qed.

Lemma quiet_full_text_witness :
  exists filtered r s',
    apply_guardrail_full_text permissive two_word_text "INPUT" "gr-1" "DRAFT"
                              (fresh tt)
    = (Returned (false, filtered, r), s')
    /\ sent s'
       = sent (fresh tt)
         ++ map (Request.mk "gr-1" "DRAFT" "INPUT")
                (textwrap.wrap two_word_text (LIMIT_TEXT_UNIT * TEXT_UNIT))
    /\ filtered
       = join_windows (textwrap.wrap two_word_text (LIMIT_TEXT_UNIT * TEXT_UNIT))
    /\ visible filtered = visible two_word_text
    /\ (spaceless two_word_text -> filtered = two_word_text).
Proof.
  apply (quiet_full_text permissive "INPUT" "gr-1" "DRAFT"
           permissive_never_intervenes two_word_text (fresh tt)).
  - exact two_word_text_oversized.
  - exact two_word_text_has_window.
Defined.

(** ** The batch chunker on a text of two words *)

Lemma same_windows_eq (a b : list string) : same_windows a b = true -> a = b.
Proof.
  revert b. induction a as [|x a IH]; intros [|y b] H;
    try discriminate; [reflexivity|].
  simpl in H. apply andb_true_iff in H. destruct H as [Hx Ha].
  apply String.eqb_eq in Hx. subst y. f_equal. now apply IH.
Qed.

(** The windows of [two_word_text]: the letters, then the last letter. *)
Lemma two_word_windows :
  textwrap.wrap two_word_text (LIMIT_TEXT_UNIT * TEXT_UNIT)
  = [] ++ chars "a" (LIMIT_TEXT_UNIT * TEXT_UNIT) :: ["b"].
Proof. apply same_windows_eq. vm_compute. reflexivity. Qed.

Lemma full_text_all_pass_witness :
  apply_guardrail_full_text permissive two_word_text "INPUT" "gr-1" "DRAFT"
                            (fresh tt)
  = (Returned (false,
               String.concat ""
                 (map fst ([(chars "a" (LIMIT_TEXT_UNIT * TEXT_UNIT), no_action)]
                           ++ [("b", no_action)])),
               no_action),
     mkEnv [Request.mk "gr-1" "DRAFT" "INPUT"
                       (chars "a" (LIMIT_TEXT_UNIT * TEXT_UNIT));
            Request.mk "gr-1" "DRAFT" "INPUT" "b"] tt)
  /\ sent (mkEnv [Request.mk "gr-1" "DRAFT" "INPUT"
                             (chars "a" (LIMIT_TEXT_UNIT * TEXT_UNIT));
                  Request.mk "gr-1" "DRAFT" "INPUT" "b"] tt)
     = sent (fresh tt)
       ++ map (Request.mk "gr-1" "DRAFT" "INPUT")
              [chars "a" (LIMIT_TEXT_UNIT * TEXT_UNIT); "b"].
Proof.
  apply (full_text_all_pass permissive "INPUT" "gr-1" "DRAFT" two_word_text
           [chars "a" (LIMIT_TEXT_UNIT * TEXT_UNIT); "b"]
           (fresh tt)
           (mkEnv [Request.mk "gr-1" "DRAFT" "INPUT"
                              (chars "a" (LIMIT_TEXT_UNIT * TEXT_UNIT));
                   Request.mk "gr-1" "DRAFT" "INPUT" "b"] tt)
           [(chars "a" (LIMIT_TEXT_UNIT * TEXT_UNIT), no_action)]
           "b" no_action).
  - exact two_word_text_oversized.
  - exact two_word_windows.
  - apply Passes_cons
      with (s1 := mkEnv [Request.mk "gr-1" "DRAFT" "INPUT"
                                    (chars "a" (LIMIT_TEXT_UNIT * TEXT_UNIT))] tt);
      [reflexivity|].
    apply Passes_cons
      with (s1 := mkEnv [Request.mk "gr-1" "DRAFT" "INPUT"
                                    (chars "a" (LIMIT_TEXT_UNIT * TEXT_UNIT));
                         Request.mk "gr-1" "DRAFT" "INPUT" "b"] tt);
      [reflexivity|].
    apply Passes_nil.
Defined.

(** The first window is let through with a name masked, the second is
    blocked. *)
Lemma full_text_stops_at_block_witness :
  apply_guardrail_full_text scripted two_word_text "INPUT" "gr-1" "DRAFT"
    (fresh [Returned anonymized_answer; Returned blocked_answer])
  = (Returned (true, "Sorry, I cannot answer that.", blocked_answer),
     mkEnv [Request.mk "gr-1" "DRAFT" "INPUT"
                       (chars "a" (LIMIT_TEXT_UNIT * TEXT_UNIT));
            Request.mk "gr-1" "DRAFT" "INPUT" "b"] [])
  /\ sent (mkEnv [Request.mk "gr-1" "DRAFT" "INPUT"
                             (chars "a" (LIMIT_TEXT_UNIT * TEXT_UNIT));
                  Request.mk "gr-1" "DRAFT" "INPUT" "b"]
                 (@nil (Result Response.t)))
     = sent (fresh [Returned anonymized_answer; Returned blocked_answer])
       ++ map (Request.mk "gr-1" "DRAFT" "INPUT")
              ([chars "a" (LIMIT_TEXT_UNIT * TEXT_UNIT)] ++ ["b"]).
Proof.
  apply (full_text_stops_at_block scripted "INPUT" "gr-1" "DRAFT" two_word_text
           [chars "a" (LIMIT_TEXT_UNIT * TEXT_UNIT)] [] "b"
           (fresh [Returned anonymized_answer; Returned blocked_answer])
           (mkEnv [Request.mk "gr-1" "DRAFT" "INPUT"
                              (chars "a" (LIMIT_TEXT_UNIT * TEXT_UNIT))]
                  [Returned blocked_answer])
           (mkEnv [Request.mk "gr-1" "DRAFT" "INPUT"
                              (chars "a" (LIMIT_TEXT_UNIT * TEXT_UNIT));
                   Request.mk "gr-1" "DRAFT" "INPUT" "b"] [])
           [("My name is {NAME}.", anonymized_answer)]
           "Sorry, I cannot answer that." blocked_answer).
  - exact two_word_text_oversized.
  - exact two_word_windows.
  - apply Passes_cons
      with (s1 := mkEnv [Request.mk "gr-1" "DRAFT" "INPUT"
                                    (chars "a" (LIMIT_TEXT_UNIT * TEXT_UNIT))]
                        [Returned blocked_answer]);
      [reflexivity | apply Passes_nil].
  - reflexivity.
Defined.

Lemma blocked_stop_flush_is_last_witness :
  for_event_in scripted "gr-1" "DRAFT"
    (message_stop "end_turn" :: [metadata_event])
    (Stream.mk "" "Hello" []) (fresh [Returned blocked_answer])
  = (Returned (Stream.mk "" "Hello" ([] ++ [blocked_answer]), []),
     mkEnv [Request.mk "gr-1" "DRAFT" "OUTPUT" "Hello"] []).
Proof.
  apply (blocked_stop_flush_is_last scripted "gr-1" "DRAFT"
           (message_stop "end_turn") "end_turn"
           (MessageStop.mk (Some "end_turn") None None)
           [metadata_event] (Stream.mk "" "Hello" [])
           (fresh [Returned blocked_answer])
           (mkEnv [Request.mk "gr-1" "DRAFT" "OUTPUT" "Hello"] [])
           "Sorry, I cannot answer that." blocked_answer).
  - exact I.
  - reflexivity.
  - reflexivity.
  - reflexivity.
  - reflexivity.
  - reflexivity.
  - constructor; [|constructor]. repeat split.
Defined.

(** ** What a quiet stream returns *)

Section QuietText.

Context {World : Type}.
Variable service : Request.t -> World -> Result Response.t * World.
Variables gid gv : string.
Hypothesis quiet : never_intervenes service.

(** The loop over a stream of text deltas, from any locals: [full_text]
    gains the texts evaluated before [messageStop], and with the buffer it
    holds everything received. *)
Lemma quiet_loop_text (reason : string) (ds : list string) :
  (reason =? "GUARDRAIL_INTERVENED") = false ->
  forall (l : Stream.locals) (s : Env World),
  exists l' s' earlier,
    for_event_in service gid gv (text_stream ds reason) l s
    = (Returned (l', []), s')
    /\ sent s'
       = sent s ++ map (Request.mk gid gv "OUTPUT") earlier
         ++ [Request.mk gid gv "OUTPUT" (Stream.buffer_text l')]
    /\ Stream.full_text l'
       = (Stream.full_text l ++ String.concat "" earlier)%string
    /\ (Stream.full_text l' ++ Stream.buffer_text l')%string
       = (Stream.full_text l ++ Stream.buffer_text l
          ++ String.concat "" ds)%string
    /\ List.length (Stream.applied_guardrails l')
       = List.length (Stream.applied_guardrails l) + List.length earlier
    /\ (ds = [] -> l' = l)
    /\ (ds <> [] ->
        exists before,
          Stream.buffer_text l' = (before ++ last ds "")%string).
Proof.
  intro N. induction ds as [|d ds IH]; intros l s.
  - destruct (quiet_stop_turn service gid gv quiet reason l s N) as (w' & T).
    exists l, (mkEnv (sent s ++ [Request.mk gid gv "OUTPUT" (Stream.buffer_text l)]) w'),
      [].
    unfold text_stream. simpl map. simpl app.
    simpl for_event_in. rewrite (bind_returned _ _ _ _ _ T).
    split; [reflexivity|]. split; [reflexivity|].
    split; [simpl; now rewrite append_empty_r|].
    split; [simpl; now rewrite append_empty_r|].
    split; [simpl; lia|]. split; [reflexivity|].
    intro Z. contradiction.
  - change (text_stream (d :: ds) reason)
      with (text_delta d :: text_stream ds reason).
    simpl for_event_in. rewrite join_cons.
    destruct (Nat.le_gt_cases
                (String.length (Stream.buffer_text l ++ d)%string) TEXT_UNIT)
      as [L|L].
    + rewrite (bind_returned _ _ _ _ _
                 (quiet_delta_fits service gid gv d l s L)).
      destruct (IH (Stream.mk (Stream.full_text l)
                              (Stream.buffer_text l ++ d)%string
                              (Stream.applied_guardrails l)) s)
        as (l' & s' & earlier & E & S & F & T & A & Nil & Last).
      cbn [Stream.full_text Stream.buffer_text Stream.applied_guardrails] in *.
      exists l', s', earlier.
      split; [exact E|]. split; [exact S|]. split; [exact F|].
      split; [rewrite T; now rewrite append_assoc|].
      split; [exact A|]. split; [discriminate|].
      intros _. destruct ds as [|d' ds'].
      * rewrite (Nil eq_refl). cbn [Stream.buffer_text last]. eauto.
      * destruct (Last ltac:(discriminate)) as [before Hb].
        exists before. exact Hb.
    + destruct (quiet_delta_flushes service gid gv quiet d l s L)
        as (r & w' & Tn).
      rewrite (bind_returned _ _ _ _ _ Tn).
      destruct (IH (Stream.mk (Stream.full_text l ++ Stream.buffer_text l)%string
                              d (Stream.applied_guardrails l ++ [r]))
                   (mkEnv (sent s ++ [Request.mk gid gv "OUTPUT"
                                                  (Stream.buffer_text l)]) w'))
        as (l' & s' & earlier & E & S & F & T & A & Nil & Last).
      cbn [Stream.full_text Stream.buffer_text Stream.applied_guardrails sent] in *.
      exists l', s', (Stream.buffer_text l :: earlier).
      split; [exact E|].
      split; [rewrite S, <- app_assoc; reflexivity|].
      split; [rewrite F, join_cons, append_assoc; reflexivity|].
      split; [rewrite T, append_assoc; reflexivity|].
      split; [rewrite A, length_app; simpl; lia|].
      split; [discriminate|].
      intros _. destruct ds as [|d' ds'].
      * rewrite (Nil eq_refl). cbn [Stream.buffer_text last]. exists "".
        reflexivity.
      * destruct (Last ltac:(discriminate)) as [before Hb].
        exists before. exact Hb.
Qed.

(** X8.  On a stream of text deltas closed by [messageStop], when the
    service never intervenes, the text returned is the concatenation of
    the buffers evaluated before [messageStop]; followed by the buffer
    evaluated at [messageStop] it is the concatenation of all deltas.  That
    last buffer ends with the last delta and is not part of the text
    returned; the history has one response for each evaluation but the last
    one. *)
Theorem quiet_stream_text
    (ds : list string) (reason : string) (s0 : Env World) :
  (reason =? "GUARDRAIL_INTERVENED") = false ->
  exists final history s' earlier residual,
    stream_conversation service gid gv (Some (text_stream ds reason)) s0
    = (Returned (final, history), s')
    /\ sent s'
       = sent s0 ++ map (Request.mk gid gv "OUTPUT") earlier
         ++ [Request.mk gid gv "OUTPUT" residual]
    /\ final = String.concat "" earlier
    /\ (final ++ residual)%string = String.concat "" ds
    /\ List.length history = List.length earlier
    /\ (ds <> [] -> exists before, residual = (before ++ last ds "")%string).
Proof.
  intro N.
  destruct (quiet_loop_text reason ds N initial_locals s0)
    as (l' & s' & earlier & E & S & F & T & A & _ & Last).
  exists (Stream.full_text l'), (Stream.applied_guardrails l'), s',
    earlier, (Stream.buffer_text l').
  rewrite stream_conversation_run, E.
  split; [reflexivity|]. split; [exact S|]. split; [exact F|].
  split; [exact T|]. split; [exact A | exact Last].
Qed.

End QuietText.

Lemma quiet_stream_text_witness :
  exists final history s' earlier residual,
    stream_conversation permissive "gr-1" "DRAFT"
      (Some (text_stream hello_world_deltas "end_turn")) (fresh tt)
    = (Returned (final, history), s')
    /\ sent s'
       = sent (fresh tt) ++ map (Request.mk "gr-1" "DRAFT" "OUTPUT") earlier
         ++ [Request.mk "gr-1" "DRAFT" "OUTPUT" residual]
    /\ final = String.concat "" earlier
    /\ (final ++ residual)%string = String.concat "" hello_world_deltas
    /\ List.length history = List.length earlier
    /\ (hello_world_deltas <> [] ->
        exists before, residual = (before ++ last hello_world_deltas "")%string).
Proof.
  apply (quiet_stream_text permissive "gr-1" "DRAFT"
           permissive_never_intervenes hello_world_deltas "end_turn" (fresh tt)).
  reflexivity.
Defined.

(** ** The requests of the stream dispatcher, whatever the service *)

Section StreamRequests.

Context {World : Type}.
Variable service : Request.t -> World -> Result Response.t * World.
Variables gid gv : string.
Variable n : nat.
Hypothesis unit_within : TEXT_UNIT <= n.

Lemma on_messageStart_env (event : Event.t) (s s' : Env World)
    (out : Result unit) :
  on_messageStart event s = (out, s') -> s' = s.
Proof.
  unfold on_messageStart.
  destruct (Event.messageStart event) as [[[role|]]|];
    unfold subscript, bind, ret, raise; intro H; now injection H.
Qed.

(** The evaluation of a buffer within the bound is a request within the
    bound. *)
Lemma evaluation_request (l : Stream.locals) (s : Env World) :
  String.length (Stream.buffer_text l) <= n ->
  exists reqs,
    sent (snd (apply_guardrail service (Stream.buffer_text l) "OUTPUT" gid gv s))
    = sent s ++ reqs
    /\ Forall (output_request gid gv n) reqs.
Proof.
  intro B. exists [Request.mk gid gv "OUTPUT" (Stream.buffer_text l)].
  split; [apply apply_guardrail_sent|].
  constructor; [|constructor]. repeat split. exact B.
Qed.

Lemma delta_step_requests (event : Event.t) (l : Stream.locals)
    (s s' : Env World) (out : Result (Event.t * Stream.locals)) :
  String.length (Stream.buffer_text l) <= n ->
  (forall u, carried_text event = Some u -> String.length u <= n) ->
  on_contentBlockDelta service gid gv event l s = (out, s') ->
  exists reqs,
    sent s' = sent s ++ reqs
    /\ Forall (output_request gid gv n) reqs
    /\ forall e1 l1, out = Returned (e1, l1) ->
                     String.length (Stream.buffer_text l1) <= n.
Proof.
  intros B D. unfold on_contentBlockDelta, carried_text in *.
  destruct (Event.contentBlockDelta event) as [block|].
  - unfold subscript, bind, ret, raise.
    destruct (ContentBlockDelta.delta block) as [d|].
    + destruct (Delta.text d) as [t|].
      * specialize (D t eq_refl).
        destruct (TEXT_UNIT <? String.length (Stream.buffer_text l ++ t)%string)%nat
          eqn:L.
        -- destruct (evaluation_request l s B) as (reqs & S & F).
           destruct (apply_guardrail service (Stream.buffer_text l) "OUTPUT" gid gv s)
             as [[[[b alt] r]|e] s1].
           ++ simpl in S. destruct b; intro H; injection H as <- <-;
                exists reqs; (split; [exact S|]); (split; [exact F|]);
                intros e1 l1 H1; injection H1 as _ <-; exact D.
           ++ simpl in S. intro H. injection H as <- <-.
              exists reqs. split; [exact S|]. split; [exact F|]. discriminate.
        -- apply Nat.ltb_ge in L. intro H. injection H as <- <-.
           exists []. rewrite app_nil_r. split; [reflexivity|].
           split; [constructor|].
           intros e1 l1 H1. injection H1 as _ <-. simpl. lia.
      * intro H. injection H as <- <-. exists []. rewrite app_nil_r.
        split; [reflexivity|]. split; [constructor | discriminate].
    + intro H. injection H as <- <-. exists []. rewrite app_nil_r.
      split; [reflexivity|]. split; [constructor | discriminate].
  - unfold ret. intro H. injection H as <- <-. exists []. rewrite app_nil_r.
    split; [reflexivity|]. split; [constructor|].
    intros e1 l1 H1. injection H1 as _ <-. exact B.
Qed.

Lemma stop_step_requests (event : Event.t) (l : Stream.locals)
    (s s' : Env World) (out : Result (Stream.flow * Event.t * Stream.locals)) :
  String.length (Stream.buffer_text l) <= n ->
  on_messageStop service gid gv event l s = (out, s') ->
  exists reqs,
    sent s' = sent s ++ reqs
    /\ Forall (output_request gid gv n) reqs
    /\ forall flow e1 l1, out = Returned (flow, e1, l1) ->
                          Stream.buffer_text l1 = Stream.buffer_text l.
Proof.
  intros B. unfold on_messageStop.
  destruct (Event.messageStop event) as [stop|].
  - unfold subscript, bind, ret, raise.
    destruct (MessageStop.stopReason stop) as [reason|].
    + destruct (reason =? "GUARDRAIL_INTERVENED").
      * intro H. injection H as <- <-. exists []. rewrite app_nil_r.
        split; [reflexivity|]. split; [constructor|].
        intros flow e1 l1 H1. now injection H1 as _ _ <-.
      * destruct (evaluation_request l s B) as (reqs & S & F).
        destruct (apply_guardrail service (Stream.buffer_text l) "OUTPUT" gid gv s)
          as [[[[b alt] r]|e] s1].
        -- simpl in S. destruct b; intro H; injection H as <- <-;
             exists reqs; (split; [exact S|]); (split; [exact F|]);
             intros flow e1 l1 H1; now injection H1 as _ _ <-.
        -- simpl in S. intro H. injection H as <- <-.
           exists reqs. split; [exact S|]. split; [exact F|]. discriminate.
    + intro H. injection H as <- <-. exists []. rewrite app_nil_r.
      split; [reflexivity|]. split; [constructor | discriminate].
  - unfold ret. intro H. injection H as <- <-. exists []. rewrite app_nil_r.
    split; [reflexivity|]. split; [constructor|].
    intros flow e1 l1 H1. now injection H1 as _ _ <-.
Qed.

(** One turn of the loop, whatever its outcome. *)
Lemma turn_requests (event : Event.t) (l : Stream.locals)
    (s s' : Env World) (out : Result (Stream.flow * Stream.locals)) :
  String.length (Stream.buffer_text l) <= n ->
  (forall u, carried_text event = Some u -> String.length u <= n) ->
  loop_body service gid gv event l s = (out, s') ->
  exists reqs,
    sent s' = sent s ++ reqs
    /\ Forall (output_request gid gv n) reqs
    /\ forall flow l', out = Returned (flow, l') ->
                       String.length (Stream.buffer_text l') <= n.
Proof.
  intros B D. unfold loop_body. unfold bind at 1.
  destruct (on_messageStart event s) as [[u|x] sa] eqn:H1.
  - apply on_messageStart_env in H1. subst sa. unfold bind at 1.
    destruct (on_contentBlockDelta service gid gv event l s)
      as [[[e1 l1]|x] sb] eqn:H2;
      destruct (delta_step_requests event l s sb _ B D H2)
        as (reqs2 & S2 & F2 & B2).
    + specialize (B2 e1 l1 eq_refl). cbv beta iota. unfold bind at 1.
      destruct (on_messageStop service gid gv e1 l1 sb)
        as [[[[f e2] l2]|x] sc] eqn:H3;
        destruct (stop_step_requests e1 l1 sb sc _ B2 H3)
          as (reqs3 & S3 & F3 & B3).
      * specialize (B3 f e2 l2 eq_refl). cbv beta iota.
        assert (R : exists reqs,
                   sent sc = sent s ++ reqs
                   /\ Forall (output_request gid gv n) reqs).
        { exists (reqs2 ++ reqs3). rewrite S3, S2, <- app_assoc.
          split; [reflexivity | now apply Forall_app]. }
        destruct R as (reqs & S & F).
        destruct f; unfold on_metadata, bind, ret; intro H;
          injection H as <- <-; exists reqs;
          (split; [exact S|]); (split; [exact F|]);
          intros flow l' H'; injection H' as _ <-; rewrite B3; exact B2.
      * intro H. injection H as <- <-.
        exists (reqs2 ++ reqs3). rewrite S3, S2, <- app_assoc.
        split; [reflexivity|]. split; [now apply Forall_app | discriminate].
    + intro H. injection H as <- <-.
      exists reqs2. split; [exact S2|]. split; [exact F2 | discriminate].
  - apply on_messageStart_env in H1. subst sa.
    intro H. injection H as <- <-. exists []. rewrite app_nil_r.
    split; [reflexivity|]. split; [constructor | discriminate].
Qed.

Lemma loop_requests (events : list Event.t) :
  forall (l : Stream.locals) (s s' : Env World)
         (out : Result (Stream.locals * list Event.t)),
  String.length (Stream.buffer_text l) <= n ->
  (forall e u, In e events -> carried_text e = Some u -> String.length u <= n) ->
  for_event_in service gid gv events l s = (out, s') ->
  exists reqs,
    sent s' = sent s ++ reqs /\ Forall (output_request gid gv n) reqs.
Proof.
  induction events as [|event rest IH]; intros l s s' out B D.
  - simpl. unfold ret. intro H. injection H as _ <-.
    exists []. rewrite app_nil_r. split; [reflexivity | constructor].
  - simpl for_event_in. unfold bind at 1.
    destruct (loop_body service gid gv event l s) as [[[f l1]|x] s1] eqn:T;
      destruct (turn_requests event l s s1 _ B
                  (fun u => D event u (or_introl eq_refl)) T)
        as (reqs1 & S1 & F1 & B1).
    + specialize (B1 f l1 eq_refl). cbv beta iota. destruct f.
      * intro H.
        destruct (IH l1 s1 s' out B1
                     (fun e u I => D e u (or_intror I)) H)
          as (reqs2 & S2 & F2).
        exists (reqs1 ++ reqs2). rewrite S2, S1, <- app_assoc.
        split; [reflexivity | now apply Forall_app].
      * unfold ret. intro H. injection H as _ <-.
        exists reqs1. split; [exact S1 | exact F1].
    + intro H. injection H as _ <-.
      exists reqs1. split; [exact S1 | exact F1].
Qed.

(** X9.  Whatever the events and whatever the service answers, also when
    the run ends in an exception: every request the stream dispatcher
    sends is for the source [OUTPUT] and the configured guardrail, and
    carries no more characters than the larger of [TEXT_UNIT] and the
    longest delta of the stream.  With deltas of at most [TEXT_UNIT]
    characters each request is billed as one text unit. *)
Theorem stream_requests_within_unit (events : list Event.t) (s : Env World) :
  (forall e u, In e events -> carried_text e = Some u -> String.length u <= n) ->
  exists reqs,
    sent (snd (stream_conversation service gid gv (Some events) s))
    = sent s ++ reqs
    /\ Forall (output_request gid gv n) reqs.
Proof.
  intro D. rewrite stream_conversation_run.
  destruct (for_event_in service gid gv events initial_locals s)
    as [out s'] eqn:E.
  destruct (loop_requests events initial_locals s s' out (Nat.le_0_l _) D E)
    as (reqs & S & F).
  exists reqs. split; [|exact F].
  destruct out as [[l rest]|e]; exact S.
Qed.

End StreamRequests.

Lemma abcd_deltas_within_unit :
  forall e u,
    In e (text_stream abcd_deltas "end_turn") ->
    carried_text e = Some u -> String.length u <= TEXT_UNIT.
Proof.
  intros e u I C.
  assert (H : forallb (fun e => match carried_text e with
                                | Some u => (String.length u <=? TEXT_UNIT)%nat
                                | None => true
                                end)
                      (text_stream abcd_deltas "end_turn") = true)
    by (vm_compute; reflexivity).
  rewrite forallb_forall in H. specialize (H e I). rewrite C in H.
  now apply Nat.leb_le.
Qed.

Lemma stream_requests_within_unit_witness :
  exists reqs,
    sent (snd (stream_conversation scripted "gr-1" "DRAFT"
                 (Some (text_stream abcd_deltas "end_turn"))
                 (fresh pass_then_throttle)))
    = sent (fresh pass_then_throttle) ++ reqs
    /\ Forall (output_request "gr-1" "DRAFT" TEXT_UNIT) reqs.
Proof.
  apply (stream_requests_within_unit scripted "gr-1" "DRAFT" TEXT_UNIT
           (Nat.le_refl TEXT_UNIT)
           (text_stream abcd_deltas "end_turn") (fresh pass_then_throttle)).
  exact abcd_deltas_within_unit.
Defined.

(** ** A quiet stream that ends without [messageStop] *)

Section QuietUnfinished.

Context {World : Type}.
Variable service : Request.t -> World -> Result Response.t * World.
Variables gid gv : string.
Hypothesis quiet : never_intervenes service.

Lemma quiet_deltas_only (ds : list string) :
  forall (l : Stream.locals) (s : Env World),
  exists l' s' earlier,
    for_event_in service gid gv (map text_delta ds) l s
    = (Returned (l', []), s')
    /\ sent s' = sent s ++ map (Request.mk gid gv "OUTPUT") earlier
    /\ Stream.full_text l'
       = (Stream.full_text l ++ String.concat "" earlier)%string
    /\ (Stream.full_text l' ++ Stream.buffer_text l')%string
       = (Stream.full_text l ++ Stream.buffer_text l
          ++ String.concat "" ds)%string
    /\ List.length (Stream.applied_guardrails l')
       = List.length (Stream.applied_guardrails l) + List.length earlier
    /\ (ds = [] -> l' = l)
    /\ (ds <> [] ->
        exists before,
          Stream.buffer_text l' = (before ++ last ds "")%string).
Proof.
  induction ds as [|d ds IH]; intros l s.
  - exists l, s, []. simpl. rewrite app_nil_r, !append_empty_r.
    repeat split; auto. intro Z. contradiction.
  - cbn [map]. simpl for_event_in. rewrite join_cons.
    destruct (Nat.le_gt_cases
                (String.length (Stream.buffer_text l ++ d)%string) TEXT_UNIT)
      as [L|L].
    + rewrite (bind_returned _ _ _ _ _
                 (quiet_delta_fits service gid gv d l s L)).
      destruct (IH (Stream.mk (Stream.full_text l)
                              (Stream.buffer_text l ++ d)%string
                              (Stream.applied_guardrails l)) s)
        as (l' & s' & earlier & E & S & F & T & A & Nil & Last).
      cbn [Stream.full_text Stream.buffer_text Stream.applied_guardrails] in *.
      exists l', s', earlier.
      split; [exact E|]. split; [exact S|]. split; [exact F|].
      split; [rewrite T; now rewrite append_assoc|].
      split; [exact A|]. split; [discriminate|].
      intros _. destruct ds as [|d' ds'].
      * rewrite (Nil eq_refl). cbn [Stream.buffer_text last]. eauto.
      * destruct (Last ltac:(discriminate)) as [before Hb].
        exists before. exact Hb.
    + destruct (quiet_delta_flushes service gid gv quiet d l s L)
        as (r & w' & Tn).
      rewrite (bind_returned _ _ _ _ _ Tn).
      destruct (IH (Stream.mk (Stream.full_text l ++ Stream.buffer_text l)%string
                              d (Stream.applied_guardrails l ++ [r]))
                   (mkEnv (sent s ++ [Request.mk gid gv "OUTPUT"
                                                  (Stream.buffer_text l)]) w'))
        as (l' & s' & earlier & E & S & F & T & A & Nil & Last).
      cbn [Stream.full_text Stream.buffer_text Stream.applied_guardrails sent] in *.
      exists l', s', (Stream.buffer_text l :: earlier).
      split; [exact E|].
      split; [rewrite S, <- app_assoc; reflexivity|].
      split; [rewrite F, join_cons, append_assoc; reflexivity|].
      split; [rewrite T, append_assoc; reflexivity|].
      split; [rewrite A, length_app; simpl; lia|].
      split; [discriminate|].
      intros _. destruct ds as [|d' ds'].
      * rewrite (Nil eq_refl). cbn [Stream.buffer_text last]. exists "".
        reflexivity.
      * destruct (Last ltac:(discriminate)) as [before Hb].
        exists before. exact Hb.
Qed.

(** X10.  A stream of text deltas that ends without [messageStop], the
    service never intervening: the run returns the concatenation of the
    buffers evaluated at the threshold, and what is still in the buffer
    when the stream runs out, which ends with the last delta, is neither
    sent for evaluation nor returned. *)
Theorem quiet_unfinished_stream (ds : list string) (s0 : Env World) :
  exists final history s' earlier residual,
    stream_conversation service gid gv (Some (map text_delta ds)) s0
    = (Returned (final, history), s')
    /\ sent s' = sent s0 ++ map (Request.mk gid gv "OUTPUT") earlier
    /\ final = String.concat "" earlier
    /\ (final ++ residual)%string = String.concat "" ds
    /\ List.length history = List.length earlier
    /\ (ds <> [] -> exists before, residual = (before ++ last ds "")%string).
Proof.
  destruct (quiet_deltas_only ds initial_locals s0)
    as (l' & s' & earlier & E & S & F & T & A & _ & Last).
  exists (Stream.full_text l'), (Stream.applied_guardrails l'), s',
    earlier, (Stream.buffer_text l').
  rewrite stream_conversation_run, E.
  split; [reflexivity|]. split; [exact S|]. split; [exact F|].
  split; [exact T|]. split; [exact A | exact Last].
Qed.

End QuietUnfinished.

Lemma quiet_unfinished_stream_witness :
  exists final history s' earlier residual,
    stream_conversation permissive "gr-1" "DRAFT"
      (Some (map text_delta hello_world_deltas)) (fresh tt)
    = (Returned (final, history), s')
    /\ sent s' = sent (fresh tt)
                 ++ map (Request.mk "gr-1" "DRAFT" "OUTPUT") earlier
    /\ final = String.concat "" earlier
    /\ (final ++ residual)%string = String.concat "" hello_world_deltas
    /\ List.length history = List.length earlier
    /\ (hello_world_deltas <> [] ->
        exists before, residual = (before ++ last hello_world_deltas "")%string).
Proof.
  exact (quiet_unfinished_stream permissive "gr-1" "DRAFT"
           permissive_never_intervenes hello_world_deltas (fresh tt)).
Defined.

(** ** The data validator: [get_local_path] *)

Section ValidatorFacts.

Import Validator.

Lemma slice_from_0 (s : string) : slice_from 0 s = s.
Proof. destruct s; reflexivity. Qed.

Lemma slice_from_S (i : nat) (c : ascii) (rest : string) :
  slice_from (S i) (String c rest) = slice_from i rest.
Proof. reflexivity. Qed.

Lemma slice_to_S (i : nat) (c : ascii) (rest : string) :
  slice_to (S i) (String c rest) = String c (slice_to i rest).
Proof. reflexivity. Qed.

Lemma slice_from_app (a b : string) :
  slice_from (String.length a) (a ++ b) = b.
Proof.
  induction a as [|c a IH].
  - apply slice_from_0.
  - exact IH.
Qed.

Lemma slice_to_app (a b : string) :
  slice_to (String.length a) (a ++ b) = a.
Proof.
  induction a as [|c a IH].
  - destruct b; reflexivity.
  - cbn [String.length append]. rewrite slice_to_S, IH. reflexivity.
Qed.

Lemma find_app_sep (sep : ascii) (a b : string) :
  find sep a = None ->
  find sep (a ++ String sep b) = Some (String.length a).
Proof.
  induction a as [|c a IH]; cbn [append find String.length]; intro N.
  - rewrite Ascii.eqb_refl. reflexivity.
  - destruct (Ascii.eqb c sep); [discriminate|].
    destruct (find sep a); [discriminate|].
    rewrite IH; reflexivity.
Qed.

Lemma find_split (sep : ascii) (x : string) :
  forall i, find sep x = Some i ->
  x = (slice_to i x ++ String sep (slice_from (S i) x))%string
  /\ find sep (slice_to i x) = None.
Proof.
  induction x as [|c x IH]; cbn [find]; intros i H.
  - discriminate.
  - destruct (Ascii.eqb c sep) eqn:C.
    + injection H as <-. apply Ascii.eqb_eq in C. subst c.
      rewrite slice_from_S, slice_from_0. split; reflexivity.
    + destruct (find sep x) as [j|]; [|discriminate].
      injection H as <-. destruct (IH j eq_refl) as [A B].
      rewrite slice_from_S, slice_to_S. split.
      * cbn [append]. f_equal. exact A.
      * cbn [find]. rewrite C, B. reflexivity.
Qed.

Lemma rfind_none_find (sep : ascii) (s : string) :
  rfind sep s = None -> find sep s = None.
Proof.
  induction s as [|c s IH]; cbn [rfind find]; [reflexivity|].
  destruct (rfind sep s); [discriminate|].
  destruct (Ascii.eqb c sep); [discriminate|].
  intros _. rewrite IH; reflexivity.
Qed.

Lemma find_none_rfind (sep : ascii) (s : string) :
  find sep s = None -> rfind sep s = None.
Proof.
  induction s as [|c s IH]; cbn [rfind find]; [reflexivity|].
  destruct (Ascii.eqb c sep); [discriminate|].
  destruct (find sep s); [discriminate|].
  intros _. rewrite IH; reflexivity.
Qed.

Lemma basename_cons_some (c : ascii) (rest : string) (j : nat) :
  rfind "/" rest = Some j -> basename (String c rest) = basename rest.
Proof.
  unfold basename. cbn [rfind]. intros ->.
  replace (S j + 1) with (S (j + 1)) by lia. reflexivity.
Qed.

Lemma basename_sep (key : string) : basename (String "/" key) = basename key.
Proof.
  destruct (rfind "/" key) as [i|] eqn:E.
  - exact (basename_cons_some "/" key i E).
  - unfold basename. cbn [rfind]. rewrite E. cbn [Ascii.eqb Bool.eqb].
    cbn [Nat.add]. rewrite slice_from_S, !slice_from_0. reflexivity.
Qed.

Lemma rfind_app_sep (a key : string) :
  exists j, rfind "/" (a ++ String "/" key) = Some j.
Proof.
  induction a as [|c a [j IH]]; cbn [append rfind].
  - destruct (rfind "/" key); cbn [Ascii.eqb Bool.eqb]; eauto.
  - rewrite IH. eauto.
Qed.

Lemma basename_app_sep (a key : string) :
  basename (a ++ String "/" key) = basename key.
Proof.
  induction a as [|c a IH].
  - apply basename_sep.
  - cbn [append]. destruct (rfind_app_sep a key) as [j E].
    rewrite (basename_cons_some _ _ _ E). exact IH.
Qed.

Lemma basename_spec (key : string) :
  find "/" (basename key) = None
  /\ exists directory,
       key = (directory ++ basename key)%string
       /\ (directory = ""
           \/ exists d, directory = (d ++ "/")%string).
Proof.
  induction key as [|c rest IH].
  - split; [reflexivity|]. exists "". split; [reflexivity | now left].
  - destruct (rfind "/" rest) as [j|] eqn:E.
    + rewrite (basename_cons_some c rest j E).
      destruct IH as [N (dir & K & D)]. split; [exact N|].
      exists (String c dir). split; [cbn [append]; f_equal; exact K|].
      right. destruct D as [->|[d ->]].
      * cbn [append] in K. rewrite <- K in N.
        rewrite (find_none_rfind _ _ N) in E. discriminate.
      * exists (String c d). reflexivity.
    + unfold basename. cbn [rfind]. rewrite E.
      destruct (Ascii.eqb c "/") eqn:C.
      * apply Ascii.eqb_eq in C. subst c.
        cbn [Nat.add]. rewrite slice_from_S, slice_from_0.
        split; [exact (rfind_none_find _ _ E)|].
        exists "/". split; [reflexivity|]. right. exists "". reflexivity.
      * rewrite slice_from_0. split.
        -- cbn [find]. rewrite C, (rfind_none_find _ _ E). reflexivity.
        -- exists "". split; [reflexivity | now left].
Qed.

Lemma prefix_slice (a p : string) :
  String.prefix a p = true ->
  p = (a ++ slice_from (String.length a) p)%string.
Proof.
  revert p. induction a as [|c a IH]; intros p H.
  - cbn [String.length append]. now rewrite slice_from_0.
  - destruct p as [|c' p]; [discriminate|].
    cbn [String.prefix] in H. destruct (ascii_dec c c') as [->|]; [|discriminate].
    cbn [String.length append]. rewrite slice_from_S. f_equal. exact (IH p H).
Qed.

Lemma prefix_app (a b : string) : String.prefix a (a ++ b) = true.
Proof.
  induction a as [|c a IH].
  - destruct b; reflexivity.
  - cbn [append String.prefix].
    destruct (ascii_dec c c) as [_|Z]; [exact IH | now destruct Z].
Qed.

Lemma downloaded_grows (l : list S3.download) (d : S3.download) :
  l ++ [d] <> l.
Proof.
  intro H. apply (f_equal (@List.length _)) in H.
  rewrite length_app in H. simpl in H. lia.
Qed.

Context {World : Type}.
Variable boto3_client : World -> Result unit * World.
Variable download_file : S3.download -> World -> Result unit * World.

(** X11.  For the S3 URI made of a bucket name without a slash and a key,
    and a client that is obtained, [get_local_path] requests exactly one
    download, of that bucket and that key, into the file named by the part
    of the key after its last slash; it returns that name when the
    download returns and raises what the download raises.  The name has no
    slash, the key ends with it, and it is empty exactly when the key is
    empty or ends with a slash. *)
Theorem get_local_path_s3 (bucket key : string) (s : Env World) (w1 : World) :
  find "/" bucket = None ->
  boto3_client (world s) = (Returned tt, w1) ->
  get_local_path boto3_client download_file
    ("s3://" ++ bucket ++ "/" ++ key) s
  = (match download_file (S3.mk bucket key (basename key)) w1 with
     | (Returned _, w2) =>
         (Returned (basename key),
          mkEnv (downloaded s ++ [S3.mk bucket key (basename key)]) w2)
     | (Raised e, w2) =>
         (Raised e,
          mkEnv (downloaded s ++ [S3.mk bucket key (basename key)]) w2)
     end)
  /\ find "/" (basename key) = None
  /\ (exists directory, key = (directory ++ basename key)%string)
  /\ (basename key = ""
      <-> key = "" \/ exists directory, key = (directory ++ "/")%string).
Proof.
  intros N C.
  destruct (basename_spec key) as [B (dir & K & D)].
  split; [|split; [exact B|split; [eauto|]]].
  - unfold get_local_path.
    unfold startswith. rewrite prefix_app.
    unfold call_client. rewrite C.
    change (slice_from 5 ("s3://" ++ bucket ++ "/" ++ key))
      with (slice_from 0 (bucket ++ "/" ++ key)).
    rewrite slice_from_0. unfold split_once.
    change (bucket ++ "/" ++ key)%string with (bucket ++ String "/" key)%string.
    rewrite (find_app_sep "/" bucket key N), slice_to_app.
    replace (S (String.length bucket))
      with (String.length (bucket ++ "/")) by
      (rewrite length_append; simpl; lia).
    replace (bucket ++ String "/" key)%string
      with ((bucket ++ "/") ++ key)%string
      by (rewrite append_assoc; reflexivity).
    rewrite slice_from_app.
    replace (basename ("s3://" ++ (bucket ++ "/") ++ key))
      with (basename key).
    + unfold call_download_file.
      cbn [downloaded world].
      destruct (download_file (S3.mk bucket key (basename key)) w1)
        as [[u|e] w2]; reflexivity.
    + symmetry.
      replace ("s3://" ++ (bucket ++ "/") ++ key)%string
        with (("s3://" ++ bucket) ++ String "/" key)%string.
      * apply basename_app_sep.
      * rewrite !append_assoc. reflexivity.
  - split.
    + intro E. rewrite E, append_empty_r in K. subst dir.
      destruct D as [->|[d ->]]; [now left | right; eauto].
    + intros [->|[d ->]]; [reflexivity|].
      change (d ++ "/")%string with (d ++ String "/" "")%string.
      rewrite basename_app_sep. reflexivity.
Qed.

(** X12.  What [get_local_path] downloads.  A path that does not start
    with the S3 prefix is returned as it is; an S3 URI without a slash
    after the bucket name raises [ValueError], once the client is
    obtained.  A run requests at most one download, and the download
    requested names the bucket, the key and the base name of the URI it
    was given; none is requested exactly when the path is not an S3 URI,
    the client cannot be obtained, or the URI has no slash after the
    bucket name. *)
Theorem get_local_path_requests (file_path : string) (s : Env World) :
  (startswith "s3://" file_path = false ->
   get_local_path boto3_client download_file file_path s
   = (Returned file_path, s))
  /\ (forall w1,
        startswith "s3://" file_path = true ->
        boto3_client (world s) = (Returned tt, w1) ->
        find "/" (slice_from 5 file_path) = None ->
        get_local_path boto3_client download_file file_path s
        = (Raised (ValueError
                     "not enough values to unpack (expected 2, got 1)"),
           mkEnv (downloaded s) w1))
  /\ (downloaded (snd (get_local_path boto3_client download_file file_path s))
      = downloaded s
      \/ exists d,
           downloaded
             (snd (get_local_path boto3_client download_file file_path s))
           = downloaded s ++ [d]
           /\ file_path
              = ("s3://" ++ S3.Bucket d ++ "/" ++ S3.Key d)%string
           /\ find "/" (S3.Bucket d) = None
           /\ S3.Filename d = basename file_path)
  /\ (downloaded (snd (get_local_path boto3_client download_file file_path s))
      = downloaded s
      <-> startswith "s3://" file_path = false
          \/ (exists e w1, boto3_client (world s) = (Raised e, w1))
          \/ find "/" (slice_from 5 file_path) = None).
Proof.
  unfold get_local_path, call_client, call_download_file, split_once.
  destruct (startswith "s3://" file_path) eqn:P.
  - destruct (boto3_client (world s)) as [[[]|e] w1] eqn:C.
    + destruct (find "/" (slice_from 5 file_path)) as [i|] eqn:F.
      * destruct (find_split "/" _ i F) as [X N].
        set (d := S3.mk (slice_to i (slice_from 5 file_path))
                        (slice_from (S i) (slice_from 5 file_path))
                        (basename file_path)).
        assert (R : downloaded
                      (snd (let (r, w') := download_file d w1 in
                            match (r, mkEnv (downloaded s ++ [d]) w') with
                            | (Returned _, s2) =>
                                (Returned (basename file_path), s2)
                            | (Raised e, s2) => (Raised e, s2)
                            end))
                    = downloaded s ++ [d])
          by (destruct (download_file d w1) as [[u|e] w2]; reflexivity).
        cbn [downloaded world].
        assert (R' : downloaded
                      (snd (match
                              (let (r, w') := download_file d w1 in
                               (r, mkEnv (downloaded s ++ [d]) w'))
                            with
                            | (Returned _, s2) =>
                                (Returned (basename file_path), s2)
                            | (Raised e, s2) => (Raised e, s2)
                            end))
                    = downloaded s ++ [d])
          by (destruct (download_file d w1) as [[u|e] w2]; reflexivity).
        split; [discriminate|]. split; [discriminate|]. split.
        -- right. exists d. split; [exact R'|].
           split; [|split; [exact N | reflexivity]].
           cbn [S3.Bucket S3.Key d].
           rewrite (prefix_slice "s3://" file_path P) at 1.
           cbn [String.length]. rewrite X at 1. reflexivity.
        -- fold d. rewrite R'. split.
           ++ intro Z. destruct (downloaded_grows _ _ Z).
           ++ intros [Z|[(e & w & Z)|Z]]; discriminate.
      * cbn [snd downloaded].
        split; [discriminate|].
        split; [intros w _ E _; injection E as <-; reflexivity|].
        split; [now left|]. split; auto.
    + cbn [snd downloaded].
      split; [discriminate|]. split; [discriminate|].
      split; [now left|]. split; eauto.
  - cbn [snd]. split; [reflexivity|]. split; [discriminate|].
    split; [now left|]. split; auto.
Qed.

End ValidatorFacts.

Lemma get_local_path_s3_witness :
  Validator.find "/" "my-bucket" = None
  /\ Validator.get_local_path Validator.client_ready Validator.always_found
       "s3://my-bucket/data/train.jsonl" (Validator.mkEnv [] tt)
     = (Validator.Returned "train.jsonl",
        Validator.mkEnv
          [Validator.S3.mk "my-bucket" "data/train.jsonl" "train.jsonl"] tt).
Proof.
  split; [reflexivity|].
  exact (proj1 (get_local_path_s3 Validator.client_ready
                  Validator.always_found "my-bucket" "data/train.jsonl"
                  (Validator.mkEnv [] tt) tt eq_refl eq_refl)).
Defined.
